(** * A shallow embedding of the text search engine

    The development follows the Python sources file by file: one module per
    source file, the definitions keeping the names of the functions they
    embed.  Dictionaries are [gmap]s, sets are [gset]s, Python integers are
    [Z], list indices are [nat].  Code that can raise returns an [outcome].

    Strings.  A Python [str] is modelled by a Rocq [string] whose characters
    are the code points below 256; the character classes below ([isspace],
    [isdigit], the regular expression class [\w], [lower]) are Python's,
    restricted to that range. *)

From Stdlib Require Import ZArith QArith Lia Ascii.
From stdpp Require Import base option list gmap sets strings sorting.

Local Open Scope Z_scope.
Set Warnings "-clear-no-such-hyp".

(** ** Python prelude *)

Module Py.

(** Exceptions the embedded code can raise. *)
Inductive exn : Type :=
  | ValueError
  | IndexError
  | Exception (msg : string).

(** The result of running a piece of code: a value, an exception, or
    exhaustion of the recursion budget of the model. *)
Inductive outcome (A : Type) : Type :=
  | Ok (a : A)
  | Raise (e : exn)
  | OutOfFuel.
Arguments Ok {A} a.
Arguments Raise {A} e.
Arguments OutOfFuel {A}.

#[global] Instance outcome_ret : MRet outcome := λ A a, Ok a.
#[global] Instance outcome_bind : MBind outcome := λ A B k m,
  match m with
  | Ok a => k a
  | Raise e => Raise e
  | OutOfFuel => OutOfFuel
  end.

(** [l[i]]: an index outside the list raises. *)
Definition getitem {A} (l : list A) (i : nat) : outcome A :=
  match l !! i with
  | Some x => Ok x
  | None => Raise IndexError
  end.

(** *** Characters *)

Definition ord (c : ascii) : N := Ascii.N_of_ascii c.
Definition chr (n : N) : ascii := Ascii.ascii_of_N n.

Definition between (lo hi n : N) : bool := ((lo <=? n) && (n <=? hi))%N.

(** [str.isspace] on one character. *)
Definition isspace (c : ascii) : bool :=
  let n := ord c in
  between 9 13 n || between 28 32 n || (n =? 133)%N || (n =? 160)%N.

(** The ASCII decimal digits, the ones [int] accepts. *)
Definition isdecimal (c : ascii) : bool := between 48 57 (ord c).

(** [str.isdigit] on one character: the decimal digits and the superscript
    digits. *)
Definition isdigit_char (c : ascii) : bool :=
  let n := ord c in
  isdecimal c || (n =? 178)%N || (n =? 179)%N || (n =? 185)%N.

(** The class [\w] of [re] on [str] patterns: alphanumerics and underscore. *)
Definition isword (c : ascii) : bool :=
  let n := ord c in
  between 48 57 n || between 65 90 n || (n =? 95)%N || between 97 122 n
  || (n =? 170)%N || (n =? 178)%N || (n =? 179)%N || (n =? 181)%N
  || (n =? 185)%N || (n =? 186)%N || between 188 190 n
  || between 192 214 n || between 216 246 n || between 248 255 n.

(** [str.lower] on one character.  Below 256 the lower case of a character
    is one character below 256; beyond that range it need not be one
    character (U+0130 gives two), so what is proved of [lower] is proved of
    texts of code points below 256. *)
Definition lower_char (c : ascii) : ascii :=
  let n := ord c in
  if between 65 90 n || (between 192 222 n && negb (n =? 215)%N)
  then chr (n + 32) else c.

(** [str.upper] on one character.  The three characters below 256 whose
    upper case is not below 256 are left unchanged; the code only compares
    the result with the reserved words, none of which they can produce. *)
Definition upper_char (c : ascii) : ascii :=
  let n := ord c in
  if between 97 122 n || (between 224 254 n && negb (n =? 247)%N)
  then chr (n - 32) else c.

(** *** Strings *)

Fixpoint map_string (f : ascii → ascii) (s : string) : string :=
  match s with
  | EmptyString => EmptyString
  | String c s' => String (f c) (map_string f s')
  end.

Definition lower : string → string := map_string lower_char.
Definition upper : string → string := map_string upper_char.

Fixpoint all_chars (p : ascii → bool) (s : string) : bool :=
  match s with
  | EmptyString => true
  | String c s' => p c && all_chars p s'
  end.

Definition is_empty (s : string) : bool :=
  match s with EmptyString => true | _ => false end.

(** [s.isdigit()]: nonempty and every character is a digit. *)
Definition isdigit (s : string) : bool :=
  negb (is_empty s) && all_chars isdigit_char s.

(** [s.lstrip(chars)] and [s.rstrip(chars)], the set of characters given as
    a predicate. *)
Fixpoint lstrip_by (p : ascii → bool) (s : string) : string :=
  match s with
  | EmptyString => EmptyString
  | String c s' => if p c then lstrip_by p s' else s
  end.

Fixpoint rstrip_by (p : ascii → bool) (s : string) : string :=
  match s with
  | EmptyString => EmptyString
  | String c s' =>
      let r := rstrip_by p s' in
      if is_empty r && p c then EmptyString else String c r
  end.

(** [s.strip()] *)
Definition strip (s : string) : string := rstrip_by isspace (lstrip_by isspace s).

(** [s.split()]: the maximal runs of non-whitespace characters.  [cur] is
    the run being read. *)
Fixpoint split_go (cur : string) (s : string) : list string :=
  match s with
  | EmptyString => if is_empty cur then [] else [cur]
  | String c s' =>
      if isspace c
      then (if is_empty cur then split_go "" s' else cur :: split_go "" s')
      else split_go (cur +:+ String c "") s'
  end.

Definition split (s : string) : list string := split_go "" s.

(** [s.split(sep)] for a one-character separator: empty fields are kept and
    the result is never empty. *)
Fixpoint split_on (sep : ascii) (s : string) : list string :=
  match s with
  | EmptyString => [""]
  | String c s' =>
      if decide (c = sep) then "" :: split_on sep s'
      else match split_on sep s' with
           | x :: xs => String c x :: xs
           | [] => [String c ""]
           end
  end.

(** [sep.join(parts)] *)
Fixpoint join (sep : string) (parts : list string) : string :=
  match parts with
  | [] => ""
  | [x] => x
  | x :: rest => x +:+ sep +:+ join sep rest
  end.

(** The text-mode line iterator of a file opened with universal newlines:
    a line ends at LF, CR or CR LF, and is yielded with a final LF. *)
Definition LF : ascii := "010"%char.
Definition CR : ascii := "013"%char.

Fixpoint readlines_go (cur : string) (s : string) : list string :=
  match s with
  | EmptyString => if is_empty cur then [] else [cur]
  | String c s' =>
      if decide (c = LF) then (cur +:+ String LF "") :: readlines_go "" s'
      else if decide (c = CR) then
        match s' with
        | String c2 s'' =>
            if decide (c2 = LF) then (cur +:+ String LF "") :: readlines_go "" s''
            else (cur +:+ String LF "") :: readlines_go "" s'
        | EmptyString => [cur +:+ String LF ""]
        end
      else readlines_go (cur +:+ String c "") s'
  end.

Definition readlines (content : string) : list string := readlines_go "" content.

(** *** Integers and their decimal text *)

Definition digit_value (c : ascii) : Z := Z.of_N (ord c) - 48.
Definition digit_char (d : Z) : ascii := chr (Z.to_N (48 + d)).

(** The digits of an [int] literal: decimal digits, single underscores
    allowed between two digits.  [prev] tells whether the previous character
    was a digit. *)
Fixpoint parse_digits (acc : Z) (prev : bool) (s : string) : option Z :=
  match s with
  | EmptyString => if prev then Some acc else None
  | String c s' =>
      if isdecimal c then parse_digits (10 * acc + digit_value c) true s'
      else if bool_decide (c = "_"%char) && prev then parse_digits acc false s'
      else None
  end.

(** The white space [int] removes around a number: the characters of
    [str.isspace] without the four separators U+001C to U+001F, which make
    [int] raise. *)
Definition isspace_int (c : ascii) : bool :=
  let n := ord c in
  between 9 13 n || (n =? 32)%N || (n =? 133)%N || (n =? 160)%N.

(** [int(s)]: surrounding whitespace, an optional sign, digits. *)
Definition int (s : string) : outcome Z :=
  let s := rstrip_by isspace_int (lstrip_by isspace_int s) in
  let '(neg, body) :=
    match s with
    | String c r =>
        if decide (c = "-"%char) then (true, r)
        else if decide (c = "+"%char) then (false, r)
        else (false, s)
    | EmptyString => (false, s)
    end in
  match parse_digits 0 false body with
  | Some n => Ok (if neg then - n else n)
  | None => Raise ValueError
  end.

(** [str(n)] for an integer.  A number below [2 ^ fuel] has at most [fuel]
    decimal digits. *)
Fixpoint str_digits (fuel : nat) (n : Z) (acc : string) : string :=
  match fuel with
  | O => acc
  | S fuel' =>
      let acc' := String (digit_char (n mod 10)) acc in
      if n <? 10 then acc' else str_digits fuel' (n / 10) acc'
  end.

Definition str_nonneg (n : Z) : string :=
  str_digits (S (Z.to_nat (Z.log2 n))) n "".

Definition str (n : Z) : string :=
  if n <? 0 then String "-"%char (str_nonneg (- n)) else str_nonneg n.

(** *** Loops *)

(** [range(n)] and [range(a, b)]; empty when the bound is not above the
    start. *)
Definition range (n : Z) : list nat := seq 0 (Z.to_nat n).
Definition range_from (a : nat) (b : Z) : list nat :=
  seq a (Z.to_nat (b - Z.of_nat a)).

Definition len {A} (l : list A) : Z := Z.of_nat (length l).

(** [sorted(l, key=...)] and [list.sort(key=...)]: a stable sort, [le]
    comparing the keys.  Each element is put before the first element of the
    sorted rest whose key is not smaller. *)
Fixpoint insert_sorted {A} (le : A → A → bool) (x : A) (l : list A) : list A :=
  match l with
  | [] => [x]
  | y :: l' => if le x y then x :: l else y :: insert_sorted le x l'
  end.

Definition stable_sort {A} (le : A → A → bool) (l : list A) : list A :=
  foldr (insert_sorted le) [] l.

(** [d[k] = v] on a dictionary kept in insertion order: a key that is
    present keeps its place. *)
Fixpoint dict_set {V} (d : list (string * V)) (k : string) (v : V)
    : list (string * V) :=
  match d with
  | [] => [(k, v)]
  | (k', v') :: d' =>
      if decide (k' = k) then (k, v) :: d' else (k', v') :: dict_set d' k v
  end.

(** [s[i:j]] *)
Fixpoint drop_chars (n : nat) (s : string) : string :=
  match n, s with
  | O, _ => s
  | S n', String _ s' => drop_chars n' s'
  | S _, EmptyString => EmptyString
  end.

Fixpoint take_chars (n : nat) (s : string) : string :=
  match n, s with
  | O, _ => EmptyString
  | S n', String c s' => String c (take_chars n' s')
  | S _, EmptyString => EmptyString
  end.

Definition slice (s : string) (i j : nat) : string :=
  take_chars (j - i) (drop_chars i s).

(** [for x in l: s = body(s, x)], stopping at the first exception. *)
Fixpoint for_each {A S} (body : S → A → outcome S) (s : S) (l : list A)
    : outcome S :=
  match l with
  | [] => Ok s
  | x :: l' => s' ← body s x ; for_each body s' l'
  end.

(** [[f(x) for x in l]] for an [f] that can raise. *)
Fixpoint map_outcome {A B} (f : A → outcome B) (l : list A) : outcome (list B) :=
  match l with
  | [] => Ok []
  | x :: l' => y ← f x ; ys ← map_outcome f l' ; Ok (y :: ys)
  end.

(** [enumerate(l)] *)
Definition enumerate {A} (l : list A) : list (nat * A) := imap pair l.

(** [l[:n]]: a negative bound counts from the end. *)
Definition prefix {A} (l : list A) (n : Z) : list A :=
  if 0 <=? n then take (Z.to_nat n) l
  else take (length l - Z.to_nat (- n)) l.

(** [itertools.product] of the lists: the tuples in the order in which the last
    list varies fastest; one empty tuple when there is no list. *)
Fixpoint product {A} (lists : list (list A)) : list (list A) :=
  match lists with
  | [] => [[]]
  | l :: rest => l ≫= λ x, (x ::.) <$> product rest
  end.

End Py.

Import Py.

(** ** lists.py: posting-list intersection *)

Module Lists.

(** The body of the [for line in f] loop of [load_inverted_index]. *)
Definition load_line (inverted_index : gmap string (gset Z)) (line : string)
    : outcome (gmap string (gset Z)) :=
  let parts := split (strip line) in
  if bool_decide (length parts < 3)%nat then Ok inverted_index
  else
    term ← getitem parts 0 ;
    posting_str ← getitem parts 2 ;
    let doc_ids := split_on ","%char posting_str in
    ids ← map_outcome int (filter (λ doc_id, isdigit doc_id) doc_ids) ;
    Ok (<[term := list_to_set ids]> inverted_index).

(** [load_inverted_index], on the text of the index file. *)
Definition load_inverted_index (content : string)
    : outcome (gmap string (gset Z)) :=
  for_each load_line ∅ (readlines content).

(** The [while] loop of [intersect_linear]; every iteration advances [i] or
    [j], so [length list1 + length list2] iterations are enough. *)
Fixpoint intersect_linear_loop (fuel : nat) (list1 list2 : list Z)
    (i j : nat) (result : list Z) : outcome (list Z) :=
  if bool_decide (i < length list1 ∧ j < length list2)%nat then
    match fuel with
    | O => OutOfFuel
    | S fuel' =>
        a ← getitem list1 i ;
        b ← getitem list2 j ;
        if a =? b then
          intersect_linear_loop fuel' list1 list2 (S i) (S j) (result ++ [a])
        else if a <? b then
          intersect_linear_loop fuel' list1 list2 (S i) j result
        else
          intersect_linear_loop fuel' list1 list2 i (S j) result
    end
  else Ok result.

Definition intersect_linear (list1 list2 : list Z) : outcome (list Z) :=
  intersect_linear_loop (length list1 + length list2) list1 list2 0 0 [].

(** [binary_search]: [Some mid] when found, [None] for the source's [-1].
    The interval [low, high) shrinks at every iteration. *)
Fixpoint binary_search_loop (fuel : nat) (arr : list Z) (target : Z)
    (low high : nat) : outcome (option nat) :=
  if bool_decide (low < high)%nat then
    match fuel with
    | O => OutOfFuel
    | S fuel' =>
        let mid := ((low + high) / 2)%nat in
        x ← getitem arr mid ;
        if x =? target then Ok (Some mid)
        else if x <? target then
          binary_search_loop fuel' arr target (S mid) high
        else
          binary_search_loop fuel' arr target low mid
    end
  else Ok None.

Definition binary_search (arr : list Z) (target : Z) (low high : nat)
    : outcome (option nat) :=
  binary_search_loop (high - low) arr target low high.

(** The probing loop of [intersect_galloping]: [hi] doubles while it is
    inside [list2] and the element there is smaller than [element].  It
    returns the final [(lo, hi)]. *)
Fixpoint gallop_loop (fuel : nat) (list2 : list Z) (element : Z)
    (lo hi : nat) : outcome (nat * nat) :=
  if bool_decide (hi < length list2)%nat then
    x ← getitem list2 hi ;
    if x <? element then
      match fuel with
      | O => OutOfFuel
      | S fuel' => gallop_loop fuel' list2 element hi (hi * 2)%nat
      end
    else Ok (lo, hi)
  else Ok (lo, hi).

(** The body of the [for element in list1] loop. *)
Definition gallop_step (list2 : list Z) (result : list Z) (element : Z)
    : outcome (list Z) :=
  '(lo, hi) ← gallop_loop (length list2) list2 element 0 1 ;
  let hi := Nat.min hi (length list2) in
  pos ← binary_search list2 element lo hi ;
  match pos with
  | Some _ => Ok (result ++ [element])
  | None => Ok result
  end.

Definition intersect_galloping (list1 list2 : list Z) : outcome (list Z) :=
  let '(list1, list2) :=
    if bool_decide (length list2 < length list1)%nat
    then (list2, list1) else (list1, list2) in
  for_each (gallop_step list2) [] list1.

(** [string.ascii_lowercase], one string per letter. *)
Definition ascii_lowercase : list string :=
  (λ n, String (chr (N.of_nat n)) "") <$> seq 97 26.

(** The body of the loop of [create_letter_lists] over the items of the
    index: [term[0].lower()] is looked up in the 26 lists. *)
Definition add_term_docs (term : string) (doc_ids : gset Z)
    (letter_lists : gmap string (gset Z)) : gmap string (gset Z) :=
  match term with
  | EmptyString => letter_lists
  | String c _ =>
      let first_char := lower (String c "") in
      match letter_lists !! first_char with
      | Some docs => <[first_char := docs ∪ doc_ids]> letter_lists
      | None => letter_lists
      end
  end.

Definition create_letter_lists (inverted_index : gmap string (gset Z))
    : gmap string (list Z) :=
  let letter_lists : gmap string (gset Z) :=
    list_to_map ((λ letter, (letter, ∅)) <$> ascii_lowercase) in
  let letter_lists := map_fold add_term_docs letter_lists inverted_index in
  (λ docs, merge_sort Z.le (elements docs)) <$> letter_lists.

End Lists.

(** ** boolean.py: the Boolean query engine *)

Module Boolean.

(** The body of the [for line in f] loop of [load_inverted_index]. *)
Definition load_line (inverted_index : gmap string (gset Z)) (line : string)
    : outcome (gmap string (gset Z)) :=
  let parts := split (strip line) in
  if bool_decide (length parts < 3)%nat then Ok inverted_index
  else
    term ← getitem parts 0 ;
    posting_str ← getitem parts 2 ;
    let doc_ids := split_on ","%char posting_str in
    ids ← map_outcome int (filter (λ doc_id, isdigit doc_id) doc_ids) ;
    Ok (<[term := list_to_set ids]> inverted_index).

(** [load_inverted_index], on the text of the index file. *)
Definition load_inverted_index (content : string)
    : outcome (gmap string (gset Z)) :=
  for_each load_line ∅ (readlines content).

Definition build_all_docs (inverted_index : gmap string (gset Z)) : gset Z :=
  map_fold (λ _ postings all_docs, all_docs ∪ postings) ∅ inverted_index.

(** [re.findall] with the pattern of [tokenize].  A match never ends inside
    a run of word characters ([\w+] is greedy and a reserved word must end
    at a word boundary), so every run is met at its first character and is
    returned whole, by the reserved-word alternatives when it is one of the
    three words and by [\w+] otherwise; a parenthesis is a token of its own
    and every other character is skipped.  [cur] is the run being read. *)
Definition flush (cur : string) : list string :=
  if is_empty cur then [] else [cur].

Fixpoint findall_go (cur : string) (s : string) : list string :=
  match s with
  | EmptyString => flush cur
  | String c s' =>
      if isword c then findall_go (cur +:+ String c "") s'
      else if bool_decide (c = "("%char ∨ c = ")"%char)
      then flush cur ++ String c "" :: findall_go "" s'
      else flush cur ++ findall_go "" s'
  end.

Definition findall (query : string) : list string := findall_go "" query.

Definition standardize (token : string) : string :=
  if bool_decide (upper token ∈ ["AND"; "OR"; "NOT"]) then upper token
  else if bool_decide (token ∈ ["("; ")"]) then token
  else lower token.

Definition tokenize (query : string) : list string :=
  standardize <$> findall query.

(** The parser.  Its fields [tokens], [inverted_index] and [all_docs] never
    change; [index] is threaded through the methods. *)
Section BooleanQueryParser.
Context (tokens : list string) (inverted_index : gmap string (gset Z))
        (all_docs : gset Z).

(** [None] is Python's [None], returned past the last token. *)
Definition current_token (index : nat) : option string := tokens !! index.

(** How an f-string prints the current token. *)
Definition show_token (t : option string) : string := default "None" t.

Definition eat (token : string) (index : nat) : outcome nat :=
  if decide (current_token index = Some token) then Ok (S index)
  else Raise (Exception ("Expected token '" +:+ token +:+ "', got '"
                         +:+ show_token (current_token index) +:+ "'")).

(** The mutually recursive methods and the two [while] loops; [fuel]
    bounds the depth of calls. *)
Fixpoint parse_or (fuel : nat) (index : nat) : outcome (gset Z * nat) :=
  match fuel with
  | O => OutOfFuel
  | S fuel =>
      '(result, index) ← parse_and fuel index ;
      parse_or_loop fuel result index
  end
with parse_or_loop (fuel : nat) (result : gset Z) (index : nat)
    : outcome (gset Z * nat) :=
  match fuel with
  | O => OutOfFuel
  | S fuel =>
      if decide (current_token index = Some "OR") then
        index ← eat "OR" index ;
        '(right_, index) ← parse_and fuel index ;
        parse_or_loop fuel (result ∪ right_) index
      else Ok (result, index)
  end
with parse_and (fuel : nat) (index : nat) : outcome (gset Z * nat) :=
  match fuel with
  | O => OutOfFuel
  | S fuel =>
      '(result, index) ← parse_not fuel index ;
      parse_and_loop fuel result index
  end
with parse_and_loop (fuel : nat) (result : gset Z) (index : nat)
    : outcome (gset Z * nat) :=
  match fuel with
  | O => OutOfFuel
  | S fuel =>
      if decide (current_token index = Some "AND") then
        index ← eat "AND" index ;
        '(right_, index) ← parse_not fuel index ;
        parse_and_loop fuel (result ∩ right_) index
      else Ok (result, index)
  end
with parse_not (fuel : nat) (index : nat) : outcome (gset Z * nat) :=
  match fuel with
  | O => OutOfFuel
  | S fuel =>
      if decide (current_token index = Some "NOT") then
        index ← eat "NOT" index ;
        '(operand, index) ← parse_not fuel index ;
        Ok (all_docs ∖ operand, index)
      else parse_primary fuel index
  end
with parse_primary (fuel : nat) (index : nat) : outcome (gset Z * nat) :=
  match fuel with
  | O => OutOfFuel
  | S fuel =>
      let token := current_token index in
      if decide (token = Some "(") then
        index ← eat "(" index ;
        '(result, index) ← parse_or fuel index ;
        index ← eat ")" index ;
        Ok (result, index)
      else
        (* [inverted_index.get(token, set())]; [None] is not a key *)
        Ok (default ∅ (t ← token ; inverted_index !! t), S index)
  end.

Definition parse_query (fuel : nat) (index : nat) : outcome (gset Z * nat) :=
  parse_or fuel index.

End BooleanQueryParser.

(** A depth of calls that no token list exceeds. *)
Definition parse_fuel (tokens : list string) : nat := 6 * length tokens + 6.

Definition process_boolean_query (query : string)
    (inverted_index : gmap string (gset Z)) (all_docs : gset Z)
    : outcome (gset Z) :=
  let tokens := tokenize query in
  '(result, _) ← parse_query tokens inverted_index all_docs (parse_fuel tokens) 0 ;
  Ok result.

End Boolean.

(** ** inverted_index.py: saving the term index *)

Module InvertedIndex.

(** [sorted(inverted_index.items())]: the keys of a dictionary are distinct,
    so the order of the pairs is the order of the terms, Python's order on
    strings (by code point). *)
Definition item_le (a b : string * gset Z) : Prop := String.le a.1 b.1.

#[global] Instance item_le_dec : RelDecision item_le.
Proof. intros a b. unfold item_le. apply _. Defined.

(** What one iteration writes. *)
Definition save_line (term : string) (postings : gset Z) : string :=
  let df := Z.of_nat (size postings) in
  let postings_list := join "," (str <$> merge_sort Z.le (elements postings)) in
  term +:+ " " +:+ str df +:+ " " +:+ postings_list +:+ String LF "".

(** [save_inverted_index]: the text written to the output file. *)
Definition save_inverted_index (inverted_index : gmap string (gset Z)) : string :=
  foldr (λ '(term, postings) rest, save_line term postings +:+ rest) ""
        (merge_sort item_le (map_to_list inverted_index)).

(** The body of [for token in unique_tokens] of [build_inverted_index]:
    [inverted_index[token].add(doc_id)] changes the set stored at the key,
    which the line before has made sure is there. *)
Definition add_token (doc_id : Z) (token : string)
    (inverted_index : gmap string (gset Z)) : gmap string (gset Z) :=
  let inverted_index :=
    if decide (inverted_index !! token = None)
    then <[token := ∅]> inverted_index else inverted_index in
  alter (λ postings, postings ∪ {[doc_id]}) token inverted_index.

(** The state of the loop [for filename in doc_files]. *)
Record build_state : Type := BuildState {
  inverted_index_of : gmap string (gset Z);
  doc_id_map_of : gmap Z string;
  doc_distinct_word_counts_of : gmap Z Z;
  doc_count_of : Z
}.

(** One iteration, on a file name and the tokens [preprocess_text] returns
    for the text of the file; the HTML parser, the stop words and the
    stemmer are libraries.  The set [unique_tokens] is visited in some
    order. *)
Definition index_document (state : build_state) (document : string * list string)
    : build_state :=
  let '(filename, tokens) := document in
  let unique_tokens : gset string := list_to_set tokens in
  let doc_id := doc_count_of state in
  {| doc_id_map_of := <[doc_id := filename]> (doc_id_map_of state);
     doc_distinct_word_counts_of :=
       <[doc_id := Z.of_nat (size unique_tokens)]>
         (doc_distinct_word_counts_of state);
     inverted_index_of :=
       set_fold (add_token doc_id) (inverted_index_of state) unique_tokens;
     doc_count_of := doc_count_of state + 1 |}.

Definition build_inverted_index (documents : list (string * list string))
    : gmap string (gset Z) * gmap Z string * gmap Z Z :=
  let state := foldl index_document (BuildState ∅ ∅ ∅ 0) documents in
  (inverted_index_of state, doc_id_map_of state,
   doc_distinct_word_counts_of state).

End InvertedIndex.

(** ** compare_indexes.py *)

Module CompareIndexes.

(** [count_terms], on the text of the file, [None] when the file does not
    exist. *)
Definition count_terms (file : option string) : Z :=
  match file with
  | None => 0
  | Some content => len (readlines content)
  end.

End CompareIndexes.

(** ** positional_phrase_query.py *)

Module PositionalPhraseQuery.

(** [positional_index[term][doc_id] = positions] on the nested
    [defaultdict]. *)
Definition set_positions (term : string) (doc_id : Z) (positions : list Z)
    (positional_index : gmap string (gmap Z (list Z)))
    : gmap string (gmap Z (list Z)) :=
  <[term := <[doc_id := positions]> (default ∅ (positional_index !! term))]>
    positional_index.

(** The body of [for posting in postings]; unpacking a list that has not
    exactly two elements raises [ValueError]. *)
Definition load_posting (term : string)
    (positional_index : gmap string (gmap Z (list Z))) (posting : string)
    : outcome (gmap string (gmap Z (list Z))) :=
  let posting := rstrip_by (λ c, bool_decide (c = ";"%char)) posting in
  match split_on ":"%char posting with
  | [doc_id; positions] =>
      positions ← map_outcome int (split_on ","%char positions) ;
      doc_id ← int doc_id ;
      Ok (set_positions term doc_id positions positional_index)
  | _ => Raise ValueError
  end.

(** The body of [for line in f]; [term, *postings = ...] needs at least one
    element and raises [ValueError] otherwise. *)
Definition load_line (positional_index : gmap string (gmap Z (list Z)))
    (line : string) : outcome (gmap string (gmap Z (list Z))) :=
  match split (strip line) with
  | term :: postings => for_each (load_posting term) positional_index postings
  | [] => Raise ValueError
  end.

(** [load_positional_index], on the text of an existing index file. *)
Definition load_positional_index (content : string)
    : outcome (gmap string (gmap Z (list Z))) :=
  for_each load_line ∅ (readlines content).

(** [set(positional_index.get(word, {}).keys())] *)
Definition docs_of (positional_index : gmap string (gmap Z (list Z)))
    (word : string) : gset Z :=
  dom (default ∅ (positional_index !! word)).

(** [positional_index[word][doc_id]]; a missing key of a [defaultdict]
    reads as the default value. *)
Definition positions_of (positional_index : gmap string (gmap Z (list Z)))
    (word : string) (doc_id : Z) : list Z :=
  default [] (default ∅ (positional_index !! word) !! doc_id).

(** The test made for one candidate document: some [pos] of the first list
    with [pos + i] in the [i]-th list for every [i] from 1. *)
Definition contiguous (positions : list (list Z)) (n : nat) : bool :=
  existsb
    (λ pos, forallb
       (λ i, bool_decide (pos + Z.of_nat i ∈ default [] (positions !! i)))
       (range_from 1 (Z.of_nat n)))
    (default [] (positions !! 0%nat)).

Definition phrase_query (phrase : string)
    (positional_index : gmap string (gmap Z (list Z))) : gset Z :=
  let words := split (lower phrase) in
  match words with
  | [] => ∅
  | first_word :: _ =>
      let result_docs :=
        foldl (λ result_docs current_word,
                 result_docs ∩ docs_of positional_index current_word)
              (docs_of positional_index first_word) (drop 1 words) in
      foldl (λ final_docs doc_id,
               let positions :=
                 (λ word, positions_of positional_index word doc_id) <$> words in
               if contiguous positions (length words)
               then final_docs ∪ {[doc_id]} else final_docs)
            ∅ (elements result_docs)
  end.

End PositionalPhraseQuery.

(** ** phrase_query.py: phrase retrieval over the biword index *)

Module PhraseQuery.

(** The body of [for line in f] of [load_biword_index]. *)
Definition load_line (biword_index : gmap string (gset Z)) (line : string)
    : outcome (gmap string (gset Z)) :=
  let parts := split (strip line) in
  if bool_decide (length parts < 3)%nat then Ok biword_index
  else
    biword ← getitem parts 0 ;
    field ← getitem parts 2 ;
    doc_ids ← map_outcome int (split_on ","%char field) ;
    Ok (<[biword := list_to_set doc_ids]> biword_index).

(** [load_biword_index], on the text of the index file, [None] when the
    file does not exist. *)
Definition load_biword_index (file : option string)
    : outcome (gmap string (gset Z)) :=
  match file with
  | None => Ok ∅
  | Some content => for_each load_line ∅ (readlines content)
  end.

Section stemmer.
(** [stemmer.stem] of the NLTK Porter stemmer, an external library. *)
Context (stem : string → string).

Definition phrase_to_biwords (phrase : string) : outcome (list string) :=
  let words := split (lower phrase) in
  let stemmed_words := stem <$> words in
  map_outcome
    (λ i, a ← getitem stemmed_words i ;
          b ← getitem stemmed_words (i + 1) ;
          Ok (a +:+ "_" +:+ b))
    (range (len stemmed_words - 1)).

(** [set.intersection] applied to the unpacked [doc_lists] *)
Definition intersection_all (doc_lists : list (gset Z)) : gset Z :=
  match doc_lists with
  | [] => ∅
  | first :: rest => foldl (∩) first rest
  end.

Definition retrieve_documents (phrase : string)
    (biword_index : gmap string (gset Z)) : outcome (gset Z) :=
  biwords ← phrase_to_biwords phrase ;
  match biwords with
  | [] => Ok ∅
  | _ =>
      let doc_lists := (λ biword, default ∅ (biword_index !! biword)) <$> biwords in
      Ok (intersection_all doc_lists)
  end.
End stemmer.

End PhraseQuery.

(** ** biword_index.py: the reduction of the per-document results *)

Module BiwordIndex.

(** [biword_index[biword].add(doc_id)] on a [defaultdict(set)]. *)
Definition add_posting (doc_id : Z) (biword_index : gmap (string * string) (gset Z))
    (biword : string * string) : gmap (string * string) (gset Z) :=
  <[biword := default ∅ (biword_index !! biword) ∪ {[doc_id]}]> biword_index.

(** One iteration of [for future in futures], on the result of the
    future. *)
Definition merge_result (biword_index : gmap (string * string) (gset Z))
    (result : Z * list (string * string)) : gmap (string * string) (gset Z) :=
  let '(doc_id, biwords) := result in
  foldl (add_posting doc_id) biword_index biwords.

(** [build_biword_index] from the results of the futures, in the order
    they are merged: the loop [for future in futures]. *)
Definition build_biword_index (results : list (Z * list (string * string)))
    : gmap (string * string) (gset Z) :=
  foldl merge_result ∅ results.

(** One element of the list comprehension of [process_document]:
    [None] when the condition does not hold.  The second token is read only
    when the first is long enough. *)
Definition biword_at (tokens : list string) (i : nat)
    : outcome (option (string * string)) :=
  first ← getitem tokens i ;
  if bool_decide (1 < String.length first)%nat then
    second ← getitem tokens (i + 1) ;
    if bool_decide (1 < String.length second)%nat
    then Ok (Some (first, second)) else Ok None
  else Ok None.

(** [process_document] from the list comprehension on: [tokens] is what
    [preprocess_text] returned for the text of the file.  Opening and
    decoding the file, which can raise, comes before and is not part of
    this definition. *)
Definition process_document (doc_id : Z) (tokens : list string)
    : outcome (Z * list (string * string)) :=
  map_outcome (biword_at tokens) (range (len tokens - 1))
  ≫= λ found : list (option (string * string)), Ok (doc_id, omap id found).

(** The results of the futures of [build_biword_index], which are made for
    [enumerate(doc_files)] and read in that order, and the index made of
    them; [documents] holds the token lists of the files, in the order of
    the listing. *)
Definition process_documents (documents : list (list string))
    : outcome (list (Z * list (string * string))) :=
  map_outcome (λ '(doc_id, tokens), process_document (Z.of_nat doc_id) tokens)
              (enumerate documents).

Definition build_biword_index_of (documents : list (list string))
    : outcome (gmap (string * string) (gset Z)) :=
  results ← process_documents documents ;
  Ok (build_biword_index results).

(** [sorted(biword_index.items())]: the keys are distinct pairs of strings,
    compared component by component. *)
Definition biword_le (a b : string * string) : Prop :=
  if decide (a.1 = b.1) then String.le a.2 b.2 else String.le a.1 b.1.

Definition item_le (a b : (string * string) * gset Z) : Prop :=
  biword_le a.1 b.1.

#[global] Instance item_le_dec : RelDecision item_le.
Proof.
  intros a b. unfold item_le, biword_le. destruct (decide _); apply _.
Defined.

(** What [save_biword_index] writes for a biword it keeps. *)
Definition save_line (biword : string * string) (doc_ids : gset Z) : string :=
  let df := Z.of_nat (size doc_ids) in
  let postings_list := join "," (str <$> merge_sort Z.le (elements doc_ids)) in
  biword.1 +:+ "_" +:+ biword.2 +:+ " " +:+ str df +:+ " " +:+ postings_list
    +:+ String LF "".

(** [save_biword_index]: the text written to the output file; a biword of
    one document only is left out. *)
Definition save_biword_index (biword_index : gmap (string * string) (gset Z))
    : string :=
  foldr (λ '(biword, doc_ids) rest,
           if bool_decide (1 < size doc_ids)%nat
           then save_line biword doc_ids +:+ rest else rest) ""
        (merge_sort item_le (map_to_list biword_index)).

End BiwordIndex.

(** ** positional_index.py: the reduction of the per-document results *)

Module PositionalIndex.

(** [positional_index[token][doc_id].extend(pos_list)] on the nested
    [defaultdict]. *)
Definition extend_positions (doc_id : Z) (token : string) (pos_list : list Z)
    (positional_index : gmap string (gmap Z (list Z)))
    : gmap string (gmap Z (list Z)) :=
  let postings := default ∅ (positional_index !! token) in
  <[token := <[doc_id := default [] (postings !! doc_id) ++ pos_list]> postings]>
    positional_index.

(** One iteration of [for future in futures]: the loop over
    [positions.items()], a dictionary from tokens to position lists. *)
Definition merge_result (positional_index : gmap string (gmap Z (list Z)))
    (result : Z * gmap string (list Z)) : gmap string (gmap Z (list Z)) :=
  let '(doc_id, positions) := result in
  map_fold (extend_positions doc_id) positional_index positions.

(** [build_positional_index] from the results of the futures, in the order
    they are merged. *)
Definition build_positional_index (results : list (Z * gmap string (list Z)))
    : gmap string (gmap Z (list Z)) :=
  foldl merge_result ∅ results.

(** The body of the loop of [process_document]:
    [positions[token].append(position)] on a [defaultdict(list)]. *)
Definition add_position (positions : gmap string (list Z))
    (item : nat * string) : gmap string (list Z) :=
  let '(position, token) := item in
  <[token := default [] (positions !! token) ++ [Z.of_nat position]]> positions.

(** [process_document] from the loop over the tokens on: [tokens] is what
    [preprocess_text] returned for the text of the file.  Opening and
    decoding the file, which can raise, comes before and is not part of
    this definition. *)
Definition process_document (doc_id : Z) (tokens : list string)
    : Z * gmap string (list Z) :=
  (doc_id, foldl add_position ∅ (enumerate tokens)).

(** [build_positional_index] from the token lists of the files: the futures
    are made for [enumerate(doc_files)] and read in that order. *)
Definition build_positional_index_of (documents : list (list string))
    : gmap string (gmap Z (list Z)) :=
  build_positional_index
    ((λ '(doc_id, tokens), process_document (Z.of_nat doc_id) tokens)
     <$> enumerate documents).

(** [sorted(positional_index.items())] and [sorted(postings.items())]: the
    keys are distinct, so the pairs are ordered by their keys. *)
Definition item_le (a b : string * gmap Z (list Z)) : Prop := String.le a.1 b.1.

#[global] Instance item_le_dec : RelDecision item_le.
Proof. intros a b. unfold item_le. apply _. Defined.

Definition posting_le (a b : Z * list Z) : Prop := a.1 ≤ b.1.

#[global] Instance posting_le_dec : RelDecision posting_le.
Proof. intros a b. unfold posting_le. apply _. Defined.

(** The text of one posting, [doc_id:position,position,...]. *)
Definition posting_text (posting : Z * list Z) : string :=
  str posting.1 +:+ ":" +:+ join "," (str <$> posting.2).

(** What one iteration of [save_positional_index] writes. *)
Definition save_line (term : string) (postings : gmap Z (list Z)) : string :=
  let posting_str :=
    join "; " (posting_text <$> merge_sort posting_le (map_to_list postings)) in
  term +:+ " " +:+ posting_str +:+ String LF "".

(** [save_positional_index]: the text written to the output file. *)
Definition save_positional_index
    (positional_index : gmap string (gmap Z (list Z))) : string :=
  foldr (λ '(term, postings) rest, save_line term postings +:+ rest) ""
        (merge_sort item_le (map_to_list positional_index)).

End PositionalIndex.

(** ** ngram_jaccard_correction.py: candidate generation *)

Module NgramJaccardCorrection.

(** The vocabulary is a dictionary read in insertion order: the order of
    the ties of the rankings below. *)

(** The body of [for line in file] of [load_vocabulary_with_frequency]. *)
Definition load_line (vocabulary : list (string * Z)) (line : string)
    : outcome (list (string * Z)) :=
  let parts := split (strip line) in
  term ← getitem parts 0 ;
  df_text ← getitem parts 1 ;
  df ← int df_text ;
  Ok (dict_set vocabulary term df).

Definition load_vocabulary_with_frequency (content : string)
    : outcome (list (string * Z)) :=
  for_each load_line [] (readlines content).

(** The body of [for line in file] of [load_inverted_index]: a line without
    a third field gives the term an empty posting set. *)
Definition load_index_line (inverted_index : gmap string (gset Z))
    (line : string) : outcome (gmap string (gset Z)) :=
  let parts := split (strip line) in
  term ← getitem parts 0 ;
  postings ←
    (if bool_decide (2 < length parts)%nat then
       posting_str ← getitem parts 2 ;
       ids ← map_outcome int (split_on ","%char posting_str) ;
       Ok (list_to_set ids)
     else Ok ∅) ;
  Ok (<[term := postings]> inverted_index).

Definition load_inverted_index (content : string)
    : outcome (gmap string (gset Z)) :=
  for_each load_index_line ∅ (readlines content).

Definition get_ngrams (word : string) (n : nat) : gset string :=
  list_to_set ((λ i, slice word i (i + n)) <$>
               range (Z.of_nat (String.length word) - Z.of_nat n + 1)).

Definition combined_ngrams (word : string) : gset string :=
  get_ngrams word 2 ∪ get_ngrams word 3.

(** The similarity is kept as an exact fraction.  The source divides two
    set sizes in double precision; the quotients of two naturals below
    [2 ^ 26] are rounded to doubles that compare as the fractions do. *)
Definition jaccard_similarity (set1 set2 : gset string) : Q :=
  let intersection := set1 ∩ set2 in
  let union := set1 ∪ set2 in
  if decide (union = ∅) then 0%Q
  else (inject_Z (Z.of_nat (size intersection)) / inject_Z (Z.of_nat (size union)))%Q.

(** The order of the keys [(-similarity, -df)]. *)
Definition jaccard_key_le (a b : string * Q * Z) : bool :=
  let '(_, sim_a, df_a) := a in
  let '(_, sim_b, df_b) := b in
  if Qeq_bool (- sim_a) (- sim_b) then (- df_a <=? - df_b)
  else Qle_bool (- sim_a) (- sim_b).

(** [candidates] after the loop over [vocabulary.items()]. *)
Definition jaccard_matches (word : string) (vocabulary : list (string * Z))
    (min_similarity : Q) (min_df : Z) : list (string * Q * Z) :=
  let word_ngrams := combined_ngrams word in
  omap (λ '(vocab_word, df),
          if min_df <=? df then
            let vocab_ngrams := combined_ngrams vocab_word in
            let similarity := jaccard_similarity word_ngrams vocab_ngrams in
            if Qle_bool min_similarity similarity
            then Some (vocab_word, similarity, df) else None
          else None)
       vocabulary.

(** [candidates] after [candidates.sort]. *)
Definition jaccard_ranked (word : string) (vocabulary : list (string * Z))
    (min_similarity : Q) (min_df : Z) : list (string * Q * Z) :=
  stable_sort jaccard_key_le (jaccard_matches word vocabulary min_similarity min_df).

Definition find_jaccard_candidates (word : string) (vocabulary : list (string * Z))
    (top_n : nat) (min_similarity : Q) (min_df : Z) : list string :=
  (λ c, c.1.1) <$> take top_n (jaccard_ranked word vocabulary min_similarity min_df).

Section levenshtein.
(** [Levenshtein.distance], an external library. *)
Context (distance : string → string → Z).

Definition edit_key_le (a b : string * Z) : bool := a.2 <=? b.2.

Definition edit_matches (word : string) (vocabulary : list (string * Z))
    (max_distance : Z) : list (string * Z) :=
  omap (λ '(vocab_word, _),
          if distance word vocab_word <=? max_distance
          then Some (vocab_word, distance word vocab_word) else None)
       vocabulary.

Definition edit_ranked (word : string) (vocabulary : list (string * Z))
    (max_distance : Z) : list (string * Z) :=
  stable_sort edit_key_le (edit_matches word vocabulary max_distance).

Definition find_edit_distance_candidates (word : string)
    (vocabulary : list (string * Z)) (max_distance : Z) (top_n : nat)
    : list string :=
  fst <$> take top_n (edit_ranked word vocabulary max_distance).

(** The default arguments of the two calls. *)
Definition top_n_jaccard : nat := 7.
Definition min_similarity : Q := (3 # 10)%Q.
Definition min_df : Z := 20.
Definition max_distance : Z := 2.
Definition top_n_edit : nat := 5.

Definition get_best_candidates (word : string) (vocabulary : list (string * Z))
    : list string :=
  let candidates :=
    find_jaccard_candidates word vocabulary top_n_jaccard min_similarity min_df in
  let candidates :=
    match candidates with
    | [] => find_edit_distance_candidates word vocabulary max_distance top_n_edit
    | _ => candidates
    end in
  match candidates with
  | [] => [word]
  | _ => candidates
  end.
Definition generate_alternative_queries (query : string)
    (vocabulary : list (string * Z)) (max_alternatives : Z) : list string :=
  let words := split query in
  let corrected_terms :=
    (λ word, get_best_candidates word vocabulary) <$> words in
  let all_combinations := product corrected_terms in
  join " " <$> prefix all_combinations max_alternatives.
End levenshtein.

(** [retrieve_documents_for_query].  [postings] holds the set objects
    stored in the index, one for each key as the loader makes them (a term
    that is missing gives a new empty set, and then the function returns
    before the loop).  [result] is the object stored at the first term, and
    [result &= post] changes that object, so the index changes: the index
    after the call is returned beside the result.  [post] is read from the
    stored objects when it is used, the first term can be met again. *)
Fixpoint intersect_loop (first : string) (inverted_index : gmap string (gset Z))
    (terms : list string) : gmap string (gset Z) :=
  match terms with
  | [] => inverted_index
  | term :: rest =>
      let result := default ∅ (inverted_index !! first) in
      let post := default ∅ (inverted_index !! term) in
      let inverted_index := <[first := result ∩ post]> inverted_index in
      if decide (default ∅ (inverted_index !! first) = ∅) then inverted_index
      else intersect_loop first inverted_index rest
  end.

Definition retrieve_documents_for_query (query : string)
    (inverted_index : gmap string (gset Z))
    : gset Z * gmap string (gset Z) :=
  let terms := split query in
  let postings := (λ term, default ∅ (inverted_index !! term)) <$> terms in
  match terms with
  | [] => (∅, inverted_index)
  | first :: rest =>
      if bool_decide (Forall (λ post, post ≠ ∅) postings) then
        let inverted_index := intersect_loop first inverted_index rest in
        (default ∅ (inverted_index !! first), inverted_index)
      else (∅, inverted_index)
  end.

End NgramJaccardCorrection.

(** ** spelling_correction_edit.py *)

Module SpellingCorrectionEdit.

(** The body of [for line in file] of [load_vocabulary_with_frequency]. *)
Definition load_line (vocabulary : list (string * Z)) (line : string)
    : outcome (list (string * Z)) :=
  let parts := split (strip line) in
  term ← getitem parts 0 ;
  df_text ← getitem parts 1 ;
  df ← int df_text ;
  Ok (dict_set vocabulary term df).

Definition load_vocabulary_with_frequency (content : string)
    : outcome (list (string * Z)) :=
  for_each load_line [] (readlines content).

(** The body of [for line in file] of [load_inverted_index]. *)
Definition load_index_line (inverted_index : gmap string (gset Z))
    (line : string) : outcome (gmap string (gset Z)) :=
  let parts := split (strip line) in
  term ← getitem parts 0 ;
  postings ←
    (if bool_decide (2 < length parts)%nat then
       posting_str ← getitem parts 2 ;
       ids ← map_outcome int (split_on ","%char posting_str) ;
       Ok (list_to_set ids)
     else Ok ∅) ;
  Ok (<[term := postings]> inverted_index).

Definition load_inverted_index (content : string)
    : outcome (gmap string (gset Z)) :=
  for_each load_index_line ∅ (readlines content).

Section levenshtein.
(** [Levenshtein.distance], an external library. *)
Context (distance : string → string → Z).

(** The order of the keys [(distance, -df)]. *)
Definition edit_key_le (a b : string * Z * Z) : bool :=
  let '(_, distance_a, df_a) := a in
  let '(_, distance_b, df_b) := b in
  if distance_a =? distance_b then (- df_a <=? - df_b)
  else distance_a <=? distance_b.

(** [candidates] before and after [candidates.sort]. *)
Definition edit_matches (word : string) (vocabulary : list (string * Z))
    (max_distance min_df : Z) : list (string * Z * Z) :=
  omap (λ '(vocab_word, df),
          if (distance word vocab_word <=? max_distance) && (min_df <=? df)
          then Some (vocab_word, distance word vocab_word, df) else None)
       vocabulary.

Definition edit_ranked (word : string) (vocabulary : list (string * Z))
    (max_distance min_df : Z) : list (string * Z * Z) :=
  stable_sort edit_key_le (edit_matches word vocabulary max_distance min_df).

Definition find_edit_distance_candidates (word : string)
    (vocabulary : list (string * Z)) (max_distance : Z) (top_n : Z) (min_df : Z)
    : list string :=
  (λ c, c.1.1) <$> prefix (edit_ranked word vocabulary max_distance min_df) top_n.

(** The default arguments. *)
Definition max_distance : Z := 2.
Definition top_n : Z := 5.
Definition min_df : Z := 20.

Definition generate_alternative_queries (query : string)
    (vocabulary : list (string * Z)) : list string :=
  let corrected_terms :=
    (λ word,
       let candidates :=
         find_edit_distance_candidates word vocabulary max_distance top_n min_df in
       match candidates with
       | [] => [word]
       | _ => candidates
       end) <$> split query in
  let alternative_queries := product corrected_terms in
  join " " <$> alternative_queries.
End levenshtein.

(** [retrieve_documents_for_query]: [result.intersection(post)] makes a new
    set, the index is not changed. *)
Fixpoint intersect_loop (result : gset Z) (postings : list (gset Z)) : gset Z :=
  match postings with
  | [] => result
  | post :: rest =>
      let result := result ∩ post in
      if decide (result = ∅) then result else intersect_loop result rest
  end.

Definition retrieve_documents_for_query (query : string)
    (inverted_index : gmap string (gset Z)) : gset Z :=
  let terms := split query in
  let postings := (λ term, default ∅ (inverted_index !! term)) <$> terms in
  match postings with
  | [] => ∅
  | first :: rest => intersect_loop first rest
  end.

End SpellingCorrectionEdit.

(** ** Vocabulary of the statements *)

Definition nl : string := String LF "".

(** A term as the index has it and as the tokenizer reads it back: a
    nonempty run of word characters, in lower case, that is not a reserved
    word. *)
Definition is_term (t : string) : Prop :=
  t ≠ "" ∧ all_chars isword t = true ∧ lower t = t
  ∧ upper t ∉ ["AND"; "OR"; "NOT"].

(** The posting set of a term, empty when the term is not in the index. *)
Definition postings (inverted_index : gmap string (gset Z)) (t : string) : gset Z :=
  default ∅ (inverted_index !! t).

(** The word occurs at offset [pos] of document [doc_id], by the positional
    index. *)
Definition occurs_at (positional_index : gmap string (gmap Z (list Z)))
    (word : string) (doc_id : Z) (pos : Z) : Prop :=
  ∃ docs positions,
    positional_index !! word = Some docs ∧ docs !! doc_id = Some positions
    ∧ pos ∈ positions.

(** The ranking of the similarity candidates [(word, similarity, df)]:
    greater similarity first, then greater document frequency. *)
Definition ranks_before (a b : string * Q * Z) : Prop :=
  (b.1.2 < a.1.2)%Q ∨ ((a.1.2 == b.1.2)%Q ∧ b.2 ≤ a.2).

(** The ranking of the edit-distance candidates [(word, distance)]. *)
Definition nearer (a b : string * Z) : Prop := a.2 ≤ b.2.

(** The value of a run of digits read after [acc]. *)
Fixpoint horner (acc : Z) (ds : string) : Z :=
  match ds with
  | EmptyString => acc
  | String c ds' => horner (10 * acc + digit_value c) ds'
  end.

(** The term indexes the round trip is stated for: nonempty terms without
    whitespace, nonempty posting sets of non-negative document ids. *)
Definition well_formed_index (inverted_index : gmap string (gset Z)) : Prop :=
  ∀ term docs, inverted_index !! term = Some docs →
    term ≠ "" ∧ all_chars (λ c, negb (isspace c)) term = true
    ∧ docs ≠ ∅ ∧ ∀ d, d ∈ docs → 0 ≤ d.

(** The line [term df docId,docId,...] of the index file. *)
Definition index_line (term : string) (ids : list Z) : string :=
  term +:+ " " +:+ str (len ids) +:+ " " +:+ join "," (str <$> ids) +:+ nl.

(** A parsing method called at [index] ends, and when it returns normally
    it has moved beyond [index] ([advances]) or not moved back
    ([continues]). *)
Definition advances (index : nat) (r : outcome (gset Z * nat)) : Prop :=
  match r with
  | Ok (_, index') => (index < index')%nat
  | Raise _ => True
  | OutOfFuel => False
  end.

Definition continues (index : nat) (r : outcome (gset Z * nat)) : Prop :=
  match r with
  | Ok (_, index') => (index ≤ index')%nat
  | Raise _ => True
  | OutOfFuel => False
  end.

(** The usual edit distance, to run the examples: the source takes it from
    the library [Levenshtein], a parameter of the model. *)
Fixpoint edit_distance (s : string) : string → Z :=
  fix against (t : string) : Z :=
    match s, t with
    | EmptyString, _ => Z.of_nat (String.length t)
    | _, EmptyString => Z.of_nat (String.length s)
    | String a s', String b t' =>
        if decide (a = b) then edit_distance s' t'
        else 1 + Z.min (edit_distance s' t)
                       (Z.min (against t') (edit_distance s' t'))
    end.

(** A stand-in for the stemmer in examples: it removes the letters s that
    end a word. *)
Definition strip_plural (w : string) : string :=
  rstrip_by (λ c, bool_decide (c = "s"%char)) w.

(** The three documents of the worked example, normalised. *)
Definition example_index : gmap string (gset Z) :=
  {[ "real" := {[0; 1]}; "madrid" := {[0; 1]}; "win" := {[0]};
     "barcelona" := {[1]}; "beat" := {[1]};
     "transfer" := {[2]}; "news" := {[2]}; "today" := {[2]} ]}.


Definition example_positional : gmap string (gmap Z (list Z)) :=
  {[ "real" := {[0 := [0]; 1 := [2]]}; "madrid" := {[0 := [1]; 1 := [3]]};
     "win" := {[0 := [2]]}; "barcelona" := {[1 := [0]]}; "beat" := {[1 := [1]]};
     "transfer" := {[2 := [0]]}; "news" := {[2 := [1]]}; "today" := {[2 := [2]]} ]}.

Definition example_biwords : gmap string (gset Z) :=
  {[ "real_madrid" := {[0; 1]}; "madrid_win" := {[0]};
     "barcelona_beat" := {[1]}; "beat_real" := {[1]};
     "transfer_news" := {[2]}; "news_today" := {[2]} ]}.

(** The letter list a term goes to: its first character, in lower case. *)
Definition first_letter (term : string) : option string :=
  match term with
  | EmptyString => None
  | String c _ => Some (lower (String c ""))
  end.

(** Query trees, their value on an index, and their text with the fewest
    parentheses the grammar of the parser allows: [level] is 0 where an
    [OrExpr] can stand, 1 for an [AndExpr], 2 for a [NotExpr]. *)
Inductive query : Type :=
  | QTerm (t : string)
  | QNot (q : query)
  | QAnd (l r : query)
  | QOr (l r : query).

Fixpoint eval (inverted_index : gmap string (gset Z)) (all_docs : gset Z)
    (q : query) : gset Z :=
  match q with
  | QTerm t => postings inverted_index t
  | QNot q => all_docs ∖ eval inverted_index all_docs q
  | QAnd l r => eval inverted_index all_docs l ∩ eval inverted_index all_docs r
  | QOr l r => eval inverted_index all_docs l ∪ eval inverted_index all_docs r
  end.

Definition parenthesized (b : bool) (ts : list string) : list string :=
  if b then "(" :: ts ++ [")"] else ts.

Fixpoint to_tokens (level : nat) (q : query) : list string :=
  match q with
  | QTerm t => [t]
  | QNot q => "NOT" :: to_tokens 2 q
  | QAnd l r =>
      parenthesized (bool_decide (1 < level)%nat)
        (to_tokens 1 l ++ "AND" :: to_tokens 2 r)
  | QOr l r =>
      parenthesized (bool_decide (0 < level)%nat)
        (to_tokens 0 l ++ "OR" :: to_tokens 1 r)
  end.

Fixpoint terms_of (q : query) : list string :=
  match q with
  | QTerm t => [t]
  | QNot q => terms_of q
  | QAnd l r | QOr l r => terms_of l ++ terms_of r
  end.

(** The text of a query: its tokens separated by single spaces. *)
Definition query_text (q : query) : string := join " " (to_tokens 0 q).

(** The tokens [tokenize] can produce. *)
Definition valid_token (tok : string) : Prop :=
  tok ∈ ["AND"; "OR"; "NOT"] ∨ tok ∈ ["("; ")"] ∨ is_term tok.

(** [r] is [R], unless the depth of calls was exhausted. *)
Definition within {A} (r R : outcome A) : Prop := r = OutOfFuel ∨ r = R.

(** What each level of the grammar does on the text of a tree that starts
    at [i]; the two loops are entered with the value of the tree. *)
Definition not_level (tokens : list string)
    (inverted_index : gmap string (gset Z)) (all_docs : gset Z) (q : query)
    : Prop :=
  ∀ i post fuel, drop i tokens = to_tokens 2 q ++ post →
    within (Boolean.parse_not tokens inverted_index all_docs fuel i)
      (Ok (eval inverted_index all_docs q, i + length (to_tokens 2 q))%nat).

Definition and_level (tokens : list string)
    (inverted_index : gmap string (gset Z)) (all_docs : gset Z) (q : query)
    : Prop :=
  ∀ i post fuel R, drop i tokens = to_tokens 1 q ++ post →
    (∀ f, within (Boolean.parse_and_loop tokens inverted_index all_docs f
                    (eval inverted_index all_docs q)
                    (i + length (to_tokens 1 q))%nat) R) →
    within (Boolean.parse_and tokens inverted_index all_docs fuel i) R.

Definition or_level (tokens : list string)
    (inverted_index : gmap string (gset Z)) (all_docs : gset Z) (q : query)
    : Prop :=
  ∀ i post fuel R, drop i tokens = to_tokens 0 q ++ post →
    head post ≠ Some "AND" →
    (∀ f, within (Boolean.parse_or_loop tokens inverted_index all_docs f
                    (eval inverted_index all_docs q)
                    (i + length (to_tokens 0 q))%nat) R) →
    within (Boolean.parse_or tokens inverted_index all_docs fuel i) R.

(** The matches of the pattern of [tokenize]: a parenthesis or a nonempty
    run of word characters. *)
Definition raw_token (tok : string) : Prop :=
  tok ∈ ["("; ")"] ∨ (tok ≠ "" ∧ all_chars isword tok = true).

(** The posting set a parsing method returns, when it returns one, lies in
    [all_docs]. *)
Definition result_within (all_docs : gset Z) (r : outcome (gset Z * nat))
    : Prop :=
  match r with
  | Ok (result, _) => result ⊆ all_docs
  | _ => True
  end.

(** The ranking of the candidates [(word, distance, df)] of the
    edit-distance program: smaller distance first, then greater document
    frequency. *)
Definition nearer_then_frequent (a b : string * Z * Z) : Prop :=
  a.1.2 < b.1.2 ∨ (a.1.2 = b.1.2 ∧ b.2 ≤ a.2).

(** The key of a pair of words in the file of the biword index. *)
Definition biword_key (biword : string * string) : string :=
  biword.1 +:+ "_" +:+ biword.2.

(** The words the biword round trip is stated for: nonempty, without white
    space and without underscore. *)
Definition plain_word (t : string) : Prop :=
  t ≠ "" ∧ all_chars (λ c, negb (isspace c)) t = true
  ∧ all_chars (λ c, bool_decide (c ≠ "_"%char)) t = true.

Definition well_formed_biword_index
    (biword_index : gmap (string * string) (gset Z)) : Prop :=
  ∀ a b docs, biword_index !! (a, b) = Some docs →
    plain_word a ∧ plain_word b ∧ ∀ d, d ∈ docs → 0 ≤ d.



(** The token at offset [pos] of the document numbered [d] is [word]. *)
Definition token_at (documents : list (list string)) (d : Z) (pos : Z)
    (word : string) : Prop :=
  ∃ i tokens, d = Z.of_nat i ∧ documents !! i = Some tokens
    ∧ 0 ≤ pos ∧ tokens !! Z.to_nat pos = Some word.

(** The positional indexes the round trip is stated for: nonempty terms
    without white space, each with a document; nonempty position lists;
    document ids and positions not negative. *)
Definition well_formed_positional_index
    (positional_index : gmap string (gmap Z (list Z))) : Prop :=
  ∀ term postings, positional_index !! term = Some postings →
    term ≠ "" ∧ all_chars (λ c, negb (isspace c)) term = true
    ∧ postings ≠ ∅
    ∧ ∀ doc_id positions, postings !! doc_id = Some positions →
        0 ≤ doc_id ∧ positions ≠ [] ∧ Forall (λ p, 0 ≤ p) positions.

(** The fields [split] finds in postings joined by a semicolon and a space:
    each but the last keeps its semicolon. *)
Fixpoint with_semicolons (texts : list string) : list string :=
  match texts with
  | [] => []
  | [t] => [t]
  | t :: rest => (t +:+ ";") :: with_semicolons rest
  end.

(** * Worked examples *)

Example intersect_linear_ex :
  Lists.intersect_linear [1; 3; 5; 7] [3; 4; 5; 8; 9] = Ok [3; 5].
Proof. reflexivity. Qed.

Example tokenize_ex :
  Boolean.tokenize "liverpool OR (Real and NOT champions)"
  = ["liverpool"; "OR"; "("; "real"; "AND"; "NOT"; "champions"; ")"].
Proof. vm_compute. reflexivity. Qed.

Example str_ex : str 1205 = "1205" ∧ str 0 = "0" ∧ str (-17) = "-17".
Proof. vm_compute. auto. Qed.

Example int_ex :
  int "1205" = Ok 1205 ∧ int "-1_000" = Ok (-1000)
  ∧ int "1__0" = Raise ValueError ∧ int "" = Raise ValueError.
Proof. vm_compute. auto. Qed.

Example int_space_ex :
  int (" 12" +:+ String (chr 160) "") = Ok 12
  ∧ int (String (chr 28) "12") = Raise ValueError
  ∧ strip (String (chr 28) "12") = "12".
Proof. vm_compute. auto. Qed.

Example readlines_ex :
  readlines ("a b" +:+ String CR nl +:+ "c" +:+ nl +:+ nl +:+ "d")
  = ["a b" +:+ nl; "c" +:+ nl; nl; "d"].
Proof. vm_compute. auto. Qed.

Example split_ex :
  split " real  2 0,1 " = ["real"; "2"; "0,1"]
  ∧ split_on ","%char "0,1,,2" = ["0"; "1"; ""; "2"]
  ∧ strip "  a b " = "a b".
Proof. vm_compute. auto. Qed.

Example boolean_and_ex :
  Boolean.process_boolean_query "real AND madrid" example_index
    (Boolean.build_all_docs example_index) = Ok {[0; 1]}.
Proof. vm_compute. reflexivity. Qed.

Example boolean_and_not_ex :
  Boolean.process_boolean_query "real AND NOT barcelona" example_index
    (Boolean.build_all_docs example_index) = Ok {[0]}.
Proof. vm_compute. reflexivity. Qed.

Example positional_phrase_ex :
  PositionalPhraseQuery.phrase_query "real madrid" example_positional = {[0; 1]}.
Proof. vm_compute. reflexivity. Qed.

Example unclosed_group_ex :
  Boolean.process_boolean_query "(real" example_index
    (Boolean.build_all_docs example_index)
  = Raise (Exception "Expected token ')', got 'None'").
Proof. vm_compute. reflexivity. Qed.

(** * Strings *)

Lemma append_cons (a : ascii) (s t : string) :
  String a s +:+ t = String a (s +:+ t).
Proof. reflexivity. Qed.

Lemma append_nil (t : string) : "" +:+ t = t.
Proof. reflexivity. Qed.

Lemma append_snoc (cur : string) (c : ascii) (t : string) :
  (cur +:+ String c "") +:+ t = cur +:+ String c t.
Proof. induction cur as [|a cur IH]; [done|]. by rewrite !append_cons, IH. Qed.

Lemma append_empty_r (s : string) : s +:+ "" = s.
Proof. induction s as [|a s IH]; [done|]. by rewrite append_cons, IH. Qed.

Lemma append_assoc (s t u : string) : (s +:+ t) +:+ u = s +:+ (t +:+ u).
Proof. induction s as [|a s IH]; [done|]. by rewrite !append_cons, IH. Qed.

(** * Posting algebra (lists.py) *)

(** ** Linear intersection is the intersection *)

Lemma filter_elem_of_nil (l : list Z) : filter (λ x, x ∈ ([] : list Z)) l = [].
Proof.
  induction l as [|x l IH]; [done|].
  rewrite filter_cons_False; [done|]. by intros ?%elem_of_nil.
Qed.

Lemma filter_elem_of_ext (l t t' : list Z) :
  (∀ x, x ∈ l → (x ∈ t ↔ x ∈ t')) →
  filter (λ x, x ∈ t) l = filter (λ x, x ∈ t') l.
Proof.
  intros Hext. induction l as [|x l IH]; [done|].
  rewrite !filter_cons.
  rewrite IH by (intros y Hy; apply Hext; by right).
  destruct (decide (x ∈ t)) as [Hin|Hin], (decide (x ∈ t')) as [Hin'|Hin'];
    try done.
  - exfalso. apply Hin'. apply Hext; [left|done].
  - exfalso. apply Hin. apply Hext; [left|done].
Qed.

Lemma getitem_drop {A} (l : list A) (i : nat) :
  (i < length l)%nat →
  ∃ a, getitem l i = Ok a ∧ drop i l = a :: drop (S i) l.
Proof.
  intros Hi. destruct (lookup_lt_is_Some_2 l i Hi) as [a Ha].
  exists a. unfold getitem. rewrite Ha. split; [done|]. by apply drop_S.
Qed.

(** The loop from the indices [i] and [j] appends to [result] the elements
    of the rest of [list1] that are in the rest of [list2]. *)
Lemma intersect_linear_loop_spec (fuel : nat) (list1 list2 : list Z)
    (i j : nat) (result : list Z) :
  StronglySorted Z.lt (drop i list1) → StronglySorted Z.lt (drop j list2) →
  (length (drop i list1) + length (drop j list2) ≤ fuel)%nat →
  Lists.intersect_linear_loop fuel list1 list2 i j result
  = Ok (result ++ filter (λ x, x ∈ drop j list2) (drop i list1)).
Proof.
  revert i j result. induction fuel as [|fuel IH]; intros i j result Hs1 Hs2 Hfuel.
  - assert (drop i list1 = []) as Hd1 by (apply nil_length_inv; lia).
    cbn [Lists.intersect_linear_loop].
    rewrite bool_decide_eq_false_2.
    + by rewrite Hd1, app_nil_r.
    + intros [Hi _]. rewrite length_drop in Hfuel. lia.
  - cbn [Lists.intersect_linear_loop]. case_bool_decide as Hcond.
    + destruct Hcond as [Hi Hj].
      destruct (getitem_drop list1 i Hi) as (a & -> & Ha).
      destruct (getitem_drop list2 j Hj) as (b & -> & Hb).
      cbn [mbind outcome_bind]. rewrite Ha, Hb in *.
      apply StronglySorted_inv in Hs1 as [Hs1 Hall1].
      apply StronglySorted_inv in Hs2 as [Hs2 Hall2].
      rewrite Forall_forall in Hall1, Hall2. cbn [length] in Hfuel.
      destruct (a =? b) eqn:Hab; [|destruct (a <? b) eqn:Hlt].
      * apply Z.eqb_eq in Hab as <-.
        rewrite IH by (done || lia). rewrite <-app_assoc.
        rewrite filter_cons_True by left. cbn [app].
        apply (f_equal Ok), (f_equal (app result)), (f_equal (cons a)).
        apply filter_elem_of_ext.
        intros x Hx. rewrite elem_of_cons.
        specialize (Hall1 x Hx). split; [auto|intros [?|?]; [lia|done]].
      * apply Z.ltb_lt in Hlt.
        rewrite IH; [|done|by rewrite Hb; constructor; [|apply Forall_forall]
                     |rewrite Hb; cbn [length]; lia].
        rewrite Hb. apply (f_equal Ok), (f_equal (app result)).
        rewrite filter_cons_False; [done|].
        intros [?|Hin]%elem_of_cons; [lia|]. specialize (Hall2 a Hin). lia.
      * apply Z.eqb_neq in Hab. apply Z.ltb_ge in Hlt.
        rewrite IH; [|by rewrite Ha; constructor; [|apply Forall_forall]|done
                     |rewrite Ha; cbn [length]; lia].
        rewrite Ha. apply (f_equal Ok), (f_equal (app result)).
        apply filter_elem_of_ext. intros x Hx.
        rewrite elem_of_cons. split; [auto|]. intros [->|?]; [|done].
        apply elem_of_cons in Hx as [?|Hx]; [lia|]. specialize (Hall1 b Hx). lia.
    + f_equal.
      assert (drop i list1 = [] ∨ drop j list2 = []) as [->| ->].
      { destruct (decide (i < length list1)%nat);
          [right|left]; apply drop_ge; lia. }
      * by rewrite app_nil_r.
      * by rewrite filter_elem_of_nil, app_nil_r.
Qed.

(** On strictly ascending lists, [intersect_linear] returns the elements of
    the first list that are in the second, in order. *)
Lemma intersect_linear_spec (list1 list2 : list Z) :
  StronglySorted Z.lt list1 → StronglySorted Z.lt list2 →
  Lists.intersect_linear list1 list2 = Ok (filter (λ x, x ∈ list2) list1).
Proof.
  intros Hs1 Hs2. unfold Lists.intersect_linear.
  by rewrite intersect_linear_loop_spec.
Qed.

(** ** Galloping intersection returns common elements only *)

(** The binary search ends, reads inside the list, and an index it returns
    holds the target. *)
Lemma binary_search_loop_sound (fuel : nat) (arr : list Z) (target : Z)
    (low high : nat) :
  (high ≤ length arr)%nat → (high - low ≤ fuel)%nat →
  ∃ r, Lists.binary_search_loop fuel arr target low high = Ok r
       ∧ ∀ mid, r = Some mid → arr !! mid = Some target.
Proof.
  revert low high. induction fuel as [|fuel IH]; intros low high Hhigh Hfuel.
  - exists None. cbn [Lists.binary_search_loop].
    rewrite bool_decide_eq_false_2 by lia. done.
  - cbn [Lists.binary_search_loop]. case_bool_decide as Hlt; [|by exists None].
    assert (low ≤ (low + high) / 2 < high)%nat as Hmid.
    { split; [apply Nat.div_le_lower_bound|apply Nat.Div0.div_lt_upper_bound]; lia. }
    destruct (lookup_lt_is_Some_2 arr ((low + high) / 2)%nat) as [x Hx]; [lia|].
    unfold getitem. rewrite Hx. cbn [mbind outcome_bind].
    destruct (x =? target) eqn:Heq; [|destruct (x <? target)].
    + apply Z.eqb_eq in Heq as ->. eexists. split; [done|]. by intros ? [= <-].
    + apply IH; lia.
    + apply IH; lia.
Qed.

(** The probing loop ends: [hi] at least doubles at every iteration. *)
Lemma gallop_loop_total (fuel : nat) (list2 : list Z) (element : Z)
    (lo hi : nat) :
  (1 ≤ hi)%nat → (length list2 < fuel + hi)%nat →
  ∃ lo' hi', Lists.gallop_loop fuel list2 element lo hi = Ok (lo', hi').
Proof.
  revert lo hi. induction fuel as [|fuel IH]; intros lo hi Hhi Hfuel.
  - cbn [Lists.gallop_loop]. rewrite bool_decide_eq_false_2 by lia. eauto.
  - cbn [Lists.gallop_loop]. case_bool_decide as Hlt; [|eauto].
    destruct (lookup_lt_is_Some_2 list2 hi Hlt) as [x Hx].
    unfold getitem. rewrite Hx. cbn [mbind outcome_bind].
    destruct (x <? element); [|eauto]. apply IH; lia.
Qed.

Lemma gallop_step_sound (list2 result : list Z) (element : Z) :
  Lists.gallop_step list2 result element = Ok result
  ∨ (Lists.gallop_step list2 result element = Ok (result ++ [element])
     ∧ element ∈ list2).
Proof.
  unfold Lists.gallop_step.
  destruct (gallop_loop_total (length list2) list2 element 0 1)
    as (lo & hi & ->); [lia..|].
  cbn [mbind outcome_bind]. unfold Lists.binary_search.
  destruct (binary_search_loop_sound
              (Nat.min hi (length list2) - lo) list2 element lo
              (Nat.min hi (length list2))) as (r & -> & Hr); [lia..|].
  cbn [mbind outcome_bind]. destruct r as [mid|]; [right|left; done].
  split; [done|]. eapply list_elem_of_lookup_2, Hr. done.
Qed.

Lemma for_each_gallop_step_sound (list1 list2 result : list Z) :
  ∃ r, for_each (Lists.gallop_step list2) result list1 = Ok (result ++ r)
       ∧ ∀ x, x ∈ r → x ∈ list1 ∧ x ∈ list2.
Proof.
  revert result. induction list1 as [|element list1 IH]; intros result.
  - exists []. rewrite app_nil_r. split; [done|]. by intros x ?%elem_of_nil.
  - cbn [for_each].
    destruct (gallop_step_sound list2 result element) as [->|[-> Hin]];
      cbn [mbind outcome_bind].
    + destruct (IH result) as (r & -> & Hr). exists r. split; [done|].
      intros x Hx. destruct (Hr x Hx). split; [by right|done].
    + destruct (IH (result ++ [element])) as (r & -> & Hr).
      exists (element :: r). rewrite <-app_assoc. split; [done|].
      intros x [ ->|Hx]%elem_of_cons; [split; [left|done]|].
      destruct (Hr x Hx). split; [by right|done].
Qed.

(** [intersect_galloping] always returns, and what it returns is in both
    lists. *)
Lemma intersect_galloping_sound (list1 list2 : list Z) :
  ∃ r, Lists.intersect_galloping list1 list2 = Ok r
       ∧ ∀ x, x ∈ r → x ∈ list1 ∧ x ∈ list2.
Proof.
  unfold Lists.intersect_galloping. case_bool_decide.
  - destruct (for_each_gallop_step_sound list2 list1 []) as (r & -> & Hr).
    exists r. split; [done|]. intros x Hx. destruct (Hr x Hx). done.
  - destruct (for_each_gallop_step_sound list1 list2 []) as (r & -> & Hr).
    exists r. split; [done|]. intros x Hx. destruct (Hr x Hx). done.
Qed.

(** On strictly ascending lists, every element returned by the galloping
    intersection is returned by the linear one. *)
Lemma galloping_within_linear (list1 list2 : list Z) :
  StronglySorted Z.lt list1 → StronglySorted Z.lt list2 →
  ∃ linear galloping,
    Lists.intersect_linear list1 list2 = Ok linear
    ∧ Lists.intersect_galloping list1 list2 = Ok galloping
    ∧ ∀ x, x ∈ galloping → x ∈ linear.
Proof.
  intros Hs1 Hs2.
  destruct (intersect_galloping_sound list1 list2) as (g & Hg & Hin).
  exists (filter (λ x, x ∈ list2) list1), g.
  split; [by apply intersect_linear_spec|]. split; [done|].
  intros x Hx. apply list_elem_of_filter. destruct (Hin x Hx). done.
Qed.

(** Whenever the second of two elements is the one searched, the probe
    stops on it and the binary search misses it. *)
Lemma galloping_misses_second (x y : Z) :
  x < y →
  Lists.intersect_linear [y] [x; y] = Ok [y]
  ∧ Lists.intersect_galloping [y] [x; y] = Ok [].
Proof.
  intros Hxy.
  assert ((y =? x) = false) as H1 by (apply Z.eqb_neq; lia).
  assert ((y <? x) = false) as H2 by (apply Z.ltb_ge; lia).
  assert ((x =? y) = false) as H3 by (apply Z.eqb_neq; lia).
  assert ((x <? y) = true) as H4 by (apply Z.ltb_lt; lia).
  split.
  - unfold Lists.intersect_linear. cbn. rewrite H1, H2. cbn.
    by rewrite Z.eqb_refl.
  - unfold Lists.intersect_galloping.
    rewrite bool_decide_eq_false_2 by (cbn; lia).
    cbn [for_each]. unfold Lists.gallop_step. cbn [length Lists.gallop_loop].
    rewrite bool_decide_eq_true_2 by lia.
    cbn [getitem lookup list_lookup mbind outcome_bind].
    rewrite Z.ltb_irrefl. cbn [mbind outcome_bind].
    unfold Lists.binary_search. cbn [Nat.min Nat.sub Lists.binary_search_loop].
    rewrite bool_decide_eq_true_2 by lia.
    cbn [Nat.add Nat.div Nat.divmod fst getitem lookup list_lookup mbind outcome_bind].
    rewrite H3, H4. by rewrite bool_decide_eq_false_2 by lia.
Qed.

(** ** The two intersections differ *)

(** C1.  Linear and galloping intersection are meant to agree on ascending
    sequences; they do not.  On [[2]] and [[1; 2]] the probe of the
    galloping loop stops at [hi = 1] with [list2[hi] = element], the binary
    search then looks at the indices below [hi] only, and the common
    element is lost. *)
Theorem galloping_loses_element_at_probe :
  Lists.intersect_linear [2] [1; 2] = Ok [2]
  ∧ Lists.intersect_galloping [2] [1; 2] = Ok [].
Proof. split; reflexivity. Qed.

(** * Boolean queries (boolean.py) *)

(** ** The tokens of a query *)

Lemma findall_go_word (cur t : string) :
  all_chars isword t = true →
  Boolean.findall_go cur t = Boolean.flush (cur +:+ t).
Proof.
  revert cur. induction t as [|c t IH]; intros cur Hw; cbn in *.
  - by rewrite append_empty_r.
  - apply andb_prop in Hw as [Hc Ht]. rewrite Hc, IH by done.
    by rewrite append_snoc.
Qed.

Lemma standardize_term (t : string) :
  is_term t → Boolean.standardize t = t.
Proof.
  intros (Hne & Hw & Hlow & Hres). unfold Boolean.standardize.
  rewrite bool_decide_eq_false_2 by done.
  rewrite bool_decide_eq_false_2; [done|].
  intros Hin. destruct t as [|c t]; [done|].
  cbn in Hw. apply andb_prop in Hw as [Hc _].
  apply list_elem_of_In in Hin. simpl in Hin.
  destruct Hin as [Hin|[Hin|[]]]; inversion Hin; subst; by vm_compute in Hc.
Qed.


Lemma findall_go_word_char (cur : string) (c : ascii) (s : string) :
  isword c = true →
  Boolean.findall_go cur (String c s) = Boolean.findall_go (cur +:+ String c "") s.
Proof. intros Hc. cbn. by rewrite Hc. Qed.

Lemma findall_go_skip_char (cur : string) (c : ascii) (s : string) :
  isword c = false → c ≠ "("%char → c ≠ ")"%char →
  Boolean.findall_go cur (String c s) = Boolean.flush cur ++ Boolean.findall_go "" s.
Proof.
  intros Hc H1 H2. cbn. rewrite Hc.
  rewrite bool_decide_eq_false_2; [done|]. by intros [?|?].
Qed.



(** ** NOT and the universal set *)

Lemma build_all_docs_spec (inverted_index : gmap string (gset Z)) (d : Z) :
  d ∈ Boolean.build_all_docs inverted_index
  ↔ ∃ term docs, inverted_index !! term = Some docs ∧ d ∈ docs.
Proof.
  unfold Boolean.build_all_docs.
  apply (map_fold_weak_ind (λ (acc : gset Z) (m : gmap string (gset Z)),
    d ∈ acc ↔ ∃ term docs, m !! term = Some docs ∧ d ∈ docs)).
  - split; [set_solver|]. intros (term & docs & Hl & _). by rewrite lookup_empty in Hl.
  - intros term docs m acc Hnone IH. rewrite elem_of_union, IH. split.
    + intros [(t' & docs' & Hl & Hd)|Hd].
      * exists t', docs'. split; [|done]. rewrite lookup_insert_ne; [done|].
        intros ->. congruence.
      * exists term, docs. by rewrite lookup_insert_eq.
    + intros (t' & docs' & Hl & Hd).
      destruct (decide (term = t')) as [->|Hne].
      * rewrite lookup_insert_eq in Hl. right. congruence.
      * rewrite lookup_insert_ne in Hl by done. left. eauto.
Qed.

Lemma postings_subseteq_all_docs (inverted_index : gmap string (gset Z)) (t : string) :
  postings inverted_index t ⊆ Boolean.build_all_docs inverted_index.
Proof.
  intros d Hd. apply build_all_docs_spec. unfold postings in Hd.
  destruct (inverted_index !! t) as [docs|] eqn:Hl; [eauto|set_solver].
Qed.

(** One step of each method of the parser. *)
Section parser_steps.
Context (tokens : list string) (inverted_index : gmap string (gset Z))
        (all_docs : gset Z).
Abbreviation parse_or := (Boolean.parse_or tokens inverted_index all_docs).
Abbreviation parse_or_loop := (Boolean.parse_or_loop tokens inverted_index all_docs).
Abbreviation parse_and := (Boolean.parse_and tokens inverted_index all_docs).
Abbreviation parse_and_loop := (Boolean.parse_and_loop tokens inverted_index all_docs).
Abbreviation parse_not := (Boolean.parse_not tokens inverted_index all_docs).
Abbreviation parse_primary := (Boolean.parse_primary tokens inverted_index all_docs).

Lemma parse_primary_term (fuel i : nat) (t : string) :
  tokens !! i = Some t → t ≠ "(" →
  parse_primary (S fuel) i = Ok (postings inverted_index t, S i).
Proof.
  intros Ht Hne. simpl. unfold Boolean.current_token. rewrite Ht.
  rewrite decide_False by congruence. done.
Qed.

Lemma parse_primary_end (fuel i : nat) :
  tokens !! i = None → parse_primary (S fuel) i = Ok (∅, S i).
Proof.
  intros Ht. simpl. unfold Boolean.current_token. rewrite Ht.
  rewrite decide_False by congruence. done.
Qed.

Lemma parse_not_NOT (fuel i : nat) :
  tokens !! i = Some "NOT" →
  parse_not (S fuel) i
  = '(operand, index) ← parse_not fuel (S i) ; Ok (all_docs ∖ operand, index).
Proof.
  intros Ht. simpl. unfold Boolean.eat, Boolean.current_token. rewrite Ht.
  rewrite !decide_True by done. done.
Qed.

Lemma parse_not_other (fuel i : nat) :
  tokens !! i ≠ Some "NOT" → parse_not (S fuel) i = parse_primary fuel i.
Proof.
  intros Ht. simpl. unfold Boolean.current_token.
  rewrite decide_False by done. done.
Qed.

Lemma parse_and_loop_stop (fuel i : nat) (result : gset Z) :
  tokens !! i ≠ Some "AND" → parse_and_loop (S fuel) result i = Ok (result, i).
Proof.
  intros Ht. simpl. unfold Boolean.current_token.
  rewrite decide_False by done. done.
Qed.

Lemma parse_or_loop_stop (fuel i : nat) (result : gset Z) :
  tokens !! i ≠ Some "OR" → parse_or_loop (S fuel) result i = Ok (result, i).
Proof.
  intros Ht. simpl. unfold Boolean.current_token.
  rewrite decide_False by done. done.
Qed.

Lemma parse_and_unfold (fuel i : nat) :
  parse_and (S fuel) i
  = '(result, index) ← parse_not fuel i ; parse_and_loop fuel result index.
Proof. done. Qed.

Lemma parse_or_unfold (fuel i : nat) :
  parse_or (S fuel) i
  = '(result, index) ← parse_and fuel i ; parse_or_loop fuel result index.
Proof. done. Qed.

End parser_steps.


Lemma term_not_reserved (t : string) :
  is_term t → t ≠ "NOT" ∧ t ≠ "(" ∧ t ≠ "AND" ∧ t ≠ "OR".
Proof.
  intros (_ & Hw & _ & Hres).
  repeat split; intros ->; try (by vm_compute in Hw);
    apply Hres; vm_compute; set_solver.
Qed.





(** ** The parser ends on every token list *)

Section parser_total.
Context (tokens : list string) (inverted_index : gmap string (gset Z))
        (all_docs : gset Z).
Abbreviation p_or := (Boolean.parse_or tokens inverted_index all_docs).
Abbreviation p_or_loop := (Boolean.parse_or_loop tokens inverted_index all_docs).
Abbreviation p_and := (Boolean.parse_and tokens inverted_index all_docs).
Abbreviation p_and_loop := (Boolean.parse_and_loop tokens inverted_index all_docs).
Abbreviation p_not := (Boolean.parse_not tokens inverted_index all_docs).
Abbreviation p_primary := (Boolean.parse_primary tokens inverted_index all_docs).

Lemma parse_primary_paren (fuel i : nat) :
  tokens !! i = Some "(" →
  p_primary (S fuel) i
  = '(result, index) ← p_or fuel (S i) ;
    index ← Boolean.eat tokens ")" index ; Ok (result, index).
Proof.
  intros Ht. simpl. unfold Boolean.eat, Boolean.current_token. rewrite Ht.
  rewrite !decide_True by done. done.
Qed.

Lemma parse_primary_other (fuel i : nat) :
  tokens !! i ≠ Some "(" →
  ∃ docs, p_primary (S fuel) i = Ok (docs, S i).
Proof.
  intros Ht. simpl. unfold Boolean.current_token.
  rewrite decide_False by done. eauto.
Qed.

Lemma parse_and_loop_AND (fuel i : nat) (result : gset Z) :
  tokens !! i = Some "AND" →
  p_and_loop (S fuel) result i
  = '(right_, index) ← p_not fuel (S i) ; p_and_loop fuel (result ∩ right_) index.
Proof.
  intros Ht. simpl. unfold Boolean.eat, Boolean.current_token. rewrite Ht.
  rewrite !decide_True by done. done.
Qed.

Lemma parse_or_loop_OR (fuel i : nat) (result : gset Z) :
  tokens !! i = Some "OR" →
  p_or_loop (S fuel) result i
  = '(right_, index) ← p_and fuel (S i) ; p_or_loop fuel (result ∪ right_) index.
Proof.
  intros Ht. simpl. unfold Boolean.eat, Boolean.current_token. rewrite Ht.
  rewrite !decide_True by done. done.
Qed.

(** The depth of calls each method needs with [k] tokens left. *)
Lemma parser_fuel (fuel : nat) :
  ∀ index, let k := (length tokens - index)%nat in
    ((6 * k + 1 ≤ fuel)%nat → advances index (p_primary fuel index))
    ∧ ((6 * k + 2 ≤ fuel)%nat → advances index (p_not fuel index))
    ∧ (∀ result, (6 * k + 3 ≤ fuel)%nat
                 → continues index (p_and_loop fuel result index))
    ∧ ((6 * k + 4 ≤ fuel)%nat → advances index (p_and fuel index))
    ∧ (∀ result, (6 * k + 5 ≤ fuel)%nat
                 → continues index (p_or_loop fuel result index))
    ∧ ((6 * k + 6 ≤ fuel)%nat → advances index (p_or fuel index)).
Proof.
  induction fuel as [|fuel IH]; intros index k.
  { repeat split; intros; lia. }
  split; [|split; [|split; [|split; [|split]]]].
  - intros Hfuel. destruct (decide (tokens !! index = Some "(")) as [Ht|Ht].
    + rewrite parse_primary_paren by done.
      apply lookup_lt_Some in Ht.
      destruct (IH (S index)) as (_ & _ & _ & _ & _ & Ho).
      specialize (Ho ltac:(lia)).
      destruct (p_or fuel (S index)) as [[r i']| |]; cbn in *; [|done..].
      unfold Boolean.eat. destruct (decide _); cbn; [lia|done].
    + destruct (parse_primary_other fuel index Ht) as [docs ->]. cbn. lia.
  - intros Hfuel. destruct (decide (tokens !! index = Some "NOT")) as [Ht|Ht].
    + rewrite parse_not_NOT by done. apply lookup_lt_Some in Ht.
      destruct (IH (S index)) as (_ & Hn & _). specialize (Hn ltac:(lia)).
      destruct (p_not fuel (S index)) as [[r i']| |]; cbn in *; [lia|done..].
    + rewrite parse_not_other by done.
      destruct (IH index) as (Hp & _). apply Hp. fold k. lia.
  - intros result Hfuel.
    destruct (decide (tokens !! index = Some "AND")) as [Ht|Ht].
    + rewrite parse_and_loop_AND by done. apply lookup_lt_Some in Ht.
      destruct (IH (S index)) as (_ & Hn & _). specialize (Hn ltac:(lia)).
      destruct (p_not fuel (S index)) as [[r i']| |]; cbn in *; [|done..].
      destruct (IH i') as (_ & _ & Hal & _).
      specialize (Hal (result ∩ r) ltac:(lia)).
      destruct (p_and_loop fuel (result ∩ r) i') as [[r' i'']| |];
        cbn in *; [lia|done..].
    + rewrite parse_and_loop_stop by done. cbn. lia.
  - intros Hfuel. rewrite parse_and_unfold.
    destruct (IH index) as (_ & Hn & _). specialize (Hn ltac:(fold k; lia)).
    destruct (p_not fuel index) as [[r i']| |]; cbn in *; [|done..].
    destruct (IH i') as (_ & _ & Hal & _). specialize (Hal r ltac:(lia)).
    destruct (p_and_loop fuel r i') as [[r' i'']| |]; cbn in *; [lia|done..].
  - intros result Hfuel.
    destruct (decide (tokens !! index = Some "OR")) as [Ht|Ht].
    + rewrite parse_or_loop_OR by done. apply lookup_lt_Some in Ht.
      destruct (IH (S index)) as (_ & _ & _ & Ha & _). specialize (Ha ltac:(lia)).
      destruct (p_and fuel (S index)) as [[r i']| |]; cbn in *; [|done..].
      destruct (IH i') as (_ & _ & _ & _ & Hol & _).
      specialize (Hol (result ∪ r) ltac:(lia)).
      destruct (p_or_loop fuel (result ∪ r) i') as [[r' i'']| |];
        cbn in *; [lia|done..].
    + rewrite parse_or_loop_stop by done. cbn. lia.
  - intros Hfuel. rewrite parse_or_unfold.
    destruct (IH index) as (_ & _ & _ & Ha & _). specialize (Ha ltac:(fold k; lia)).
    destruct (p_and fuel index) as [[r i']| |]; cbn in *; [|done..].
    destruct (IH i') as (_ & _ & _ & _ & Hol & _). specialize (Hol r ltac:(lia)).
    destruct (p_or_loop fuel r i') as [[r' i'']| |]; cbn in *; [lia|done..].
Qed.

End parser_total.

(** X10.  [process_boolean_query] returns a posting set or raises: the depth of
    calls given to the parser is never exhausted. *)
Lemma process_boolean_query_total (query : string)
    (inverted_index : gmap string (gset Z)) (all_docs : gset Z) :
  Boolean.process_boolean_query query inverted_index all_docs ≠ OutOfFuel.
Proof.
  unfold Boolean.process_boolean_query, Boolean.parse_query.
  destruct (parser_fuel (Boolean.tokenize query) inverted_index all_docs
              (Boolean.parse_fuel (Boolean.tokenize query)) 0)
    as (_ & _ & _ & _ & _ & Ho).
  specialize (Ho ltac:(unfold Boolean.parse_fuel; lia)).
  destruct (Boolean.parse_or _ _ _ _ _) as [[r i]| |]; done.
Qed.

(** What [eat] reports when the current token is not the expected one. *)
Lemma eat_mismatch (tokens : list string) (token : string) (index : nat) :
  tokens !! index ≠ Some token →
  Boolean.eat tokens token index
  = Raise (Exception ("Expected token '" +:+ token +:+ "', got '"
                      +:+ default "None" (tokens !! index) +:+ "'")).
Proof.
  intros Hne. unfold Boolean.eat, Boolean.current_token.
  by rewrite decide_False.
Qed.

(** ** Malformed queries *)

(** C3.  A query with a missing operand or an unmatched closing parenthesis
    is not rejected: the missing operand reads as the empty posting set and
    the tokens left over are ignored. *)
Theorem malformed_queries_are_evaluated :
  let all_docs := Boolean.build_all_docs example_index in
  Boolean.process_boolean_query "real AND" example_index all_docs = Ok ∅
  ∧ Boolean.process_boolean_query "real OR" example_index all_docs = Ok {[0; 1]}
  ∧ Boolean.process_boolean_query "NOT" example_index all_docs = Ok {[0; 1; 2]}
  ∧ Boolean.process_boolean_query "real )" example_index all_docs = Ok {[0; 1]}.
Proof. vm_compute. auto. Qed.

(** * Index files *)

(** ** Decimal text of integers *)

Lemma all_chars_app (p : ascii → bool) (s t : string) :
  all_chars p (s +:+ t) = all_chars p s && all_chars p t.
Proof.
  induction s as [|c s IH]; [done|].
  rewrite append_cons. cbn [all_chars]. by rewrite IH, andb_assoc.
Qed.

Lemma all_chars_weaken (p q : ascii → bool) (s : string) :
  (∀ c, p c = true → q c = true) →
  all_chars p s = true → all_chars q s = true.
Proof.
  intros Hpq. induction s as [|c s IH]; [done|]. cbn [all_chars].
  intros [Hc Hs]%andb_prop. by rewrite (Hpq c Hc), IH.
Qed.

Lemma digit_char_spec (d : Z) :
  0 ≤ d ≤ 9 →
  isdecimal (digit_char d) = true ∧ digit_value (digit_char d) = d.
Proof.
  intros Hd.
  assert (d = 0 ∨ d = 1 ∨ d = 2 ∨ d = 3 ∨ d = 4 ∨ d = 5 ∨ d = 6 ∨ d = 7
          ∨ d = 8 ∨ d = 9) as Hcases by lia.
  repeat (destruct Hcases as [->|Hcases]; [by vm_compute|]).
  subst. by vm_compute.
Qed.

Lemma parse_digits_decimal (acc : Z) (prev : bool) (ds : string) :
  all_chars isdecimal ds = true → ds ≠ "" ∨ prev = true →
  parse_digits acc prev ds = Some (horner acc ds).
Proof.
  revert acc prev. induction ds as [|c ds IH]; intros acc prev Hds Hne.
  - destruct Hne as [?| ->]; done.
  - cbn [all_chars] in Hds. apply andb_prop in Hds as [Hc Hds].
    cbn [parse_digits horner]. rewrite Hc. apply IH; auto.
Qed.

Lemma horner_app (acc : Z) (ds es : string) :
  horner acc (ds +:+ es) = horner (horner acc ds) es.
Proof.
  revert acc. induction ds as [|c ds IH]; intros acc; [done|].
  rewrite append_cons. cbn [horner]. apply IH.
Qed.

(** [str_digits] writes the digits of [n] in front of [acc]. *)
Lemma str_digits_spec (fuel : nat) (n : Z) (acc : string) :
  0 ≤ n < 2 ^ Z.of_nat fuel → fuel ≠ O →
  ∃ ds, str_digits fuel n acc = ds +:+ acc ∧ ds ≠ ""
        ∧ all_chars isdecimal ds = true
        ∧ ∀ a, horner a ds = a * 10 ^ Z.of_nat (String.length ds) + n.
Proof.
  revert n acc. induction fuel as [|fuel IH]; intros n acc Hn Hfuel; [done|].
  - cbn [str_digits].
    assert (0 ≤ n mod 10 ≤ 9) as Hmod by (pose proof (Z.mod_pos_bound n 10); lia).
    destruct (digit_char_spec (n mod 10) Hmod) as [Hdec Hval].
    destruct (n <? 10) eqn:Hlt.
    + apply Z.ltb_lt in Hlt. exists (String (digit_char (n mod 10)) "").
      repeat split; [done|by cbn; rewrite Hdec|].
      intros a. cbn [horner String.length]. rewrite Hval.
      rewrite Z.mod_small by lia. change (10 ^ Z.of_nat 1) with 10. lia.
    + apply Z.ltb_ge in Hlt.
      assert (0 ≤ n / 10 < 2 ^ Z.of_nat fuel) as Hdiv.
      { split; [apply Z.div_pos; lia|].
        rewrite Nat2Z.inj_succ, Z.pow_succ_r in Hn by lia.
        apply Z.div_lt_upper_bound; lia. }
      assert (fuel ≠ O) as Hfuel'.
      { intros ->. change (2 ^ Z.of_nat 1) with 2 in Hn. lia. }
      destruct (IH (n / 10) (String (digit_char (n mod 10)) acc) Hdiv Hfuel')
        as (ds & Heq & Hne & Hall & Hhorner).
      exists (ds +:+ String (digit_char (n mod 10)) "").
      rewrite Heq. split; [by rewrite append_snoc|].
      split; [by destruct ds|]. split.
      * rewrite all_chars_app, Hall. cbn. by rewrite Hdec.
      * intros a. rewrite horner_app, Hhorner. cbn [horner]. rewrite Hval.
        assert (String.length (ds +:+ String (digit_char (n mod 10)) "")
                = S (String.length ds)) as ->.
        { clear. induction ds as [|c ds IH]; [done|].
          rewrite append_cons. cbn [String.length]. by rewrite IH. }
        rewrite Nat2Z.inj_succ, Z.pow_succ_r by lia.
        pose proof (Z.div_mod n 10). lia.
Qed.

Lemma str_nonneg_spec (n : Z) :
  0 ≤ n →
  str n ≠ "" ∧ all_chars isdecimal (str n) = true ∧ horner 0 (str n) = n.
Proof.
  intros Hn. unfold str. rewrite (proj2 (Z.ltb_ge n 0)) by done.
  unfold str_nonneg.
  destruct (str_digits_spec (S (Z.to_nat (Z.log2 n))) n "") as (ds & -> & Hne & Hall & Hh).
  - split; [done|]. rewrite Nat2Z.inj_succ, Z2Nat.id by apply Z.log2_nonneg.
    destruct (decide (n = 0)) as [->|]; [done|].
    apply Z.log2_spec. lia.
  - done.
  - rewrite append_empty_r. repeat split; [done..|]. rewrite Hh. lia.
Qed.

Lemma rstrip_by_none (p : ascii → bool) (s : string) :
  all_chars (λ c, negb (p c)) s = true → rstrip_by p s = s.
Proof.
  induction s as [|c s IH]; [done|]. cbn [all_chars rstrip_by].
  intros [Hc Hs]%andb_prop. rewrite IH by done.
  apply negb_true_iff in Hc. by rewrite Hc, andb_false_r.
Qed.

Lemma lstrip_by_none (p : ascii → bool) (s : string) :
  all_chars (λ c, negb (p c)) s = true → lstrip_by p s = s.
Proof.
  destruct s as [|c s]; [done|]. cbn [all_chars lstrip_by].
  intros [Hc Hs]%andb_prop. apply negb_true_iff in Hc. by rewrite Hc.
Qed.

Lemma strip_nospace (s : string) :
  all_chars (λ c, negb (isspace c)) s = true → strip s = s.
Proof.
  intros Hs. unfold strip. by rewrite lstrip_by_none, rstrip_by_none.
Qed.

(** Properties of one character, decided by running through the 256
    characters. *)
Lemma forall_ascii (P : ascii → bool) :
  forallb P (chr <$> (N.of_nat <$> seq 0 256)) = true → ∀ c, P c = true.
Proof.
  intros Hall c. rewrite forallb_forall in Hall. apply Hall.
  apply list_elem_of_In, list_elem_of_fmap. exists (ord c). split.
  - unfold chr, ord. by rewrite ascii_N_embedding.
  - apply list_elem_of_fmap. exists (N.to_nat (ord c)). split; [lia|].
    apply list_elem_of_In, in_seq. pose proof (N_ascii_bounded c).
    unfold ord. lia.
Qed.

Lemma decimal_not_space (c : ascii) :
  isdecimal c = true → negb (isspace c) = true.
Proof.
  intros Hc.
  pose proof (forall_ascii (λ c, implb (isdecimal c) (negb (isspace c)))) as H.
  specialize (H ltac:(by vm_compute) c). cbn beta in H. by rewrite Hc in H.
Qed.

Lemma decimal_not_space_int (c : ascii) :
  isdecimal c = true → negb (isspace_int c) = true.
Proof.
  intros Hc.
  pose proof (forall_ascii (λ c, implb (isdecimal c) (negb (isspace_int c)))) as H.
  specialize (H ltac:(by vm_compute) c). cbn beta in H. by rewrite Hc in H.
Qed.

Lemma decimal_is_digit (c : ascii) : isdecimal c = true → isdigit_char c = true.
Proof. intros Hc. unfold isdigit_char. by rewrite Hc. Qed.

Lemma decimal_not_special (c : ascii) :
  isdecimal c = true →
  c ≠ "-"%char ∧ c ≠ "+"%char ∧ c ≠ ","%char ∧ c ≠ LF ∧ c ≠ CR.
Proof. intros Hc. repeat split; intros ->; by vm_compute in Hc. Qed.

(** Reading back a printed natural number. *)
Lemma int_str (n : Z) : 0 ≤ n → int (str n) = Ok n.
Proof.
  intros Hn. destruct (str_nonneg_spec n Hn) as (Hne & Hall & Hval).
  unfold int. rewrite lstrip_by_none, rstrip_by_none
    by (eapply all_chars_weaken; [apply decimal_not_space_int|done]).
  destruct (str n) as [|c r] eqn:Hstr; [done|].
  pose proof Hall as Hall'. cbn [all_chars] in Hall'.
  apply andb_prop in Hall' as [Hc _].
  destruct (decimal_not_special c Hc) as (Hm & Hp & _).
  rewrite !decide_False by done.
  rewrite parse_digits_decimal by auto. by rewrite Hval.
Qed.

Lemma isdigit_str (n : Z) : 0 ≤ n → isdigit (str n) = true.
Proof.
  intros Hn. destruct (str_nonneg_spec n Hn) as (Hne & Hall & _).
  unfold isdigit. rewrite (all_chars_weaken _ _ _ decimal_is_digit Hall).
  by destruct (str n).
Qed.

(** ** Splitting lines and fields *)

Lemma split_go_nospace (cur w rest : string) :
  all_chars (λ c, negb (isspace c)) w = true →
  split_go cur (w +:+ rest) = split_go (cur +:+ w) rest.
Proof.
  revert cur. induction w as [|c w IH]; intros cur Hw.
  - by rewrite append_nil, append_empty_r.
  - cbn [all_chars] in Hw. apply andb_prop in Hw as [Hc Hw].
    apply negb_true_iff in Hc. rewrite append_cons. cbn [split_go].
    rewrite Hc, IH by done. by rewrite append_snoc.
Qed.

Lemma split_go_space (cur : string) (c : ascii) (rest : string) :
  isspace c = true → cur ≠ "" →
  split_go cur (String c rest) = cur :: split_go "" rest.
Proof. intros Hc Hne. cbn [split_go]. rewrite Hc. by destruct cur. Qed.

(** [strip] before [split] changes nothing. *)
Lemma split_go_lstrip (s : string) :
  split_go "" (lstrip_by isspace s) = split_go "" s.
Proof.
  induction s as [|c s IH]; [done|]. cbn [lstrip_by split_go].
  destruct (isspace c) eqn:Hc; [done|]. cbn [split_go]. by rewrite Hc.
Qed.

Lemma split_go_rstrip (cur s : string) :
  split_go cur (rstrip_by isspace s) = split_go cur s.
Proof.
  revert cur. induction s as [|c s IH]; intros cur; [done|].
  cbn [rstrip_by]. destruct (is_empty (rstrip_by isspace s) && isspace c) eqn:Hb.
  - apply andb_prop in Hb as [Hr Hc]. cbn [split_go]. rewrite Hc.
    rewrite <-(IH ""). destruct (rstrip_by isspace s); [|done].
    by destruct cur.
  - cbn [split_go]. by rewrite !IH.
Qed.

Lemma split_strip (s : string) : split (strip s) = split s.
Proof. unfold split, strip. by rewrite split_go_rstrip, split_go_lstrip. Qed.

(** The fields of a line of three fields separated by single spaces and
    ended by a line feed. *)
Lemma split_three_fields (a b c : string) :
  a ≠ "" → b ≠ "" → c ≠ "" →
  all_chars (λ c, negb (isspace c)) a = true →
  all_chars (λ c, negb (isspace c)) b = true →
  all_chars (λ c, negb (isspace c)) c = true →
  split (a +:+ " " +:+ b +:+ " " +:+ c +:+ nl) = [a; b; c].
Proof.
  intros Ha Hb Hc Hsa Hsb Hsc. unfold split.
  rewrite split_go_nospace, append_nil by done.
  rewrite append_cons, append_nil, split_go_space by done.
  rewrite split_go_nospace, append_nil by done.
  rewrite append_cons, append_nil, split_go_space by done.
  rewrite split_go_nospace, append_nil by done.
  unfold nl. rewrite split_go_space by done. done.
Qed.

Lemma split_on_none (sep : ascii) (s : string) :
  all_chars (λ c, bool_decide (c ≠ sep)) s = true → split_on sep s = [s].
Proof.
  induction s as [|c s IH]; [done|]. cbn [all_chars split_on].
  intros [Hc Hs]%andb_prop. apply bool_decide_eq_true in Hc.
  rewrite decide_False by done. by rewrite IH.
Qed.

Lemma split_on_app (sep : ascii) (s rest : string) :
  all_chars (λ c, bool_decide (c ≠ sep)) s = true →
  split_on sep (s +:+ String sep rest) = s :: split_on sep rest.
Proof.
  induction s as [|c s IH]; intros Hs.
  - rewrite append_nil. cbn [split_on]. by rewrite decide_True.
  - cbn [all_chars] in Hs. apply andb_prop in Hs as [Hc Hs].
    apply bool_decide_eq_true in Hc. rewrite append_cons. cbn [split_on].
    rewrite decide_False by done. by rewrite IH.
Qed.

Lemma split_on_join (sep : ascii) (parts : list string) :
  parts ≠ [] →
  Forall (λ s, all_chars (λ c, bool_decide (c ≠ sep)) s = true) parts →
  split_on sep (join (String sep "") parts) = parts.
Proof.
  intros Hne Hall. induction Hall as [|x parts Hx Hall IH]; [done|].
  destruct parts as [|y parts].
  - cbn [join]. by apply split_on_none.
  - change (join (String sep "") (x :: y :: parts))
      with (x +:+ String sep "" +:+ join (String sep "") (y :: parts)).
    rewrite append_cons, append_nil, split_on_app by done.
    by rewrite IH.
Qed.

Lemma all_chars_join (p : ascii → bool) (sep : string) (parts : list string) :
  all_chars p sep = true → Forall (λ s, all_chars p s = true) parts →
  all_chars p (join sep parts) = true.
Proof.
  intros Hsep Hall. induction Hall as [|x parts Hx Hall IH]; [done|].
  destruct parts as [|y parts]; [done|].
  change (join sep (x :: y :: parts)) with (x +:+ sep +:+ join sep (y :: parts)).
  by rewrite !all_chars_app, Hx, Hsep, IH.
Qed.

Lemma join_nonempty (sep : string) (parts : list string) :
  parts ≠ [] → Forall (λ s, s ≠ "") parts → join sep parts ≠ "".
Proof.
  intros Hne Hall. destruct Hall as [|x parts Hx Hall]; [done|].
  destruct parts as [|y parts]; [done|].
  change (join sep (x :: y :: parts)) with (x +:+ sep +:+ join sep (y :: parts)).
  by destruct x.
Qed.

(** ** Reading the lines of a file *)

Lemma readlines_go_body (cur w rest : string) :
  all_chars (λ c, bool_decide (c ≠ LF ∧ c ≠ CR)) w = true →
  readlines_go cur (w +:+ rest) = readlines_go (cur +:+ w) rest.
Proof.
  revert cur. induction w as [|c w IH]; intros cur Hw.
  - by rewrite append_nil, append_empty_r.
  - cbn [all_chars] in Hw. apply andb_prop in Hw as [Hc Hw].
    apply bool_decide_eq_true in Hc as [H1 H2].
    rewrite append_cons. cbn [readlines_go].
    rewrite !decide_False by done. rewrite IH by done. by rewrite append_snoc.
Qed.

(** A text made of lines that end with a line feed and have no other line
    end inside reads back as these lines. *)
Lemma readlines_lines (bodies : list string) :
  Forall (λ w, all_chars (λ c, bool_decide (c ≠ LF ∧ c ≠ CR)) w = true) bodies →
  readlines (foldr (λ w rest, (w +:+ nl) +:+ rest) "" bodies)
  = (λ w, w +:+ nl) <$> bodies.
Proof.
  unfold readlines. induction 1 as [|w bodies Hw Hall IH]; [done|].
  cbn [foldr fmap list_fmap]. rewrite append_assoc.
  rewrite readlines_go_body, append_nil by done.
  unfold nl at 1. rewrite append_cons, append_nil. cbn [readlines_go].
  rewrite decide_True by done. by rewrite IH.
Qed.

(** ** Short lines in the loaders *)

(** The two copies of the term-index loader are the same function. *)
Lemma load_inverted_index_copies (content : string) :
  Lists.load_inverted_index content = Boolean.load_inverted_index content.
Proof. reflexivity. Qed.

(** The term-index loader skips a line of fewer than three fields. *)
Lemma term_loader_skips_short_line (inverted_index : gmap string (gset Z))
    (line : string) :
  (length (split (strip line)) < 3)%nat →
  Lists.load_line inverted_index line = Ok inverted_index.
Proof.
  intros Hlen. unfold Lists.load_line. by rewrite bool_decide_eq_true_2.
Qed.

(** The vocabulary loader raises on every line of fewer than two fields. *)
Lemma vocabulary_loader_raises_on_short_line (vocabulary : list (string * Z))
    (line : string) :
  (length (split (strip line)) < 2)%nat →
  NgramJaccardCorrection.load_line vocabulary line = Raise IndexError.
Proof.
  intros Hlen. unfold NgramJaccardCorrection.load_line.
  destruct (split (strip line)) as [|term [|df rest]]; [done..|].
  cbn in Hlen. lia.
Qed.

(** The positional loader raises on every line without a field. *)
Lemma positional_loader_raises_on_blank_line
    (positional_index : gmap string (gmap Z (list Z))) (line : string) :
  split (strip line) = [] →
  PositionalPhraseQuery.load_line positional_index line = Raise ValueError.
Proof. intros Hnil. unfold PositionalPhraseQuery.load_line. by rewrite Hnil. Qed.

(** A loop stops at the first line that raises. *)
Lemma for_each_raises {A S} (body : S → A → outcome S) (s s' : S)
    (before after : list A) (x : A) (e : exn) :
  for_each body s before = Ok s' → body s' x = Raise e →
  for_each body s (before ++ x :: after) = Raise e.
Proof.
  revert s. induction before as [|y before IH]; intros s Hb Hx.
  - cbn in Hb. injection Hb as ->. cbn [app for_each]. by rewrite Hx.
  - cbn [app for_each] in *. destruct (body s y) as [s1| |]; [|done..].
    cbn [mbind outcome_bind] in *. by apply IH.
Qed.

(** C4.  The vocabulary loader and the positional-index loader raise on an
    empty line, and the vocabulary loader on a line with one field, where
    the term-index loader skips the line. *)
Theorem loaders_raise_on_short_lines :
  NgramJaccardCorrection.load_vocabulary_with_frequency
    ("real 2 0,1" +:+ nl +:+ nl) = Raise IndexError
  ∧ NgramJaccardCorrection.load_vocabulary_with_frequency ("real" +:+ nl)
    = Raise IndexError
  ∧ PositionalPhraseQuery.load_positional_index
    ("real 0:0;" +:+ nl +:+ nl) = Raise ValueError
  ∧ Lists.load_inverted_index ("real 2 0,1" +:+ nl +:+ nl +:+ "real" +:+ nl)
    = Ok {[ "real" := {[0; 1]} ]}.
Proof. vm_compute. auto. Qed.

(** ** The term index round trip *)

Lemma filter_all {A} (P : A → Prop) `{∀ x, Decision (P x)} (l : list A) :
  Forall P l → filter P l = l.
Proof.
  induction 1 as [|x l Hx Hl IH]; [done|].
  by rewrite filter_cons_True, IH.
Qed.

Lemma map_outcome_int_str (ids : list Z) :
  Forall (λ d, 0 ≤ d) ids → map_outcome int (str <$> ids) = Ok ids.
Proof.
  induction 1 as [|d ids Hd Hall IH]; [done|].
  cbn [fmap list_fmap map_outcome]. fold (fmap (M:=list) str ids).
  by rewrite int_str, IH.
Qed.

(** The text of the document ids of a saved line. *)
Lemma postings_text_spec (ids : list Z) :
  ids ≠ [] → Forall (λ d, 0 ≤ d) ids →
  let text := join "," (str <$> ids) in
  text ≠ "" ∧ all_chars (λ c, negb (isspace c)) text = true
  ∧ all_chars (λ c, bool_decide (c ≠ LF ∧ c ≠ CR)) text = true
  ∧ split_on ","%char text = str <$> ids
  ∧ Forall (λ s, isdigit s) (str <$> ids).
Proof.
  intros Hne Hall text.
  assert (Forall (λ s, s ≠ "" ∧ all_chars isdecimal s = true) (str <$> ids)) as Hstr.
  { apply Forall_fmap. eapply Forall_impl; [done|]. intros d Hd.
    destruct (str_nonneg_spec d Hd) as (? & ? & _). done. }
  assert (str <$> ids ≠ []) as Hne' by (by destruct ids).
  split; [|split; [|split; [|split]]].
  - apply join_nonempty; [done|]. eapply Forall_impl; [done|]. by intros s [? _].
  - apply all_chars_join; [by vm_compute|]. eapply Forall_impl; [done|].
    intros s [_ Hs]. eapply all_chars_weaken; [apply decimal_not_space|done].
  - apply all_chars_join; [by vm_compute|]. eapply Forall_impl; [done|].
    intros s [_ Hs]. eapply all_chars_weaken; [|done].
    intros c Hc. apply bool_decide_eq_true.
    by destruct (decimal_not_special c Hc) as (_ & _ & _ & ? & ?).
  - apply (split_on_join ","%char); [done|]. eapply Forall_impl; [done|].
    intros s [_ Hs]. eapply all_chars_weaken; [|done].
    intros c Hc. apply bool_decide_eq_true.
    by destruct (decimal_not_special c Hc) as (_ & _ & ? & _).
  - eapply Forall_impl; [done|]. intros s [Hs1 Hs2].
    unfold isdigit. rewrite (all_chars_weaken _ _ _ decimal_is_digit Hs2).
    by destruct s.
Qed.

(** Loading one saved line. *)
Lemma load_index_line (acc : gmap string (gset Z)) (term : string) (ids : list Z) :
  term ≠ "" → all_chars (λ c, negb (isspace c)) term = true →
  ids ≠ [] → Forall (λ d, 0 ≤ d) ids →
  Boolean.load_line acc (index_line term ids) = Ok (<[term := list_to_set ids]> acc).
Proof.
  intros Hterm Hspace Hne Hall.
  destruct (postings_text_spec ids Hne Hall) as (Ht1 & Ht2 & _ & Ht4 & Ht5).
  assert (0 ≤ len ids) as Hlen by (unfold len; lia).
  destruct (str_nonneg_spec _ Hlen) as (Hd1 & Hd2 & _).
  pose proof (all_chars_weaken _ _ _ decimal_not_space Hd2) as Hd3.
  unfold Boolean.load_line, index_line. rewrite split_strip.
  rewrite (split_three_fields term (str (len ids)) (join "," (str <$> ids))
             Hterm Hd1 Ht1 Hspace Hd3 Ht2).
  rewrite bool_decide_eq_false_2 by (cbn; lia).
  cbn [getitem lookup list_lookup]. cbn [mbind outcome_bind].
  rewrite Ht4, filter_all by done. by rewrite map_outcome_int_str.
Qed.

Lemma save_line_index_line (term : string) (docs : gset Z) :
  InvertedIndex.save_line term docs
  = index_line term (merge_sort Z.le (elements docs)).
Proof.
  assert (length (merge_sort Z.le (elements docs)) = size docs) as Hlen.
  { apply Permutation_length, merge_sort_Permutation. }
  unfold InvertedIndex.save_line, index_line, len, nl. by rewrite Hlen.
Qed.

(** The pairs written by [save_inverted_index], in the order of the file. *)
Lemma save_inverted_index_lines (inverted_index : gmap string (gset Z)) :
  InvertedIndex.save_inverted_index inverted_index
  = foldr (λ '(term, docs) rest,
             index_line term (merge_sort Z.le (elements docs)) +:+ rest) ""
          (merge_sort InvertedIndex.item_le (map_to_list inverted_index)).
Proof.
  unfold InvertedIndex.save_inverted_index.
  induction (merge_sort _ _) as [|[term docs] items IH]; [done|].
  cbn [foldr]. by rewrite IH, save_line_index_line.
Qed.

Lemma sorted_ids_spec (docs : gset Z) :
  docs ≠ ∅ → (∀ d, d ∈ docs → 0 ≤ d) →
  let ids := merge_sort Z.le (elements docs) in
  ids ≠ [] ∧ Forall (λ d, 0 ≤ d) ids ∧ list_to_set ids = docs
  ∧ StronglySorted Z.le ids ∧ NoDup ids.
Proof.
  intros Hne Hpos ids.
  assert (ids ≡ₚ elements docs) as Hperm by apply merge_sort_Permutation.
  split; [|split; [|split; [|split]]].
  - intros Hnil. rewrite Hnil in Hperm. apply Permutation_nil_l in Hperm.
    symmetry in Hperm. apply Hne. by apply elements_empty_inv, leibniz_equiv in Hperm.
  - apply Forall_forall. intros d Hd. apply Hpos.
    rewrite Hperm in Hd. by apply elem_of_elements in Hd.
  - rewrite Hperm. apply list_to_set_elements_L.
  - apply StronglySorted_merge_sort; apply _.
  - rewrite Hperm. apply NoDup_elements.
Qed.

(** Loading the lines of the pairs [items] inserts them one after the
    other. *)
Lemma load_index_lines (items : list (string * gset Z)) (acc : gmap string (gset Z)) :
  Forall (λ '(term, docs), term ≠ ""
            ∧ all_chars (λ c, negb (isspace c)) term = true
            ∧ docs ≠ ∅ ∧ ∀ d, d ∈ docs → 0 ≤ d) items →
  for_each Boolean.load_line acc
    ((λ '(term, docs), index_line term (merge_sort Z.le (elements docs))) <$> items)
  = Ok (foldl (λ m '(term, docs), <[term := docs]> m) acc items).
Proof.
  intros Hall. revert acc.
  induction Hall as [|[term docs] items (H1 & H2 & H3 & H4) Hall IH]; intros acc;
    [done|].
  destruct (sorted_ids_spec docs H3 H4) as (Hi1 & Hi2 & Hi3 & _).
  cbn [fmap list_fmap for_each foldl]. rewrite load_index_line by done.
  cbn [mbind outcome_bind]. rewrite Hi3. apply IH.
Qed.

Lemma foldl_insert_lookup {V} (l : list (string * V)) (acc : gmap string V)
    (k : string) (v : V) :
  NoDup (l.*1) →
  (foldl (λ m '(key, val), <[key := val]> m) acc l) !! k = Some v
  ↔ (k, v) ∈ l ∨ (¬ k ∈ fst <$> l) ∧ acc !! k = Some v.
Proof.
  revert acc. induction l as [|[k0 v0] l IH]; intros acc Hnd.
  - cbn. split; [intros ?; right; split; [by intros ?%elem_of_nil|done]|].
    by intros [?%elem_of_nil|[_ ?]].
  - cbn [foldl fmap list_fmap fst] in *. apply NoDup_cons in Hnd as [Hk0 Hnd].
    rewrite IH by done. rewrite !elem_of_cons.
    destruct (decide (k = k0)) as [->|Hne].
    + rewrite lookup_insert_eq. split.
      * intros [Hin|[_ Heq]]; [|left; left; congruence].
        exfalso. apply Hk0. apply list_elem_of_fmap. by exists (k0, v).
      * intros [[Heq|Hin]|[Hn _]]; [right|left; done|tauto].
        split; [done|congruence].
    + rewrite lookup_insert_ne by done. split.
      * intros [Hin|[Hn Hacc]]; [left; by right|right].
        split; [|done]. intros [?|?]; done.
      * intros [[Heq|Hin]|[Hn Hacc]]; [congruence|by left|right].
        split; [tauto|done].
Qed.

#[local] Instance item_le_total : Total InvertedIndex.item_le.
Proof. intros a b. unfold InvertedIndex.item_le. apply total, _. Qed.

#[local] Instance item_le_trans : Transitive InvertedIndex.item_le.
Proof. intros a b c. unfold InvertedIndex.item_le. apply transitivity. Qed.

(** C7.  Loading the saved text of a term index gives the index back.
    The text is one line [term df docId,docId,...] per term, the document
    ids ascending, the lines in the order of the terms. *)
Theorem load_save_inverted_index (inverted_index : gmap string (gset Z)) :
  well_formed_index inverted_index →
  Boolean.load_inverted_index (InvertedIndex.save_inverted_index inverted_index)
  = Ok inverted_index
  ∧ ∃ items : list (string * list Z),
      InvertedIndex.save_inverted_index inverted_index
      = foldr (λ '(term, ids) rest, index_line term ids +:+ rest) "" items
      ∧ StronglySorted String.le (items.*1) ∧ NoDup (items.*1)
      ∧ (∀ term, is_Some (inverted_index !! term) ↔ term ∈ items.*1)
      ∧ Forall (λ '(term, ids),
                  StronglySorted Z.le ids ∧ NoDup ids
                  ∧ ∃ docs, inverted_index !! term = Some docs
                            ∧ ∀ d, d ∈ ids ↔ d ∈ docs) items.
Proof.
  intros Hwf.
  set (pairs := merge_sort InvertedIndex.item_le (map_to_list inverted_index)).
  assert (pairs ≡ₚ map_to_list inverted_index) as Hperm
    by apply merge_sort_Permutation.
  assert (∀ term docs, (term, docs) ∈ pairs ↔ inverted_index !! term = Some docs)
    as Hpairs.
  { intros term docs. rewrite Hperm. apply elem_of_map_to_list. }
  assert (NoDup (pairs.*1)) as Hnd.
  { rewrite Hperm. apply NoDup_fst_map_to_list. }
  pose proof (save_inverted_index_lines inverted_index) as Hsave.
  fold pairs in Hsave. split.
  - unfold Boolean.load_inverted_index. rewrite Hsave.
    set (body := (λ '(term, docs),
      let ids := merge_sort Z.le (elements docs) in
      term +:+ " " +:+ str (len ids) +:+ " " +:+ join "," (str <$> ids))
      : string * gset Z → string).
    assert (∀ p, (let '(term, docs) := p in
                  index_line term (merge_sort Z.le (elements docs)))
                 = body p +:+ nl) as Hbody.
    { intros [term docs]. unfold body, index_line. by rewrite !append_assoc. }
    assert (Forall (λ '(term, docs), term ≠ ""
              ∧ all_chars (λ c, negb (isspace c)) term = true
              ∧ docs ≠ ∅ ∧ ∀ d, d ∈ docs → 0 ≤ d) pairs) as Hall.
    { apply Forall_forall. intros [term docs] Hin. by apply Hwf, Hpairs. }
    assert (foldr (λ '(term, docs) rest,
                     index_line term (merge_sort Z.le (elements docs)) +:+ rest)
                  "" pairs
            = foldr (λ w rest, (w +:+ nl) +:+ rest) "" (body <$> pairs)) as ->.
    { clear. induction pairs as [|[term docs] l IH]; [done|].
      cbn [foldr fmap list_fmap]. rewrite IH. f_equal.
      unfold body, index_line. by rewrite !append_assoc. }
    rewrite readlines_lines.
    + assert ((λ w, w +:+ nl) <$> (body <$> pairs)
              = (λ '(term, docs),
                   index_line term (merge_sort Z.le (elements docs))) <$> pairs)
        as ->.
      { rewrite <-list_fmap_compose. apply list_fmap_ext.
        intros ? p _. unfold compose. by rewrite <-(Hbody p). }
      rewrite load_index_lines by done. f_equal.
      apply map_eq. intros term. apply option_eq. intros docs.
      rewrite foldl_insert_lookup by done. rewrite Hpairs, lookup_empty.
      split; [by intros [?|[_ ?]]|auto].
    + apply Forall_fmap, Forall_forall. intros [term docs] Hin.
      destruct (Hwf term docs) as (H1 & H2 & H3 & H4); [by apply Hpairs|].
      destruct (sorted_ids_spec docs H3 H4) as (Hi1 & Hi2 & _).
      destruct (postings_text_spec _ Hi1 Hi2) as (_ & _ & Ht3 & _).
      assert (0 ≤ len (merge_sort Z.le (elements docs))) as Hlen
        by (unfold len; lia).
      destruct (str_nonneg_spec _ Hlen) as (_ & Hd2 & _).
      assert (all_chars (λ c, bool_decide (c ≠ LF ∧ c ≠ CR)) term = true) as Ht.
      { eapply all_chars_weaken; [|exact H2]. intros c Hc.
        apply bool_decide_eq_true. split; intros ->; by vm_compute in Hc. }
      assert (all_chars (λ c, bool_decide (c ≠ LF ∧ c ≠ CR))
                (str (len (merge_sort Z.le (elements docs)))) = true) as Hdf.
      { eapply all_chars_weaken; [|exact Hd2]. intros c Hc.
        apply bool_decide_eq_true.
        by destruct (decimal_not_special c Hc) as (_ & _ & _ & ? & ?). }
      unfold compose, body. cbn zeta. by rewrite !all_chars_app, Ht, Hdf, Ht3.
  - exists ((λ '(term, docs), (term, merge_sort Z.le (elements docs))) <$> pairs).
    assert (((λ '(term, docs), (term, merge_sort Z.le (elements docs))) <$> pairs).*1
            = pairs.*1) as Hfst.
    { rewrite <-list_fmap_compose. apply list_fmap_ext. by intros ? [??] _. }
    rewrite Hfst. split; [|split; [|split; [|split]]].
    + rewrite Hsave. clear. induction pairs as [|[term docs] l IH]; [done|].
      cbn [foldr fmap list_fmap]. by rewrite IH.
    + apply (StronglySorted_fmap fst InvertedIndex.item_le); [done|].
      apply StronglySorted_merge_sort; apply _.
    + done.
    + intros term. rewrite list_elem_of_fmap. split.
      * intros [docs Hd]. exists (term, docs). split; [done|]. by apply Hpairs.
      * intros ([t docs] & -> & Hin). exists docs. by apply Hpairs.
    + apply Forall_fmap, Forall_forall. intros [term docs] Hin.
      apply Hpairs in Hin.
      destruct (Hwf term docs Hin) as (_ & _ & H3 & H4).
      destruct (sorted_ids_spec docs H3 H4) as (_ & _ & Hi3 & Hi4 & Hi5).
      cbn. split; [done|]. split; [done|]. exists docs. split; [done|].
      intros d. rewrite <-Hi3 at 2. by rewrite elem_of_list_to_set.
Qed.

Lemma well_formed_index_example :
  well_formed_index {[ "real" := {[0; 1]}; "madrid" := {[0; 1; 12]} ]}.
Proof.
  intros term docs Hl.
  apply lookup_insert_Some in Hl as [[<- <-]|[_ Hl]].
  - repeat split; [done|set_solver|]. intros d Hd. set_unfold in Hd. lia.
  - apply lookup_singleton_Some in Hl as [<- <-].
    repeat split; [done|set_solver|]. intros d Hd. set_unfold in Hd. lia.
Qed.

Lemma load_save_inverted_index_witness :
  let inverted_index : gmap string (gset Z) :=
    {[ "real" := {[0; 1]}; "madrid" := {[0; 1; 12]} ]} in
  well_formed_index inverted_index
  ∧ Boolean.load_inverted_index (InvertedIndex.save_inverted_index inverted_index)
    = Ok inverted_index.
Proof.
  intros inverted_index. split; [exact well_formed_index_example|].
  apply (load_save_inverted_index inverted_index well_formed_index_example).
Defined.

Example save_inverted_index_ex :
  InvertedIndex.save_inverted_index {[ "real" := {[0; 1]}; "madrid" := {[12; 0; 1]} ]}
  = "madrid 3 0,1,12" +:+ nl +:+ "real 2 0,1" +:+ nl.
Proof. vm_compute. reflexivity. Qed.

(** * Phrase queries *)

(** ** Positional phrase queries (positional_phrase_query.py) *)

Section positional.
Context (positional_index : gmap string (gmap Z (list Z))).
Abbreviation docs_of := (PositionalPhraseQuery.docs_of positional_index).
Abbreviation positions_of := (PositionalPhraseQuery.positions_of positional_index).

Lemma elem_of_positions_of (word : string) (doc_id pos : Z) :
  pos ∈ positions_of word doc_id ↔ occurs_at positional_index word doc_id pos.
Proof.
  unfold PositionalPhraseQuery.positions_of, occurs_at. split.
  - destruct (positional_index !! word) as [docs|] eqn:Hw; simpl.
    + destruct (docs !! doc_id) as [ps|] eqn:Hd; simpl; [eauto|].
      by intros ?%elem_of_nil.
    + rewrite lookup_empty. by intros ?%elem_of_nil.
  - intros (docs & ps & -> & Hd & Hin). simpl. by rewrite Hd.
Qed.

Lemma occurs_at_docs_of (word : string) (doc_id pos : Z) :
  occurs_at positional_index word doc_id pos → doc_id ∈ docs_of word.
Proof.
  intros (docs & ps & Hw & Hd & _). unfold PositionalPhraseQuery.docs_of.
  rewrite Hw. simpl. apply elem_of_dom. eauto.
Qed.

(** The prefilter: the documents that have every word. *)
Lemma elem_of_prefilter (rest : list string) (init : gset Z) (d : Z) :
  d ∈ foldl (λ result_docs current_word, result_docs ∩ docs_of current_word)
            init rest
  ↔ d ∈ init ∧ ∀ w, w ∈ rest → d ∈ docs_of w.
Proof.
  revert init. induction rest as [|w rest IH]; intros init; simpl.
  - split; [|tauto]. intros Hd. split; [done|]. by intros w ?%elem_of_nil.
  - rewrite IH, elem_of_intersection. split.
    + intros [[Hi Hw] Hrest]. split; [done|].
      intros w' [ ->|Hin]%elem_of_cons; auto.
    + intros [Hi Hall]. repeat split; [done|..].
      * apply Hall. left.
      * intros w' Hin. apply Hall. by right.
Qed.

(** The loop over the candidate documents keeps those that pass the test. *)
Lemma elem_of_kept (test : Z → bool) (l : list Z) (acc : gset Z) (d : Z) :
  d ∈ foldl (λ final_docs doc_id,
               if test doc_id then final_docs ∪ {[doc_id]} else final_docs)
            acc l
  ↔ d ∈ acc ∨ (d ∈ l ∧ test d = true).
Proof.
  revert acc. induction l as [|x l IH]; intros acc; simpl.
  - split; [auto|]. intros [?|[?%elem_of_nil _]]; done.
  - rewrite IH, elem_of_cons. destruct (test x) eqn:Hx.
    + rewrite elem_of_union, elem_of_singleton. split.
      * intros [[?| ->]|[? ?]]; auto.
      * intros [?|[[ ->|?] ?]]; auto.
    + split.
      * intros [?|[? ?]]; auto.
      * intros [?|[[ ->|?] ?]]; auto. congruence.
Qed.

Lemma contiguous_spec (positions : list (list Z)) (n : nat) :
  PositionalPhraseQuery.contiguous positions n = true
  ↔ ∃ pos, pos ∈ default [] (positions !! 0%nat)
           ∧ ∀ i, (1 ≤ i < n)%nat → pos + Z.of_nat i ∈ default [] (positions !! i).
Proof.
  unfold PositionalPhraseQuery.contiguous. rewrite existsb_exists.
  split.
  - intros (pos & Hin & Hall). exists pos. split; [by apply list_elem_of_In|].
    intros i Hi. rewrite forallb_forall in Hall.
    specialize (Hall i). rewrite bool_decide_eq_true in Hall. apply Hall.
    unfold range_from. apply in_seq. lia.
  - intros (pos & Hin & Hall). exists pos. split; [by apply list_elem_of_In|].
    apply forallb_forall. intros i Hi. apply bool_decide_eq_true.
    apply Hall. unfold range_from in Hi. apply in_seq in Hi. lia.
Qed.

End positional.

Lemma phrase_query_unfold (phrase : string)
    (positional_index : gmap string (gmap Z (list Z))) (d : Z) :
  let words := split (lower phrase) in
  d ∈ PositionalPhraseQuery.phrase_query phrase positional_index
  ↔ words ≠ []
    ∧ (∀ w, w ∈ words → d ∈ PositionalPhraseQuery.docs_of positional_index w)
    ∧ PositionalPhraseQuery.contiguous
        ((λ word, PositionalPhraseQuery.positions_of positional_index word d)
           <$> words) (length words) = true.
Proof.
  intros words. unfold PositionalPhraseQuery.phrase_query. fold words.
  destruct words as [|w0 rest] eqn:Hwords.
  - split; [by intros ?%not_elem_of_empty|]. by intros [? _].
  - rewrite elem_of_kept, elem_of_elements, elem_of_prefilter. simpl drop.
    split.
    + intros [?%not_elem_of_empty|[[H0 Hrest] Htest]]; [done|].
      split; [done|]. split; [|done].
      intros w [ ->|Hin]%elem_of_cons; auto.
    + intros (_ & Hall & Htest). right. split; [|done]. split.
      * apply Hall. left.
      * intros w Hin. apply Hall. by right.
Qed.

(** C6.  The documents returned by a positional phrase query have every
    word of the phrase, and a document is returned exactly when some offset
    [p] of the first word in it is followed by the word of index [i] at
    offset [p + i], for every [i]. *)
Theorem positional_phrase_query_exact (phrase : string)
    (positional_index : gmap string (gmap Z (list Z))) (d : Z) :
  let words := split (lower phrase) in
  (d ∈ PositionalPhraseQuery.phrase_query phrase positional_index →
   ∀ w, w ∈ words → d ∈ PositionalPhraseQuery.docs_of positional_index w)
  ∧ (d ∈ PositionalPhraseQuery.phrase_query phrase positional_index
     ↔ ∃ p, (∃ first_word, words !! 0%nat = Some first_word
                           ∧ occurs_at positional_index first_word d p)
            ∧ ∀ i w, words !! i = Some w
                     → occurs_at positional_index w d (p + Z.of_nat i)).
Proof.
  intros words. pose proof (phrase_query_unfold phrase positional_index d) as Hq.
  fold words in Hq. cbn zeta in Hq. split; [rewrite Hq; tauto|].
  rewrite Hq, contiguous_spec. clear Hq. split.
  - intros (Hne & Hall & p & Hp0 & Hpi).
    assert (∀ i w, words !! i = Some w
                   → occurs_at positional_index w d (p + Z.of_nat i)) as Hocc.
    { intros i w Hi. apply elem_of_positions_of.
      destruct i as [|i].
      - rewrite list_lookup_fmap, Hi in Hp0. by rewrite Z.add_0_r.
      - specialize (Hpi (S i)). rewrite list_lookup_fmap, Hi in Hpi.
        apply Hpi. apply lookup_lt_Some in Hi. lia. }
    exists p. split; [|done].
    destruct words as [|w0 rest]; [done|]. exists w0. split; [done|].
    specialize (Hocc 0%nat w0 eq_refl). by rewrite Z.add_0_r in Hocc.
  - intros (p & (w0 & Hw0 & Hp0) & Hocc). split; [|split].
    + intros Hnil. by rewrite Hnil in Hw0.
    + intros w (i & Hi)%list_elem_of_lookup_1.
      eapply occurs_at_docs_of, Hocc, Hi.
    + exists p. split.
      * rewrite list_lookup_fmap, Hw0. simpl. by apply elem_of_positions_of.
      * intros i Hi. destruct (words !! i) as [w|] eqn:Hwi.
        -- rewrite list_lookup_fmap, Hwi. simpl. apply elem_of_positions_of. auto.
        -- apply lookup_ge_None in Hwi. lia.
Qed.

(** ** Words that are looked up as typed *)

(** A positional query with a word that is not a key of the index finds
    nothing, whatever the index has for the stem of the word. *)
Lemma phrase_query_unknown_word (phrase word : string)
    (positional_index : gmap string (gmap Z (list Z))) :
  word ∈ split (lower phrase) → positional_index !! word = None →
  PositionalPhraseQuery.phrase_query phrase positional_index = ∅.
Proof.
  intros Hin Hnone. apply set_eq. intros d. split; [|by intros ?%not_elem_of_empty].
  intros Hd. apply phrase_query_unfold in Hd as (_ & Hall & _).
  specialize (Hall word Hin). unfold PositionalPhraseQuery.docs_of in Hall.
  rewrite Hnone in Hall. cbn in Hall. by rewrite dom_empty_L in Hall.
Qed.

(** ** The two front ends *)

(** C5.  The positional engine looks the words of the query up as they are
    typed, without stemming them: on an index of stemmed tokens the query
    "real madrid wins" finds nothing, where the stemmed form of the query
    finds document 0, and where the biword engine, which stems, finds it. *)
Theorem positional_query_is_not_stemmed :
  PositionalPhraseQuery.phrase_query "real madrid wins" example_positional = ∅
  ∧ PositionalPhraseQuery.phrase_query "real madrid win" example_positional = {[0]}
  ∧ PhraseQuery.retrieve_documents strip_plural "real madrid wins" example_biwords
    = Ok {[0]}.
Proof. vm_compute. auto. Qed.

(** C10.  A phrase of fewer than two words has no biwords, and biword
    retrieval returns the empty set for it. *)
Theorem single_word_phrase_retrieves_nothing (stem : string → string)
    (phrase : string) (biword_index : gmap string (gset Z)) :
  (length (split (lower phrase)) < 2)%nat →
  PhraseQuery.phrase_to_biwords stem phrase = Ok []
  ∧ PhraseQuery.retrieve_documents stem phrase biword_index = Ok ∅.
Proof.
  intros Hlen. unfold PhraseQuery.retrieve_documents.
  assert (PhraseQuery.phrase_to_biwords stem phrase = Ok []) as ->; [|done].
  unfold PhraseQuery.phrase_to_biwords, range, len.
  rewrite length_fmap.
  replace (Z.to_nat (Z.of_nat (length (split (lower phrase))) - 1)) with 0%nat by lia.
  done.
Qed.

Lemma single_word_phrase_retrieves_nothing_witness :
  PhraseQuery.retrieve_documents strip_plural "Madrid" example_biwords = Ok ∅.
Proof.
  apply (single_word_phrase_retrieves_nothing strip_plural "Madrid" example_biwords).
  vm_compute. lia.
Defined.

(** * Index construction *)

(** ** The reduction of the per-document results *)

(** A left fold whose steps commute for elements of different keys gives
    the same result on every arrangement of a list of distinct keys. *)
Lemma foldl_permutation_keys {A B K} (key : B → K) (f : A → B → A)
    (l l' : list B) :
  (∀ a x y, key x ≠ key y → f (f a x) y = f (f a y) x) →
  l ≡ₚ l' → NoDup (key <$> l) → ∀ a, foldl f a l = foldl f a l'.
Proof.
  intros Hcomm Hperm. induction Hperm as [|x l l' Hp IH|x y l|l l' l'' Hp IH Hp' IH'];
    intros Hnd a; simpl in *.
  - done.
  - apply IH. by apply NoDup_cons in Hnd as [_ ?].
  - f_equal. apply Hcomm.
    apply NoDup_cons in Hnd as [Hy _]. intros Heq. apply Hy. rewrite Heq. left.
  - rewrite IH by done. apply IH'. by rewrite <-Hp.
Qed.

(** The same when all steps commute. *)
Lemma foldl_permutation_comm {A B} (f : A → B → A) (l l' : list B) :
  (∀ a x y, f (f a x) y = f (f a y) x) →
  l ≡ₚ l' → ∀ a, foldl f a l = foldl f a l'.
Proof.
  intros Hcomm Hperm. induction Hperm as [|x l l' Hp IH|x y l|l l' l'' Hp IH Hp' IH'];
    intros a; simpl.
  - done.
  - apply IH.
  - f_equal. apply Hcomm.
  - by rewrite IH.
Qed.

Lemma biword_lookup_merge_result (biword_index : gmap (string * string) (gset Z))
    (doc_id : Z) (biwords : list (string * string)) (biword : string * string) :
  BiwordIndex.merge_result biword_index (doc_id, biwords) !! biword
  = if decide (biword ∈ biwords)
    then Some (default ∅ (biword_index !! biword) ∪ {[doc_id]})
    else biword_index !! biword.
Proof.
  unfold BiwordIndex.merge_result. revert biword_index.
  induction biwords as [|b biwords IH]; intros biword_index; cbn [foldl].
  - rewrite decide_False; [done|]. by intros ?%elem_of_nil.
  - rewrite IH. unfold BiwordIndex.add_posting.
    destruct (decide (biword = b)) as [->|Hne].
    + rewrite lookup_insert_eq. simpl.
      rewrite (decide_True (P := b ∈ b :: biwords)) by left.
      destruct (decide (b ∈ biwords)); [|done]. f_equal. set_solver.
    + rewrite lookup_insert_ne by done.
      destruct (decide (biword ∈ biwords)) as [Hin|Hnin].
      * rewrite decide_True; [done|]. by right.
      * rewrite decide_False; [done|]. by intros [?|?]%elem_of_cons.
Qed.

Lemma biword_merge_result_comm (biword_index : gmap (string * string) (gset Z))
    (r1 r2 : Z * list (string * string)) :
  BiwordIndex.merge_result (BiwordIndex.merge_result biword_index r1) r2
  = BiwordIndex.merge_result (BiwordIndex.merge_result biword_index r2) r1.
Proof.
  destruct r1 as [d1 bs1], r2 as [d2 bs2]. apply map_eq. intros bw.
  rewrite !biword_lookup_merge_result.
  destruct (decide (bw ∈ bs1)), (decide (bw ∈ bs2)); simpl; try done.
  f_equal. set_solver.
Qed.

Lemma positional_lookup_merge_result
    (positional_index : gmap string (gmap Z (list Z))) (doc_id : Z)
    (positions : gmap string (list Z)) (token : string) :
  PositionalIndex.merge_result positional_index (doc_id, positions) !! token
  = match positions !! token with
    | Some pos_list =>
        let postings := default ∅ (positional_index !! token) in
        Some (<[doc_id := default [] (postings !! doc_id) ++ pos_list]> postings)
    | None => positional_index !! token
    end.
Proof.
  unfold PositionalIndex.merge_result. revert token.
  apply (map_fold_weak_ind (λ (r : gmap string (gmap Z (list Z)))
                              (m : gmap string (list Z)),
    ∀ token, r !! token = match m !! token with
      | Some pos_list =>
          let postings := default ∅ (positional_index !! token) in
          Some (<[doc_id := default [] (postings !! doc_id) ++ pos_list]> postings)
      | None => positional_index !! token
      end)).
  - intros token. by rewrite lookup_empty.
  - intros tok pos_list m r Hnone IH token.
    unfold PositionalIndex.extend_positions.
    destruct (decide (tok = token)) as [->|Hne].
    + rewrite !lookup_insert_eq. rewrite IH, Hnone. done.
    + rewrite !lookup_insert_ne by done. apply IH.
Qed.

Lemma positional_merge_result_comm
    (positional_index : gmap string (gmap Z (list Z)))
    (r1 r2 : Z * gmap string (list Z)) :
  r1.1 ≠ r2.1 →
  PositionalIndex.merge_result (PositionalIndex.merge_result positional_index r1) r2
  = PositionalIndex.merge_result (PositionalIndex.merge_result positional_index r2) r1.
Proof.
  destruct r1 as [d1 ps1], r2 as [d2 ps2]. cbn [fst]. intros Hne.
  apply map_eq. intros token. rewrite !positional_lookup_merge_result.
  destruct (ps1 !! token) as [pl1|], (ps2 !! token) as [pl2|]; simpl; try done.
  f_equal. rewrite !lookup_insert_ne by done. by apply insert_insert_ne.
Qed.

(** C8.  The per-document results can be merged in any order: the biword
    index and the positional index that come out are the same.  The
    documents of a build have distinct identifiers. *)
Theorem reduction_is_order_independent
    (biword_results biword_results' : list (Z * list (string * string)))
    (positional_results positional_results' : list (Z * gmap string (list Z))) :
  biword_results ≡ₚ biword_results' →
  positional_results ≡ₚ positional_results' →
  NoDup (fst <$> positional_results) →
  BiwordIndex.build_biword_index biword_results = BiwordIndex.build_biword_index biword_results'
  ∧ PositionalIndex.build_positional_index positional_results
    = PositionalIndex.build_positional_index positional_results'.
Proof.
  intros Hb Hp Hnd. split.
  - unfold BiwordIndex.build_biword_index. apply foldl_permutation_comm; [|done].
    intros a x y. apply biword_merge_result_comm.
  - unfold PositionalIndex.build_positional_index.
    apply (foldl_permutation_keys fst); [|done..].
    intros a x y Hne. by apply positional_merge_result_comm.
Qed.

Lemma reduction_is_order_independent_witness :
  let b0 : Z * list (string * string) := (0, [("real", "madrid"); ("madrid", "win")]) in
  let b1 : Z * list (string * string) := (1, [("beat", "real"); ("real", "madrid")]) in
  let p0 : Z * gmap string (list Z) := (0, {[ "real" := [0]; "madrid" := [1] ]}) in
  let p1 : Z * gmap string (list Z) := (1, {[ "real" := [2]; "madrid" := [3] ]}) in
  BiwordIndex.build_biword_index [b0; b1] = BiwordIndex.build_biword_index [b1; b0]
  ∧ PositionalIndex.build_positional_index [p0; p1] = PositionalIndex.build_positional_index [p1; p0].
Proof.
  intros b0 b1 p0 p1. apply reduction_is_order_independent.
  - apply perm_swap.
  - apply perm_swap.
  - apply NoDup_cons. split; [|apply NoDup_singleton].
    intros Hin%list_elem_of_In. simpl in Hin. destruct Hin as [Hin|[]]. lia.
Defined.

(** * Candidate generation (ngram_jaccard_correction.py) *)

Section stable_sort.
Context {A : Type} (le : A → A → bool).
Hypothesis le_total : ∀ x y, le x y = false → le y x = true.

Lemma insert_sorted_perm (x : A) (l : list A) : insert_sorted le x l ≡ₚ x :: l.
Proof.
  induction l as [|y l IH]; simpl; [done|].
  destruct (le x y); [done|]. rewrite IH. apply perm_swap.
Qed.

Lemma stable_sort_perm (l : list A) : stable_sort le l ≡ₚ l.
Proof.
  induction l as [|x l IH]; simpl; [done|].
  by rewrite insert_sorted_perm, IH.
Qed.

Lemma insert_sorted_Sorted (x : A) (l : list A) :
  Sorted (λ a b, le a b = true) l →
  Sorted (λ a b, le a b = true) (insert_sorted le x l).
Proof.
  induction 1 as [|y l Hs IH Hhd]; simpl.
  - repeat constructor.
  - destruct (le x y) eqn:Hxy.
    + constructor; [by constructor|]. by constructor.
    + constructor; [done|].
      destruct l as [|z l]; simpl.
      * constructor. by apply le_total.
      * destruct (le x z); constructor; [by apply le_total|].
        by inversion Hhd.
Qed.

Lemma stable_sort_Sorted (l : list A) :
  Sorted (λ a b, le a b = true) (stable_sort le l).
Proof.
  induction l as [|x l IH]; simpl; [constructor|].
  by apply insert_sorted_Sorted.
Qed.

End stable_sort.

Lemma Sorted_weaken {A} (R R' : A → A → Prop) (l : list A) :
  (∀ a b, R a b → R' a b) → Sorted R l → Sorted R' l.
Proof.
  intros HR. induction 1 as [|x l Hs IH Hhd]; constructor; [done|].
  destruct Hhd; constructor; auto.
Qed.

Lemma jaccard_key_le_spec (a b : string * Q * Z) :
  NgramJaccardCorrection.jaccard_key_le a b = true ↔ ranks_before a b.
Proof.
  destruct a as [[wa sa] da], b as [[wb sb] db].
  unfold NgramJaccardCorrection.jaccard_key_le, ranks_before. cbn [fst snd].
  destruct (Qeq_bool (- sa) (- sb)) eqn:Heq.
  - apply Qeq_bool_iff in Heq. rewrite Z.leb_le.
    unfold Qeq, Qlt, Qopp in *. simpl in *. split; [intros; right; lia|].
    intros [?|[_ ?]]; lia.
  - apply Qeq_bool_neq in Heq. rewrite Qle_bool_iff.
    unfold Qeq, Qle, Qlt, Qopp in *. simpl in *. split; [intros; left; lia|].
    intros [?|[? _]]; lia.
Qed.

Lemma jaccard_key_le_total (a b : string * Q * Z) :
  NgramJaccardCorrection.jaccard_key_le a b = false →
  NgramJaccardCorrection.jaccard_key_le b a = true.
Proof.
  intros Hab. apply jaccard_key_le_spec.
  assert (¬ ranks_before a b) as Hn.
  { intros H%jaccard_key_le_spec. congruence. }
  destruct a as [[wa sa] da], b as [[wb sb] db].
  unfold ranks_before in *. cbn [fst snd] in *.
  unfold Qeq, Qlt in *.
  destruct (Z_lt_le_dec (Qnum sa * QDen sb) (Qnum sb * QDen sa)); [by left|].
  right. split; lia.
Qed.

Lemma edit_key_le_total (a b : string * Z) :
  NgramJaccardCorrection.edit_key_le a b = false →
  NgramJaccardCorrection.edit_key_le b a = true.
Proof.
  unfold NgramJaccardCorrection.edit_key_le.
  rewrite Z.leb_gt, Z.leb_le. lia.
Qed.

Lemma elem_of_jaccard_matches (word : string) (vocabulary : list (string * Z))
    (min_similarity : Q) (min_df : Z) (w : string) (sim : Q) (df : Z) :
  (w, sim, df) ∈ NgramJaccardCorrection.jaccard_matches word vocabulary
                   min_similarity min_df
  ↔ (w, df) ∈ vocabulary ∧ min_df ≤ df
    ∧ sim = NgramJaccardCorrection.jaccard_similarity
              (NgramJaccardCorrection.combined_ngrams word)
              (NgramJaccardCorrection.combined_ngrams w)
    ∧ (min_similarity <= sim)%Q.
Proof.
  unfold NgramJaccardCorrection.jaccard_matches. rewrite list_elem_of_omap. split.
  - intros ([w' df'] & Hin & Hf).
    destruct (min_df <=? df') eqn:Hdf; [|done]. apply Z.leb_le in Hdf.
    destruct (Qle_bool _ _) eqn:Hsim; [|done]. apply Qle_bool_iff in Hsim.
    by simplify_eq.
  - intros (Hin & Hdf & -> & Hsim). exists (w, df). split; [done|].
    apply Z.leb_le in Hdf. apply Qle_bool_iff in Hsim. by rewrite Hdf, Hsim.
Qed.

Lemma elem_of_edit_matches (distance : string → string → Z) (word : string)
    (vocabulary : list (string * Z)) (max_distance : Z) (w : string) (dist : Z) :
  (w, dist) ∈ NgramJaccardCorrection.edit_matches distance word vocabulary
                max_distance
  ↔ (∃ df, (w, df) ∈ vocabulary) ∧ dist = distance word w ∧ dist ≤ max_distance.
Proof.
  unfold NgramJaccardCorrection.edit_matches. rewrite list_elem_of_omap. split.
  - intros ([w' df'] & Hin & Hf).
    destruct (_ <=? _) eqn:Hd; [|done]. apply Z.leb_le in Hd.
    simplify_eq. eauto.
  - intros ((df & Hin) & -> & Hd). exists (w, df). split; [done|].
    apply Z.leb_le in Hd. by rewrite Hd.
Qed.

(** C9.  The candidate list of a word is never empty.  It is the list of
    the similarity candidates when there are any, else the list of the
    edit-distance candidates when there are any, else the word alone.  The
    similarity candidates are the first [top_n] words of the vocabulary
    entries with enough similarity and document frequency, ranked by
    similarity then document frequency, both descending; the edit-distance
    candidates are the first [top_n] words of the entries within the
    distance bound, ranked by distance. *)
Theorem candidates_never_empty (distance : string → string → Z)
    (word : string) (vocabulary : list (string * Z)) :
  let jaccard :=
    NgramJaccardCorrection.find_jaccard_candidates word vocabulary
      NgramJaccardCorrection.top_n_jaccard NgramJaccardCorrection.min_similarity
      NgramJaccardCorrection.min_df in
  let edit :=
    NgramJaccardCorrection.find_edit_distance_candidates distance word vocabulary
      NgramJaccardCorrection.max_distance NgramJaccardCorrection.top_n_edit in
  let best := NgramJaccardCorrection.get_best_candidates distance word vocabulary in
  best ≠ []
  ∧ (jaccard ≠ [] → best = jaccard)
  ∧ (jaccard = [] → edit ≠ [] → best = edit)
  ∧ (jaccard = [] → edit = [] → best = [word])
  ∧ (∃ ranked,
       jaccard = (λ c, c.1.1) <$> take NgramJaccardCorrection.top_n_jaccard ranked
       ∧ Sorted ranks_before ranked
       ∧ ∀ w sim df, (w, sim, df) ∈ ranked
           ↔ (w, df) ∈ vocabulary ∧ NgramJaccardCorrection.min_df ≤ df
             ∧ sim = NgramJaccardCorrection.jaccard_similarity
                       (NgramJaccardCorrection.combined_ngrams word)
                       (NgramJaccardCorrection.combined_ngrams w)
             ∧ (NgramJaccardCorrection.min_similarity <= sim)%Q)
  ∧ (∃ ranked,
       edit = fst <$> take NgramJaccardCorrection.top_n_edit ranked
       ∧ Sorted nearer ranked
       ∧ ∀ w dist, (w, dist) ∈ ranked
           ↔ (∃ df, (w, df) ∈ vocabulary) ∧ dist = distance word w
             ∧ dist ≤ NgramJaccardCorrection.max_distance).
Proof.
  intros jaccard edit best.
  assert (best = match jaccard with
                 | [] => match edit with [] => [word] | _ => edit end
                 | _ => jaccard
                 end) as Hbest.
  { unfold best, NgramJaccardCorrection.get_best_candidates.
    fold jaccard. fold edit. by destruct jaccard, edit. }
  split; [|split; [|split; [|split; [|split]]]].
  - rewrite Hbest. by destruct jaccard, edit.
  - intros Hj. rewrite Hbest. by destruct jaccard.
  - intros Hj He. rewrite Hbest, Hj. by destruct edit.
  - intros Hj He. by rewrite Hbest, Hj, He.
  - exists (NgramJaccardCorrection.jaccard_ranked word vocabulary
              NgramJaccardCorrection.min_similarity NgramJaccardCorrection.min_df).
    split; [done|]. split.
    + apply (Sorted_weaken (λ a b, NgramJaccardCorrection.jaccard_key_le a b = true)).
      * intros a b. apply jaccard_key_le_spec.
      * apply stable_sort_Sorted, jaccard_key_le_total.
    + intros w sim df. unfold NgramJaccardCorrection.jaccard_ranked.
      rewrite stable_sort_perm. apply elem_of_jaccard_matches.
  - exists (NgramJaccardCorrection.edit_ranked distance word vocabulary
              NgramJaccardCorrection.max_distance).
    split; [done|]. split.
    + apply (Sorted_weaken (λ a b, NgramJaccardCorrection.edit_key_le a b = true)).
      * intros a b. unfold NgramJaccardCorrection.edit_key_le, nearer.
        apply Z.leb_le.
      * apply stable_sort_Sorted, edit_key_le_total.
    + intros w dist. unfold NgramJaccardCorrection.edit_ranked.
      rewrite stable_sort_perm. apply elem_of_edit_matches.
Qed.

Example candidates_ex :
  NgramJaccardCorrection.get_best_candidates edit_distance "relal"
    [("real", 2); ("madrid", 2); ("relay", 1)] = ["real"; "relay"]
  ∧ NgramJaccardCorrection.get_best_candidates edit_distance "madrd"
      [("real", 25); ("madrid", 30); ("madras", 40)] = ["madras"; "madrid"]
  ∧ NgramJaccardCorrection.get_best_candidates edit_distance "zzzzzz"
      [("real", 25); ("madrid", 30)] = ["zzzzzz"].
Proof. vm_compute. auto. Qed.

(** * More of lists.py *)

(** ** Sorted lists *)

Lemma sorted_lookup_le (arr : list Z) (i j : nat) (a b : Z) :
  StronglySorted Z.le arr → (i ≤ j)%nat →
  arr !! i = Some a → arr !! j = Some b → a ≤ b.
Proof.
  intros Hs. revert i j. induction Hs as [|x arr Hs IH Hall]; intros i j Hij Hi Hj.
  - by rewrite lookup_nil in Hi.
  - destruct i as [|i], j as [|j]; simplify_eq/=; try lia.
    + rewrite Forall_forall in Hall. apply Hall.
      by eapply list_elem_of_lookup_2.
    + eapply (IH i j); [lia|done..].
Qed.

Lemma sorted_le_nodup_lt (l : list Z) :
  StronglySorted Z.le l → NoDup l → StronglySorted Z.lt l.
Proof.
  induction 1 as [|x l Hs IH Hall]; intros Hnd; constructor.
  - apply IH. by apply NoDup_cons in Hnd as [_ ?].
  - apply NoDup_cons in Hnd as [Hx _]. rewrite Forall_forall in *.
    intros y Hy. specialize (Hall y Hy).
    destruct (decide (x = y)) as [->|]; [done|lia].
Qed.

Lemma sorted_lt_filter (P : Z → Prop) `{∀ x, Decision (P x)} (l : list Z) :
  StronglySorted Z.lt l → StronglySorted Z.lt (filter P l).
Proof.
  induction 1 as [|x l Hs IH Hall]; [rewrite filter_nil; constructor|].
  rewrite filter_cons. destruct (decide (P x)); [|done].
  constructor; [done|]. rewrite Forall_forall in *.
  intros y [_ Hy]%list_elem_of_filter. by apply Hall.
Qed.

(** ** Linear intersection *)

(** X1.  On strictly ascending lists, [intersect_linear] returns, in ascending
    order, exactly the elements that are in both. *)
Theorem intersect_linear_is_intersection (list1 list2 : list Z) :
  StronglySorted Z.lt list1 → StronglySorted Z.lt list2 →
  ∃ result, Lists.intersect_linear list1 list2 = Ok result
            ∧ StronglySorted Z.lt result
            ∧ ∀ x, x ∈ result ↔ x ∈ list1 ∧ x ∈ list2.
Proof.
  intros Hs1 Hs2. exists (filter (λ x, x ∈ list2) list1).
  split; [by apply intersect_linear_spec|].
  split; [by apply sorted_lt_filter|].
  intros x. rewrite list_elem_of_filter. tauto.
Qed.

Lemma intersect_linear_is_intersection_witness :
  ∃ result, Lists.intersect_linear [1; 4; 6; 9] [2; 4; 9; 11] = Ok result
            ∧ StronglySorted Z.lt result
            ∧ ∀ x, x ∈ result ↔ x ∈ [1; 4; 6; 9] ∧ x ∈ [2; 4; 9; 11].
Proof.
  apply intersect_linear_is_intersection;
    repeat (constructor; [|repeat (constructor; try lia)]); constructor.
Defined.

(** ** Binary search *)

Lemma binary_search_loop_spec (fuel : nat) (arr : list Z) (target : Z)
    (low high : nat) :
  StronglySorted Z.le arr → (high ≤ length arr)%nat → (high - low ≤ fuel)%nat →
  ∃ r, Lists.binary_search_loop fuel arr target low high = Ok r
       ∧ match r with
         | Some mid => (low ≤ mid < high)%nat ∧ arr !! mid = Some target
         | None => ∀ k, (low ≤ k < high)%nat → arr !! k ≠ Some target
         end.
Proof.
  intros Hs. revert low high.
  induction fuel as [|fuel IH]; intros low high Hhigh Hfuel.
  - exists None. cbn [Lists.binary_search_loop].
    rewrite bool_decide_eq_false_2 by lia. split; [done|]. intros k Hk. lia.
  - cbn [Lists.binary_search_loop]. case_bool_decide as Hlt.
    2:{ exists None. split; [done|]. intros k Hk. lia. }
    assert (low ≤ (low + high) / 2 < high)%nat as Hmid.
    { split; [apply Nat.div_le_lower_bound|apply Nat.Div0.div_lt_upper_bound]; lia. }
    set (mid := ((low + high) / 2)%nat) in *.
    destruct (lookup_lt_is_Some_2 arr mid) as [x Hx]; [lia|].
    unfold getitem. rewrite Hx. cbn [mbind outcome_bind].
    destruct (x =? target) eqn:Heq; [|destruct (x <? target) eqn:Hcmp].
    + apply Z.eqb_eq in Heq as ->. exists (Some mid). done.
    + apply Z.ltb_lt in Hcmp.
      destruct (IH (S mid) high) as (r & -> & Hr); [lia..|].
      exists r. split; [done|]. destruct r as [m|].
      * destruct Hr. split; [lia|done].
      * intros k Hk Hkt. destruct (decide (k ≤ mid)%nat) as [Hle|Hgt].
        -- pose proof (sorted_lookup_le arr k mid target x Hs Hle Hkt Hx). lia.
        -- apply (Hr k); [lia|done].
    + apply Z.eqb_neq in Heq. apply Z.ltb_ge in Hcmp.
      destruct (IH low mid) as (r & -> & Hr); [lia..|].
      exists r. split; [done|]. destruct r as [m|].
      * destruct Hr. split; [lia|done].
      * intros k Hk Hkt. destruct (decide (k < mid)%nat) as [Hlt'|Hge].
        -- apply (Hr k); [lia|done].
        -- pose proof (sorted_lookup_le arr mid k x target Hs ltac:(lia) Hx Hkt). lia.
Qed.

(** X2.  On an ascending list, [binary_search] between [low] and [high] returns
    an index of the target inside these bounds when there is one, and its
    "not found" value exactly when the target is at none of these indices.
    It never reads outside the list. *)
Theorem binary_search_finds_target (arr : list Z) (target : Z) (low high : nat) :
  StronglySorted Z.le arr → (high ≤ length arr)%nat →
  ∃ r, Lists.binary_search arr target low high = Ok r
       ∧ match r with
         | Some mid => (low ≤ mid < high)%nat ∧ arr !! mid = Some target
         | None => ∀ k, (low ≤ k < high)%nat → arr !! k ≠ Some target
         end.
Proof.
  intros Hs Hhigh. unfold Lists.binary_search.
  by apply binary_search_loop_spec.
Qed.

Lemma binary_search_finds_target_witness :
  ∃ r, Lists.binary_search [1; 3; 3; 8; 10] 8 0 5 = Ok r
       ∧ match r with
         | Some mid => (0 ≤ mid < 5)%nat ∧ [1; 3; 3; 8; 10] !! mid = Some 8
         | None => ∀ k, (0 ≤ k < 5)%nat → [1; 3; 3; 8; 10] !! k ≠ Some 8
         end.
Proof.
  apply binary_search_finds_target; [|simpl; lia].
  repeat (constructor; [|repeat (constructor; try lia)]); constructor.
Defined.

(** ** Galloping intersection *)

Lemma for_each_gallop_step_sublist (list1 list2 result : list Z) :
  ∃ r, for_each (Lists.gallop_step list2) result list1 = Ok (result ++ r)
       ∧ r `sublist_of` list1 ∧ ∀ x, x ∈ r → x ∈ list2.
Proof.
  revert result. induction list1 as [|element list1 IH]; intros result.
  - exists []. rewrite app_nil_r. split; [done|]. split; [done|].
    by intros x ?%elem_of_nil.
  - cbn [for_each].
    destruct (gallop_step_sound list2 result element) as [->|[-> Hin]];
      cbn [mbind outcome_bind].
    + destruct (IH result) as (r & -> & Hsub & Hr). exists r.
      split; [done|]. split; [by apply sublist_cons|done].
    + destruct (IH (result ++ [element])) as (r & -> & Hsub & Hr).
      exists (element :: r). rewrite <-app_assoc. split; [done|].
      split; [by apply sublist_skip|].
      intros x [ ->|Hx]%elem_of_cons; auto.
Qed.

(** X3.  [intersect_galloping] never raises, whatever the two lists; it returns
    elements of the shorter list, in the order of that list, and every
    element it returns is in the other list too. *)
Theorem intersect_galloping_selects_common (list1 list2 : list Z) :
  ∃ result, Lists.intersect_galloping list1 list2 = Ok result
    ∧ result `sublist_of`
        (if bool_decide (length list2 < length list1)%nat then list2 else list1)
    ∧ ∀ x, x ∈ result → x ∈ list1 ∧ x ∈ list2.
Proof.
  unfold Lists.intersect_galloping. case_bool_decide.
  - destruct (for_each_gallop_step_sublist list2 list1 []) as (r & -> & Hsub & Hr).
    exists r. split; [done|]. split; [done|]. intros x Hx. split; [auto|].
    eapply elem_of_sublist; eauto.
  - destruct (for_each_gallop_step_sublist list1 list2 []) as (r & -> & Hsub & Hr).
    exists r. split; [done|]. split; [done|]. intros x Hx. split; [|auto].
    eapply elem_of_sublist; eauto.
Qed.

(** ** The 26 letter lists *)

(** The invariant of the loop of [create_letter_lists]: the keys stay the
    26 letters, and a letter has the documents of the terms seen so far that
    start with it. *)
Lemma letter_sets_spec (inverted_index : gmap string (gset Z)) :
  let letter_lists :=
    map_fold Lists.add_term_docs
      (list_to_map ((λ letter, (letter, ∅)) <$> Lists.ascii_lowercase))
      inverted_index in
  dom letter_lists = list_to_set Lists.ascii_lowercase
  ∧ ∀ letter docs, letter_lists !! letter = Some docs →
      ∀ d, d ∈ docs ↔ ∃ term ds, inverted_index !! term = Some ds
                                 ∧ first_letter term = Some letter ∧ d ∈ ds.
Proof.
  cbn zeta.
  apply (map_fold_weak_ind (λ (acc : gmap string (gset Z))
                              (m : gmap string (gset Z)),
    dom acc = list_to_set Lists.ascii_lowercase
    ∧ ∀ letter docs, acc !! letter = Some docs →
        ∀ d, d ∈ docs ↔ ∃ term ds, m !! term = Some ds
                                   ∧ first_letter term = Some letter ∧ d ∈ ds)).
  - split.
    + rewrite dom_list_to_map_L. by f_equal.
    + intros letter docs Hl%elem_of_list_to_map_2.
      apply list_elem_of_fmap in Hl as (l & [= _ ->] & _). intros d. split.
      * by intros ?%not_elem_of_empty.
      * intros (term & ds & Hm & _). by rewrite lookup_empty in Hm.
  - intros term ds m acc Hnone [Hdom IH].
    assert (∀ letter d,
      (∃ term' ds', <[term:=ds]> m !! term' = Some ds'
                    ∧ first_letter term' = Some letter ∧ d ∈ ds')
      ↔ (first_letter term = Some letter ∧ d ∈ ds)
        ∨ ∃ term' ds', m !! term' = Some ds'
                       ∧ first_letter term' = Some letter ∧ d ∈ ds') as Hins.
    { intros letter d. split.
      - intros (term' & ds' & Hl & Hf & Hd).
        destruct (decide (term = term')) as [<-|Hne].
        + rewrite lookup_insert_eq in Hl. left. by simplify_eq.
        + rewrite lookup_insert_ne in Hl by done. right. eauto.
      - intros [[Hf Hd]|(term' & ds' & Hl & Hf & Hd)].
        + exists term, ds. by rewrite lookup_insert_eq.
        + exists term', ds'. rewrite lookup_insert_ne; [done|].
          intros ->. congruence. }
    unfold Lists.add_term_docs. destruct term as [|c rest].
    { split; [done|]. intros letter docs Hl d. rewrite Hins, (IH letter docs Hl).
      split; [auto|]. by intros [[? _]|?]. }
    cbn zeta. destruct (acc !! lower (String c "")) as [docs0|] eqn:Hacc.
    + split.
      * rewrite dom_insert_lookup_L; [done|]. by rewrite Hacc.
      * intros letter docs Hl d. rewrite Hins.
        destruct (decide (lower (String c "") = letter)) as [<-|Hne].
        -- rewrite lookup_insert_eq in Hl. injection Hl as <-.
           rewrite elem_of_union, (IH _ docs0 Hacc). cbn [first_letter].
           split; [intros [?|?]; auto|]. intros [[_ ?]|?]; auto.
        -- rewrite lookup_insert_ne in Hl by done. rewrite (IH letter docs Hl).
           cbn [first_letter]. split; [auto|]. intros [[? _]|?]; [|done].
           congruence.
    + split; [done|]. intros letter docs Hl d. rewrite Hins, (IH letter docs Hl).
      cbn [first_letter]. split; [auto|]. intros [[? _]|?]; [|done].
      congruence.
Qed.

Lemma create_letter_lists_lookup (inverted_index : gmap string (gset Z))
    (letter : string) (l : list Z) :
  Lists.create_letter_lists inverted_index !! letter = Some l →
  StronglySorted Z.lt l
  ∧ ∀ d, d ∈ l ↔ ∃ term docs, inverted_index !! term = Some docs
                              ∧ first_letter term = Some letter ∧ d ∈ docs.
Proof.
  unfold Lists.create_letter_lists. cbn zeta.
  intros (docs & <- & Hl)%lookup_fmap_Some.
  destruct (letter_sets_spec inverted_index) as [_ Hspec].
  specialize (Hspec letter docs Hl). split.
  - apply sorted_le_nodup_lt.
    + apply StronglySorted_merge_sort; apply _.
    + rewrite merge_sort_Permutation. apply NoDup_elements.
  - intros d. rewrite merge_sort_Permutation, elem_of_elements. apply Hspec.
Qed.

(** X4.  [create_letter_lists] has exactly the 26 lower-case letters as keys;
    the list of a letter is strictly ascending and holds the documents of
    the terms whose first character, in lower case, is that letter. *)
Theorem letter_lists_sorted_by_first_letter
    (inverted_index : gmap string (gset Z)) (letter : string) :
  let letter_lists := Lists.create_letter_lists inverted_index in
  (is_Some (letter_lists !! letter) ↔ letter ∈ Lists.ascii_lowercase)
  ∧ ∀ l, letter_lists !! letter = Some l →
      StronglySorted Z.lt l
      ∧ ∀ d, d ∈ l ↔ ∃ term docs, inverted_index !! term = Some docs
                                  ∧ first_letter term = Some letter ∧ d ∈ docs.
Proof.
  intros letter_lists. split; [|apply create_letter_lists_lookup].
  rewrite <-elem_of_dom. unfold letter_lists, Lists.create_letter_lists.
  cbn zeta. rewrite dom_fmap_L.
  destruct (letter_sets_spec inverted_index) as [-> _].
  apply elem_of_list_to_set.
Qed.

(** X5.  The letter lists are inputs the intersections are made for: the linear
    intersection of two of them returns exactly the documents that have a
    term for each of the two letters, and the galloping intersection returns
    some of these. *)
Theorem letter_lists_intersection (inverted_index : gmap string (gset Z))
    (letter1 letter2 : string) (list1 list2 : list Z) :
  Lists.create_letter_lists inverted_index !! letter1 = Some list1 →
  Lists.create_letter_lists inverted_index !! letter2 = Some list2 →
  let has letter d :=
    ∃ term docs, inverted_index !! term = Some docs
                 ∧ first_letter term = Some letter ∧ d ∈ docs in
  ∃ linear galloping,
    Lists.intersect_linear list1 list2 = Ok linear
    ∧ Lists.intersect_galloping list1 list2 = Ok galloping
    ∧ (∀ d, d ∈ linear ↔ has letter1 d ∧ has letter2 d)
    ∧ ∀ d, d ∈ galloping → d ∈ linear.
Proof.
  intros H1 H2 has.
  destruct (create_letter_lists_lookup _ _ _ H1) as [Hs1 Hm1].
  destruct (create_letter_lists_lookup _ _ _ H2) as [Hs2 Hm2].
  destruct (galloping_within_linear list1 list2 Hs1 Hs2)
    as (linear & galloping & Hlin & Hgal & Hsub).
  exists linear, galloping. split; [done|]. split; [done|]. split; [|done].
  intros d. rewrite intersect_linear_spec in Hlin by done.
  injection Hlin as <-. rewrite list_elem_of_filter, Hm1, Hm2. tauto.
Qed.

Lemma letter_lists_intersection_witness :
  ∃ linear galloping,
    Lists.intersect_linear [0; 1] [0; 1] = Ok linear
    ∧ Lists.intersect_galloping [0; 1] [0; 1] = Ok galloping
    ∧ (∀ d, d ∈ linear
         ↔ (∃ term docs, example_index !! term = Some docs
                         ∧ first_letter term = Some "r" ∧ d ∈ docs)
           ∧ (∃ term docs, example_index !! term = Some docs
                           ∧ first_letter term = Some "m" ∧ d ∈ docs))
    ∧ ∀ d, d ∈ galloping → d ∈ linear.
Proof.
  apply (letter_lists_intersection example_index "r" "m"); by vm_compute.
Defined.

(** * More of boolean.py *)

(** ** The parser evaluates a query by the precedence of its grammar *)

Lemma drop_cons_lookup {A} (l : list A) (i : nat) (x : A) (rest : list A) :
  drop i l = x :: rest → l !! i = Some x ∧ drop (S i) l = rest.
Proof.
  intros Hd. split.
  - rewrite <-(Nat.add_0_r i), <-lookup_drop, Hd. done.
  - rewrite <-(Nat.add_1_r i), <-drop_drop, Hd. done.
Qed.

Lemma drop_head_lookup {A} (l : list A) (i : nat) (post : list A) :
  drop i l = post → l !! i = head post.
Proof.
  intros Hd. rewrite <-(Nat.add_0_r i), <-lookup_drop, Hd. by destruct post.
Qed.

Lemma drop_app_skip {A} (l : list A) (i : nat) (ts post : list A) :
  drop i l = ts ++ post → drop (i + length ts) l = post.
Proof. intros Hd. by rewrite <-drop_drop, Hd, drop_app_length. Qed.

Lemma within_bind {A B} (m : outcome A) (a : A) (k : A → outcome B)
    (R : outcome B) :
  within m (Ok a) → within (k a) R → within (m ≫= k) R.
Proof. intros [->| ->]; [by left|done]. Qed.

Lemma within_bind_raise {A B} (m : outcome A) (e : exn) (k : A → outcome B) :
  within m (Raise e) → within (m ≫= k) (Raise e).
Proof. intros [->| ->]; [by left|by right]. Qed.

Section parser_correct.
Context (tokens : list string) (inverted_index : gmap string (gset Z))
        (all_docs : gset Z).
Abbreviation PO := (Boolean.parse_or tokens inverted_index all_docs).
Abbreviation OL := (Boolean.parse_or_loop tokens inverted_index all_docs).
Abbreviation PA := (Boolean.parse_and tokens inverted_index all_docs).
Abbreviation AL := (Boolean.parse_and_loop tokens inverted_index all_docs).
Abbreviation PN := (Boolean.parse_not tokens inverted_index all_docs).
Abbreviation PP := (Boolean.parse_primary tokens inverted_index all_docs).
Abbreviation value := (eval inverted_index all_docs).
Abbreviation not_level := (not_level tokens inverted_index all_docs).
Abbreviation and_level := (and_level tokens inverted_index all_docs).
Abbreviation or_level := (or_level tokens inverted_index all_docs).

Lemma and_loop_stops (result : gset Z) (j : nat) (f : nat) :
  tokens !! j ≠ Some "AND" → within (AL f result j) (Ok (result, j)).
Proof.
  intros Hj. destruct f as [|f]; [by left|].
  right. by apply parse_and_loop_stop.
Qed.

Lemma or_loop_stops (result : gset Z) (j : nat) (f : nat) :
  tokens !! j ≠ Some "OR" → within (OL f result j) (Ok (result, j)).
Proof.
  intros Hj. destruct f as [|f]; [by left|].
  right. by apply parse_or_loop_stop.
Qed.

Lemma and_level_of_not_level (q : query) :
  to_tokens 1 q = to_tokens 2 q → not_level q → and_level q.
Proof.
  intros Heq Hn i post fuel R Hd Hloop. rewrite Heq in *.
  destruct fuel as [|fuel]; [by left|]. rewrite parse_and_unfold.
  eapply within_bind; [by eapply Hn|]. apply Hloop.
Qed.

Lemma or_level_of_and_level (q : query) :
  to_tokens 0 q = to_tokens 1 q → and_level q → or_level q.
Proof.
  intros Heq Ha i post fuel R Hd Hpost Hloop. rewrite Heq in *.
  destruct fuel as [|fuel]; [by left|]. rewrite parse_or_unfold.
  eapply (within_bind _ (value q, (i + length (to_tokens 1 q))%nat));
    [|apply Hloop].
  eapply Ha; [done|]. intros f. apply and_loop_stops.
  by rewrite (drop_head_lookup _ _ post) by by apply drop_app_skip.
Qed.

Lemma not_level_of_or_level (q : query) :
  to_tokens 2 q = "(" :: to_tokens 0 q ++ [")"] → or_level q → not_level q.
Proof.
  intros Heq Ho i post fuel Hd. rewrite Heq in *.
  cbn [app] in Hd. apply drop_cons_lookup in Hd as [Hi Hd].
  rewrite <-app_assoc in Hd.
  destruct fuel as [|fuel]; [by left|].
  rewrite parse_not_other by (rewrite Hi; congruence).
  destruct fuel as [|fuel]; [by left|].
  rewrite parse_primary_paren by done.
  pose proof (drop_app_skip _ _ _ _ Hd) as Hd'.
  apply drop_cons_lookup in Hd' as [Hclose _].
  eapply within_bind.
  - eapply Ho; [done|done|]. intros f. apply or_loop_stops.
    rewrite Hclose. congruence.
  - cbn beta iota. right. unfold Boolean.eat, Boolean.current_token.
    rewrite Hclose, decide_True by done. cbn [mbind outcome_bind].
    do 2 f_equal. cbn [length]. rewrite length_app. cbn [length]. lia.
Qed.

Lemma to_tokens_and (l r : query) :
  to_tokens 1 (QAnd l r) = to_tokens 1 l ++ "AND" :: to_tokens 2 r.
Proof. reflexivity. Qed.

Lemma to_tokens_or (l r : query) :
  to_tokens 0 (QOr l r) = to_tokens 0 l ++ "OR" :: to_tokens 1 r.
Proof. reflexivity. Qed.

Lemma parser_levels (q : query) :
  Forall (λ t, t ≠ "NOT" ∧ t ≠ "(") (terms_of q) →
  or_level q ∧ and_level q ∧ not_level q.
Proof.
  induction q as [t|q IH|l IHl r IHr|l IHl r IHr]; cbn [terms_of]; intros Hterms.
  - apply Forall_singleton in Hterms as [Hn Hp].
    assert (not_level (QTerm t)) as H2.
    { intros i post fuel [Hi _]%drop_cons_lookup.
      destruct fuel as [|fuel]; [by left|].
      rewrite parse_not_other by (rewrite Hi; congruence).
      destruct fuel as [|fuel]; [by left|]. right.
      rewrite (parse_primary_term _ _ _ _ _ t) by done.
      do 2 f_equal. cbn. lia. }
    assert (and_level (QTerm t)) as H1 by by apply and_level_of_not_level.
    split; [by apply or_level_of_and_level|done].
  - destruct (IH Hterms) as (_ & _ & IH2).
    assert (not_level (QNot q)) as H2.
    { intros i post fuel [Hi Hd]%drop_cons_lookup.
      destruct fuel as [|fuel]; [by left|].
      rewrite parse_not_NOT by done.
      eapply within_bind; [by eapply IH2|]. right.
      cbn [eval to_tokens length]. f_equal. f_equal. lia. }
    assert (and_level (QNot q)) as H1 by by apply and_level_of_not_level.
    split; [by apply or_level_of_and_level|done].
  - apply Forall_app in Hterms as [Hl Hr].
    destruct (IHl Hl) as (_ & IHl1 & _). destruct (IHr Hr) as (_ & _ & IHr2).
    assert (and_level (QAnd l r)) as H1.
    { intros i post fuel R Hd Hloop. rewrite to_tokens_and in Hd.
      rewrite <-app_assoc in Hd.
      eapply IHl1; [done|]. intros f.
      apply drop_app_skip, drop_cons_lookup in Hd as [Hop Hd].
      destruct f as [|f]; [by left|].
      rewrite parse_and_loop_AND by done.
      eapply within_bind; [by eapply IHr2|]. cbn beta iota.
      specialize (Hloop f). rewrite to_tokens_and, length_app in Hloop.
      cbn [length eval] in Hloop.
      by replace (S (i + length (to_tokens 1 l)) + length (to_tokens 2 r))%nat
        with (i + (length (to_tokens 1 l) + S (length (to_tokens 2 r))))%nat
        by lia. }
    assert (or_level (QAnd l r)) as H0 by by apply or_level_of_and_level.
    split; [done|]. split; [done|]. by apply not_level_of_or_level.
  - apply Forall_app in Hterms as [Hl Hr].
    destruct (IHl Hl) as (IHl0 & _ & _). destruct (IHr Hr) as (_ & IHr1 & _).
    assert (or_level (QOr l r)) as H0.
    { intros i post fuel R Hd Hpost Hloop. rewrite to_tokens_or in Hd.
      rewrite <-app_assoc in Hd.
      eapply IHl0; [done|done|]. intros f.
      apply drop_app_skip, drop_cons_lookup in Hd as [Hop Hd].
      destruct f as [|f]; [by left|].
      rewrite parse_or_loop_OR by done.
      eapply within_bind.
      - eapply IHr1; [done|]. intros f'. apply and_loop_stops.
        by rewrite (drop_head_lookup _ _ post) by by apply drop_app_skip.
      - cbn beta iota. specialize (Hloop f).
        rewrite to_tokens_or, length_app in Hloop. cbn [length eval] in Hloop.
        by replace (S (i + length (to_tokens 0 l)) + length (to_tokens 1 r))%nat
          with (i + (length (to_tokens 0 l) + S (length (to_tokens 1 r))))%nat
          by lia. }
    assert (not_level (QOr l r)) as H2 by by apply not_level_of_or_level.
    split; [done|]. split; [|done]. by apply and_level_of_not_level.
Qed.

Lemma parse_or_tree_at (q : query) (i : nat) (post : list string) (fuel : nat) :
  Forall (λ t, t ≠ "NOT" ∧ t ≠ "(") (terms_of q) →
  drop i tokens = to_tokens 0 q ++ post →
  head post ≠ Some "AND" → head post ≠ Some "OR" →
  within (PO fuel i) (Ok (value q, (i + length (to_tokens 0 q))%nat)).
Proof.
  intros Hterms Hd Hand Hor.
  destruct (parser_levels q Hterms) as (Ho & _ & _).
  eapply Ho; [done|done|]. intros f. apply or_loop_stops.
  by rewrite (drop_head_lookup _ _ post) by by apply drop_app_skip.
Qed.

End parser_correct.

Lemma within_total {A} (r R : outcome A) : r ≠ OutOfFuel → within r R → r = R.
Proof. by intros Hr [?|?]. Qed.

Lemma parse_query_tree (q : query) (inverted_index : gmap string (gset Z))
    (all_docs : gset Z) :
  Forall (λ t, t ≠ "NOT" ∧ t ≠ "(") (terms_of q) →
  Boolean.parse_query (to_tokens 0 q) inverted_index all_docs
    (Boolean.parse_fuel (to_tokens 0 q)) 0
  = Ok (eval inverted_index all_docs q, length (to_tokens 0 q)).
Proof.
  intros Hterms. unfold Boolean.parse_query. apply within_total.
  - destruct (parser_fuel (to_tokens 0 q) inverted_index all_docs
                (Boolean.parse_fuel (to_tokens 0 q)) 0)
      as (_ & _ & _ & _ & _ & Ho).
    specialize (Ho ltac:(unfold Boolean.parse_fuel; lia)).
    by destruct (Boolean.parse_or _ _ _ _ _) as [[r i]| |].
  - apply (parse_or_tree_at _ _ _ q 0 []); [done| |done|done].
    by rewrite app_nil_r.
Qed.

(** ** The tokens of a query text *)

Lemma findall_go_run (cur t s : string) :
  all_chars isword t = true →
  Boolean.findall_go cur (t +:+ s) = Boolean.findall_go (cur +:+ t) s.
Proof.
  revert cur. induction t as [|c t IH]; intros cur Hw.
  - by rewrite append_nil, append_empty_r.
  - cbn in Hw. apply andb_prop in Hw as [Hc Ht].
    rewrite append_cons, findall_go_word_char, IH, append_snoc by done. done.
Qed.

Lemma findall_go_space (cur s : string) :
  Boolean.findall_go cur (" " +:+ s)
  = Boolean.flush cur ++ Boolean.findall_go "" s.
Proof.
  rewrite append_cons, append_nil. by apply findall_go_skip_char.
Qed.

Lemma findall_go_raw_token (tok s : string) :
  raw_token tok →
  Boolean.findall_go "" (tok +:+ " " +:+ s) = tok :: Boolean.findall_go "" s.
Proof.
  intros [Hp|[Hne Hw]].
  - apply list_elem_of_In in Hp. destruct Hp as [<-|[<-|[]]].
    + rewrite !append_cons, !append_nil. cbn.
      rewrite bool_decide_eq_false_2; [done|]. by intros [?|?].
    + rewrite !append_cons, !append_nil. cbn.
      rewrite bool_decide_eq_false_2; [done|]. by intros [?|?].
  - rewrite findall_go_run, append_nil, findall_go_space by done.
    by destruct tok.
Qed.

Lemma findall_go_raw_token_last (tok : string) :
  raw_token tok → Boolean.findall_go "" tok = [tok].
Proof.
  intros [Hp|[Hne Hw]].
  - apply list_elem_of_In in Hp. by destruct Hp as [<-|[<-|[]]].
  - rewrite findall_go_word, append_nil by done. by destruct tok.
Qed.

Lemma findall_join (toks : list string) :
  Forall raw_token toks → Boolean.findall (join " " toks) = toks.
Proof.
  unfold Boolean.findall. induction 1 as [|tok toks Htok Htoks IH]; [done|].
  destruct toks as [|tok' toks].
  - by apply findall_go_raw_token_last.
  - change (join " " (tok :: tok' :: toks))
      with (tok +:+ " " +:+ join " " (tok' :: toks)).
    by rewrite findall_go_raw_token, IH.
Qed.

Lemma valid_token_raw (tok : string) : valid_token tok → raw_token tok.
Proof.
  intros [Hr|[Hp|(Hne & Hw & _)]]; [|by left|by right].
  right. apply list_elem_of_In in Hr.
  destruct Hr as [<-|[<-|[<-|[]]]]; split; done.
Qed.

Lemma standardize_valid (tok : string) :
  valid_token tok → Boolean.standardize tok = tok.
Proof.
  intros [Hr|[Hp|Ht]]; [| |by apply standardize_term].
  - apply list_elem_of_In in Hr. by destruct Hr as [<-|[<-|[<-|[]]]].
  - apply list_elem_of_In in Hp. by destruct Hp as [<-|[<-|[]]].
Qed.

Lemma tokenize_join_valid (toks : list string) :
  Forall valid_token toks → Boolean.tokenize (join " " toks) = toks.
Proof.
  intros Hall. unfold Boolean.tokenize. rewrite findall_join.
  - induction Hall as [|tok toks Htok _ IH]; [done|].
    by rewrite fmap_cons, standardize_valid, IH.
  - eapply Forall_impl; [done|]. apply valid_token_raw.
Qed.

Lemma to_tokens_valid (level : nat) (q : query) :
  Forall is_term (terms_of q) → Forall valid_token (to_tokens level q).
Proof.
  assert (valid_token "AND" ∧ valid_token "OR" ∧ valid_token "NOT"
          ∧ valid_token "(" ∧ valid_token ")") as (HA & HO & HN & HL & HR).
  { unfold valid_token. repeat split; set_solver. }
  revert level. induction q as [t|q IH|l IHl r IHr|l IHl r IHr];
    intros level; cbn [terms_of to_tokens]; intros Hterms.
  - rewrite Forall_singleton in Hterms. apply Forall_singleton.
    right. by right.
  - constructor; [done|]. by apply IH.
  - apply Forall_app in Hterms as [Hl Hr].
    assert (Forall valid_token (to_tokens 1 l ++ "AND" :: to_tokens 2 r)).
    { apply Forall_app. split; [by apply IHl|]. constructor; [done|by apply IHr]. }
    destruct (bool_decide _); cbn [parenthesized]; [|done].
    constructor; [done|]. apply Forall_app. split; [done|by constructor].
  - apply Forall_app in Hterms as [Hl Hr].
    assert (Forall valid_token (to_tokens 0 l ++ "OR" :: to_tokens 1 r)).
    { apply Forall_app. split; [by apply IHl|]. constructor; [done|by apply IHr]. }
    destruct (bool_decide _); cbn [parenthesized]; [|done].
    constructor; [done|]. apply Forall_app. split; [done|by constructor].
Qed.

Lemma terms_not_reserved (q : query) :
  Forall is_term (terms_of q) →
  Forall (λ t, t ≠ "NOT" ∧ t ≠ "(") (terms_of q).
Proof.
  intros Hterms. eapply Forall_impl; [done|]. intros t Ht.
  destruct (term_not_reserved t Ht) as (? & ? & _). done.
Qed.

(** X6.  A query text written from a tree of terms, NOT, AND and OR, with
    parentheses only where the grammar needs them, evaluates to the value
    of the tree: complement in [all_docs], intersection and union, NOT
    binding tighter than AND and AND tighter than OR, both operators
    grouping to the left. *)
Theorem process_boolean_query_evaluates (q : query)
    (inverted_index : gmap string (gset Z)) (all_docs : gset Z) :
  Forall is_term (terms_of q) →
  Boolean.process_boolean_query (query_text q) inverted_index all_docs
  = Ok (eval inverted_index all_docs q).
Proof.
  intros Hterms. unfold Boolean.process_boolean_query, query_text.
  rewrite tokenize_join_valid by by apply to_tokens_valid.
  rewrite parse_query_tree by by apply terms_not_reserved. done.
Qed.

Ltac solve_is_term :=
  split; [done|]; split; [by vm_compute|]; split; [by vm_compute|];
  let H := fresh in
  intros H; apply list_elem_of_In in H; vm_compute in H; intuition discriminate.

Lemma process_boolean_query_evaluates_witness :
  Forall is_term ["champions"; "real"; "barcelona"]
  ∧ Boolean.process_boolean_query "(champions OR real) AND NOT barcelona"
      example_index (Boolean.build_all_docs example_index)
    = Ok ((postings example_index "champions" ∪ postings example_index "real")
          ∩ (Boolean.build_all_docs example_index
             ∖ postings example_index "barcelona")).
Proof.
  assert (Forall is_term ["champions"; "real"; "barcelona"]) as Hterms.
  { repeat (constructor; [solve_is_term|]). constructor. }
  split; [done|].
  exact (process_boolean_query_evaluates
           (QAnd (QOr (QTerm "champions") (QTerm "real"))
                 (QNot (QTerm "barcelona")))
           example_index (Boolean.build_all_docs example_index) Hterms).
Defined.

(** ** What [tokenize] returns *)

Lemma lower_char_word (c : ascii) : isword c = true → isword (lower_char c) = true.
Proof.
  intros Hc.
  pose proof (forall_ascii (λ c, implb (isword c) (isword (lower_char c)))) as H.
  specialize (H ltac:(by vm_compute) c). cbn beta in H. by rewrite Hc in H.
Qed.

Lemma lower_char_idemp (c : ascii) : lower_char (lower_char c) = lower_char c.
Proof.
  pose proof (forall_ascii
    (λ c, bool_decide (lower_char (lower_char c) = lower_char c))) as H.
  specialize (H ltac:(by vm_compute) c). by apply bool_decide_eq_true in H.
Qed.

Lemma upper_lower_char (c : ascii) : upper_char (lower_char c) = upper_char c.
Proof.
  pose proof (forall_ascii
    (λ c, bool_decide (upper_char (lower_char c) = upper_char c))) as H.
  specialize (H ltac:(by vm_compute) c). by apply bool_decide_eq_true in H.
Qed.

Lemma is_term_lower (tok : string) :
  tok ≠ "" → all_chars isword tok = true →
  upper tok ∉ ["AND"; "OR"; "NOT"] → is_term (lower tok).
Proof.
  intros Hne Hw Hres. split; [by destruct tok|]. split; [|split].
  - clear Hne Hres. induction tok as [|c tok IH]; [done|].
    cbn in *. apply andb_prop in Hw as [Hc Hw].
    by rewrite lower_char_word, IH.
  - clear. induction tok as [|c tok IH]; [done|].
    cbn. by rewrite lower_char_idemp, IH.
  - replace (upper (lower tok)) with (upper tok); [done|].
    clear. induction tok as [|c tok IH]; [done|].
    cbn. by rewrite upper_lower_char, IH.
Qed.

Lemma standardize_raw (tok : string) :
  raw_token tok → valid_token (Boolean.standardize tok).
Proof.
  intros Hraw. unfold Boolean.standardize.
  destruct (bool_decide _) eqn:Hres.
  { left. by apply bool_decide_eq_true in Hres. }
  apply bool_decide_eq_false in Hres.
  destruct (bool_decide _) eqn:Hp.
  { right. left. by apply bool_decide_eq_true in Hp. }
  apply bool_decide_eq_false in Hp.
  destruct Hraw as [?|[Hne Hw]]; [done|].
  right. right. by apply is_term_lower.
Qed.

Lemma flush_raw (cur : string) :
  all_chars isword cur = true → Forall raw_token (Boolean.flush cur).
Proof.
  intros Hw. destruct cur as [|c cur]; [by constructor|].
  apply Forall_singleton. by right.
Qed.

Lemma findall_go_raw (cur s : string) :
  all_chars isword cur = true → Forall raw_token (Boolean.findall_go cur s).
Proof.
  revert cur. induction s as [|c s IH]; intros cur Hw; cbn [Boolean.findall_go].
  - by apply flush_raw.
  - destruct (isword c) eqn:Hc.
    + apply IH. by rewrite all_chars_app, Hw; cbn; rewrite Hc.
    + destruct (bool_decide _) eqn:Hp.
      * apply bool_decide_eq_true in Hp. apply Forall_app.
        split; [by apply flush_raw|]. constructor; [|by apply IH].
        left. destruct Hp as [-> | ->]; set_solver.
      * apply Forall_app. split; [by apply flush_raw|by apply IH].
Qed.

Lemma tokenize_valid (query : string) :
  Forall valid_token (Boolean.tokenize query).
Proof.
  unfold Boolean.tokenize, Boolean.findall. apply Forall_fmap.
  eapply Forall_impl; [by apply findall_go_raw|].
  intros tok. apply standardize_raw.
Qed.

(** X7.  For every query text of code points below 256, every token
    [tokenize] returns is one of the operators AND, OR and NOT in upper
    case, a parenthesis, or a word in lower case that is no operator; and
    reading the tokens again, joined by spaces, gives the same tokens.
    (Beyond that range the second part fails: the lower case of U+0130 is
    "i" followed by U+0307, which is no word character.) *)
Theorem tokenize_normalizes (query : string) :
  Forall valid_token (Boolean.tokenize query)
  ∧ Boolean.tokenize (join " " (Boolean.tokenize query))
    = Boolean.tokenize query.
Proof.
  split; [apply tokenize_valid|]. apply tokenize_join_valid, tokenize_valid.
Qed.

(** ** A parenthesis that is not closed *)

Lemma parse_or_unclosed (q : query) (post : list string)
    (inverted_index : gmap string (gset Z)) (all_docs : gset Z) (fuel : nat) :
  Forall (λ t, t ≠ "NOT" ∧ t ≠ "(") (terms_of q) →
  head post ≠ Some "AND" → head post ≠ Some "OR" → head post ≠ Some ")" →
  within (Boolean.parse_or ("(" :: to_tokens 0 q ++ post) inverted_index
            all_docs fuel 0)
    (Raise (Exception ("Expected token ')', got '"
                       +:+ default "None" (head post) +:+ "'"))).
Proof.
  intros Hterms Hand Hor Hclose.
  destruct fuel as [|fuel]; [by left|]. rewrite parse_or_unfold.
  apply within_bind_raise.
  destruct fuel as [|fuel]; [by left|]. rewrite parse_and_unfold.
  apply within_bind_raise.
  destruct fuel as [|fuel]; [by left|]. rewrite parse_not_other by done.
  destruct fuel as [|fuel]; [by left|]. rewrite parse_primary_paren by done.
  eapply within_bind.
  - by apply (parse_or_tree_at _ _ _ q 1 post).
  - cbn beta iota. right.
    assert (("(" :: to_tokens 0 q ++ post) !! (1 + length (to_tokens 0 q))%nat
            = head post) as Hnext.
    { change (1 + length (to_tokens 0 q))%nat with (S (length (to_tokens 0 q))).
      rewrite lookup_cons, lookup_app_r, Nat.sub_diag by done. by destruct post. }
    rewrite eat_mismatch by by rewrite Hnext.
    by rewrite Hnext.
Qed.

(** X8.  A parenthesis opened before a query and not closed is reported: when
    the text that follows the query does not start with [)], AND or OR, the
    parser raises the exception of [eat], which names the token found in
    place of the parenthesis, [None] at the end of the text. *)
Theorem unclosed_parenthesis_is_reported (q : query) (post : list string)
    (inverted_index : gmap string (gset Z)) (all_docs : gset Z) :
  Forall is_term (terms_of q) → Forall valid_token post →
  head post ∉ [Some "AND"; Some "OR"; Some ")"] →
  Boolean.process_boolean_query (join " " ("(" :: to_tokens 0 q ++ post))
    inverted_index all_docs
  = Raise (Exception ("Expected token ')', got '"
                      +:+ default "None" (head post) +:+ "'")).
Proof.
  intros Hterms Hpost Hhead. unfold Boolean.process_boolean_query.
  rewrite tokenize_join_valid.
  2:{ constructor; [right; left; set_solver|].
      apply Forall_app. split; [by apply to_tokens_valid|done]. }
  unfold Boolean.parse_query.
  assert (head post ≠ Some "AND" ∧ head post ≠ Some "OR"
          ∧ head post ≠ Some ")") as (Hand & Hor & Hclose) by set_solver.
  pose proof (parse_or_unclosed q post inverted_index all_docs
                (Boolean.parse_fuel ("(" :: to_tokens 0 q ++ post))
                (terms_not_reserved q Hterms) Hand Hor Hclose) as Hw.
  apply within_total in Hw; [by rewrite Hw|].
  destruct (parser_fuel ("(" :: to_tokens 0 q ++ post) inverted_index all_docs
              (Boolean.parse_fuel ("(" :: to_tokens 0 q ++ post)) 0)
    as (_ & _ & _ & _ & _ & Ho).
  specialize (Ho ltac:(unfold Boolean.parse_fuel; lia)).
  by destruct (Boolean.parse_or _ _ _ _ _) as [[r i]| |].
Qed.

Lemma unclosed_parenthesis_is_reported_witness :
  Forall is_term ["real"; "madrid"] ∧ Forall valid_token ["barcelona"]
  ∧ Boolean.process_boolean_query "( real AND madrid barcelona" example_index ∅
    = Raise (Exception "Expected token ')', got 'barcelona'").
Proof.
  assert (Forall is_term ["real"; "madrid"]) as Hterms.
  { repeat (constructor; [solve_is_term|]). constructor. }
  assert (Forall valid_token ["barcelona"]) as Hpost.
  { constructor; [|constructor]. right. right. solve_is_term. }
  split; [done|]. split; [done|].
  apply (unclosed_parenthesis_is_reported
           (QAnd (QTerm "real") (QTerm "madrid")) ["barcelona"]
           example_index ∅ Hterms Hpost).
  cbn [head]. intros Hin. apply list_elem_of_In in Hin. vm_compute in Hin.
  intuition discriminate.
Defined.

(** ** The result lies in the collection *)

Section parser_within.
Context (tokens : list string) (inverted_index : gmap string (gset Z))
        (all_docs : gset Z).
Hypothesis Hall : ∀ t, postings inverted_index t ⊆ all_docs.
Abbreviation within_docs := (result_within all_docs).

Lemma parser_within (fuel : nat) :
  ∀ index,
    within_docs (Boolean.parse_primary tokens inverted_index all_docs fuel index)
    ∧ within_docs (Boolean.parse_not tokens inverted_index all_docs fuel index)
    ∧ (∀ result, result ⊆ all_docs →
         within_docs (Boolean.parse_and_loop tokens inverted_index all_docs
                        fuel result index))
    ∧ within_docs (Boolean.parse_and tokens inverted_index all_docs fuel index)
    ∧ (∀ result, result ⊆ all_docs →
         within_docs (Boolean.parse_or_loop tokens inverted_index all_docs
                        fuel result index))
    ∧ within_docs (Boolean.parse_or tokens inverted_index all_docs fuel index).
Proof.
  induction fuel as [|fuel IH]; intros index; [done|].
  split; [|split; [|split; [|split; [|split]]]].
  - destruct (decide (tokens !! index = Some "(")) as [Ht|Ht].
    + rewrite parse_primary_paren by done.
      destruct (IH (S index)) as (_ & _ & _ & _ & _ & Ho).
      destruct (Boolean.parse_or _ _ _ fuel (S index)) as [[r i']| |];
        cbn in *; [|done..].
      unfold Boolean.eat. by destruct (decide _).
    + cbn. unfold Boolean.current_token. rewrite decide_False by done.
      cbn. destruct (tokens !! index) as [t|]; cbn; [apply Hall|set_solver].
  - destruct (decide (tokens !! index = Some "NOT")) as [Ht|Ht].
    + rewrite parse_not_NOT by done.
      destruct (Boolean.parse_not _ _ _ fuel (S index)) as [[r i']| |];
        cbn; [set_solver|done..].
    + rewrite parse_not_other by done. apply IH.
  - intros result Hres.
    destruct (decide (tokens !! index = Some "AND")) as [Ht|Ht].
    + rewrite parse_and_loop_AND by done.
      destruct (Boolean.parse_not _ _ _ fuel (S index)) as [[r i']| |];
        cbn; [|done..].
      destruct (IH i') as (_ & _ & Hal & _). apply Hal. set_solver.
    + rewrite parse_and_loop_stop by done. done.
  - rewrite parse_and_unfold. destruct (IH index) as (_ & Hn & _).
    destruct (Boolean.parse_not _ _ _ fuel index) as [[r i']| |];
      cbn in *; [|done..].
    destruct (IH i') as (_ & _ & Hal & _). by apply Hal.
  - intros result Hres.
    destruct (decide (tokens !! index = Some "OR")) as [Ht|Ht].
    + rewrite parse_or_loop_OR by done.
      destruct (IH (S index)) as (_ & _ & _ & Ha & _).
      destruct (Boolean.parse_and _ _ _ fuel (S index)) as [[r i']| |];
        cbn in *; [|done..].
      destruct (IH i') as (_ & _ & _ & _ & Hol & _). apply Hol. set_solver.
    + rewrite parse_or_loop_stop by done. done.
  - rewrite parse_or_unfold. destruct (IH index) as (_ & _ & _ & Ha & _).
    destruct (Boolean.parse_and _ _ _ fuel index) as [[r i']| |];
      cbn in *; [|done..].
    destruct (IH i') as (_ & _ & _ & _ & Hol & _). by apply Hol.
Qed.

End parser_within.

(** X9.  Whatever the query text, well formed or not, the documents a
    Boolean query returns are documents of the index, when [all_docs] is the
    set [build_all_docs] makes of it. *)
Theorem boolean_result_within_collection (query : string)
    (inverted_index : gmap string (gset Z)) (result : gset Z) :
  Boolean.process_boolean_query query inverted_index
    (Boolean.build_all_docs inverted_index) = Ok result →
  ∀ d, d ∈ result →
    ∃ term docs, inverted_index !! term = Some docs ∧ d ∈ docs.
Proof.
  unfold Boolean.process_boolean_query, Boolean.parse_query. intros Hres d Hd.
  apply build_all_docs_spec.
  destruct (parser_within (Boolean.tokenize query) inverted_index
              (Boolean.build_all_docs inverted_index)
              (postings_subseteq_all_docs inverted_index)
              (Boolean.parse_fuel (Boolean.tokenize query)) 0)
    as (_ & _ & _ & _ & _ & Ho).
  destruct (Boolean.parse_or _ _ _ _ _) as [[r i]| |]; [|done..].
  cbn in Hres, Ho. injection Hres as ->. by apply Ho.
Qed.

Lemma boolean_result_within_collection_witness :
  Boolean.process_boolean_query "NOT real OR" example_index
    (Boolean.build_all_docs example_index) = Ok {[2]}
  ∧ ∀ d, d ∈ ({[2]} : gset Z) →
      ∃ term docs, example_index !! term = Some docs ∧ d ∈ docs.
Proof.
  assert (Boolean.process_boolean_query "NOT real OR" example_index
            (Boolean.build_all_docs example_index) = Ok {[2]}) as Hres.
  { by vm_compute. }
  split; [done|].
  exact (boolean_result_within_collection _ _ _ Hres).
Defined.

(** * Building the term index (inverted_index.py) *)

Lemma add_token_lookup (doc_id : Z) (token t : string)
    (inverted_index : gmap string (gset Z)) :
  InvertedIndex.add_token doc_id token inverted_index !! t
  = if decide (t = token) then Some (postings inverted_index token ∪ {[doc_id]})
    else inverted_index !! t.
Proof.
  unfold InvertedIndex.add_token, postings.
  destruct (decide (t = token)) as [->|Hne].
  - rewrite lookup_alter_eq. destruct (inverted_index !! token) as [docs|] eqn:Hl.
    + rewrite decide_False by congruence. by rewrite Hl.
    + rewrite decide_True by done. by rewrite lookup_insert_eq.
  - rewrite lookup_alter_ne by done. destruct (decide _); [|done].
    by rewrite lookup_insert_ne.
Qed.

Lemma add_tokens_lookup (doc_id : Z) (tokens : gset string) (t : string)
    (inverted_index : gmap string (gset Z)) :
  set_fold (InvertedIndex.add_token doc_id) inverted_index tokens !! t
  = if decide (t ∈ tokens) then Some (postings inverted_index t ∪ {[doc_id]})
    else inverted_index !! t.
Proof.
  assert ((t ∈ tokens →
           set_fold (InvertedIndex.add_token doc_id) inverted_index tokens !! t
           = Some (postings inverted_index t ∪ {[doc_id]}))
          ∧ (t ∉ tokens →
             set_fold (InvertedIndex.add_token doc_id) inverted_index tokens !! t
             = inverted_index !! t)) as [Hin Hout].
  { apply (set_fold_ind_L (λ (acc : gmap string (gset Z)) (X : gset string),
      (t ∈ X → acc !! t = Some (postings inverted_index t ∪ {[doc_id]}))
      ∧ (t ∉ X → acc !! t = inverted_index !! t))).
    - split; [set_solver|done].
    - intros x X r Hx [IH1 IH2]. rewrite add_token_lookup.
      destruct (decide (t = x)) as [->|Hne].
      + split; [|set_solver]. intros _. unfold postings. by rewrite IH2.
      + split; intros Ht; [apply IH1|apply IH2]; set_solver. }
  destruct (decide (t ∈ tokens)); auto.
Qed.

(** The state of the loop of [build_inverted_index] after the files
    [documents]. *)
Lemma build_state_spec (documents : list (string * list string)) :
  let state :=
    foldl InvertedIndex.index_document (InvertedIndex.BuildState ∅ ∅ ∅ 0)
      documents in
  InvertedIndex.doc_count_of state = Z.of_nat (length documents)
  ∧ (∀ t d, d ∈ postings (InvertedIndex.inverted_index_of state) t
            ↔ ∃ i filename tokens, d = Z.of_nat i
                ∧ documents !! i = Some (filename, tokens) ∧ t ∈ tokens)
  ∧ (∀ t docs, InvertedIndex.inverted_index_of state !! t = Some docs → docs ≠ ∅)
  ∧ (∀ d filename, InvertedIndex.doc_id_map_of state !! d = Some filename
       ↔ ∃ i tokens, d = Z.of_nat i ∧ documents !! i = Some (filename, tokens))
  ∧ (∀ d n, InvertedIndex.doc_distinct_word_counts_of state !! d = Some n
       ↔ ∃ i filename tokens, d = Z.of_nat i
           ∧ documents !! i = Some (filename, tokens)
           ∧ n = Z.of_nat (size (list_to_set tokens : gset string))).
Proof.
  induction documents as [|[filename tokens] documents IH] using rev_ind.
  { cbn. split; [done|]. split; [|split; [|split]].
    - intros t d. unfold postings. rewrite lookup_empty. cbn.
      split; [set_solver|]. by intros (i & ? & ? & _ & ? & _).
    - intros t docs. by rewrite lookup_empty.
    - intros d f. rewrite lookup_empty. split; [done|].
      by intros (i & ? & _ & ?).
    - intros d n. rewrite lookup_empty. split; [done|].
      by intros (i & ? & ? & _ & ? & _). }
  rewrite foldl_app. cbn [foldl].
  destruct IH as (Hcount & Hpost & Hne & Hmap & Hcounts).
  set (state := foldl InvertedIndex.index_document _ documents) in *.
  cbn zeta. unfold InvertedIndex.index_document.
  cbn [InvertedIndex.doc_count_of InvertedIndex.inverted_index_of
       InvertedIndex.doc_id_map_of InvertedIndex.doc_distinct_word_counts_of].
  rewrite Hcount. split; [rewrite length_app; cbn; lia|].
  split; [|split; [|split]].
  - intros t d. unfold postings at 1. rewrite add_tokens_lookup.
    destruct (decide (t ∈ _)) as [Ht|Ht].
    + cbn [default from_option id].
      rewrite elem_of_list_to_set in Ht. rewrite elem_of_union, Hpost.
      rewrite elem_of_singleton. split.
      * intros [(i & f & ts & -> & Hi & Hin)| ->].
        -- exists i, f, ts. split; [done|]. split; [|done].
           by apply lookup_app_l_Some.
        -- exists (length documents), filename, tokens. split; [done|].
           split; [|done]. by rewrite lookup_app_r, Nat.sub_diag.
      * intros (i & f & ts & -> & Hi & Hin).
        apply lookup_snoc_Some in Hi as [[Hlt Hi]|[-> _]]; [|by right].
        left. by exists i, f, ts.
    + rewrite elem_of_list_to_set in Ht.
      fold (postings (InvertedIndex.inverted_index_of state) t).
      rewrite Hpost. split.
      * intros (i & f & ts & -> & Hi & Hin). exists i, f, ts.
        split; [done|]. split; [|done]. by apply lookup_app_l_Some.
      * intros (i & f & ts & -> & Hi & Hin).
        apply lookup_snoc_Some in Hi as [[Hlt Hi]|[-> Heq]].
        -- by exists i, f, ts.
        -- by injection Heq as <- <-.
  - intros t docs. rewrite add_tokens_lookup.
    destruct (decide _); [|apply Hne]. intros [= <-]. set_solver.
  - intros d f. rewrite lookup_insert_Some, Hmap. split.
    + intros [[<- <-]|[Hd (i & ts & -> & Hi)]].
      * exists (length documents), tokens. split; [done|].
        by rewrite lookup_app_r, Nat.sub_diag.
      * exists i, ts. split; [done|]. by apply lookup_app_l_Some.
    + intros (i & ts & -> & Hi).
      apply lookup_snoc_Some in Hi as [[Hlt Hi]|[-> Heq]].
      * right. split; [lia|]. by exists i, ts.
      * left. by injection Heq as <- <-.
  - intros d n. rewrite lookup_insert_Some, Hcounts. split.
    + intros [[<- <-]|[Hd (i & f & ts & -> & Hi & ->)]].
      * exists (length documents), filename, tokens. split; [done|].
        split; [|done]. by rewrite lookup_app_r, Nat.sub_diag.
      * exists i, f, ts. split; [done|]. split; [|done].
        by apply lookup_app_l_Some.
    + intros (i & f & ts & -> & Hi & ->).
      apply lookup_snoc_Some in Hi as [[Hlt Hi]|[-> Heq]].
      * right. split; [lia|]. by exists i, f, ts.
      * left. by injection Heq as <- <-.
Qed.

(** X11.  [build_inverted_index] numbers the files from 0 in the order of
    the listing; the posting set of a term holds exactly the documents whose
    tokens have the term, and no term of the index has an empty posting
    set; the map of the document ids gives each number its file name, and
    the count kept for a document is the number of its distinct tokens. *)
Theorem build_inverted_index_postings (documents : list (string * list string)) :
  let inverted_index := (InvertedIndex.build_inverted_index documents).1.1 in
  let doc_id_map := (InvertedIndex.build_inverted_index documents).1.2 in
  let doc_distinct_word_counts := (InvertedIndex.build_inverted_index documents).2 in
  (∀ t d, d ∈ postings inverted_index t
          ↔ ∃ i filename tokens, d = Z.of_nat i
              ∧ documents !! i = Some (filename, tokens) ∧ t ∈ tokens)
  ∧ (∀ t docs, inverted_index !! t = Some docs → docs ≠ ∅)
  ∧ (∀ d filename, doc_id_map !! d = Some filename
       ↔ ∃ i tokens, d = Z.of_nat i ∧ documents !! i = Some (filename, tokens))
  ∧ (∀ d n, doc_distinct_word_counts !! d = Some n
       ↔ ∃ i filename tokens, d = Z.of_nat i
           ∧ documents !! i = Some (filename, tokens)
           ∧ n = Z.of_nat (size (list_to_set tokens : gset string))).
Proof.
  destruct (build_state_spec documents) as (_ & Hpost & Hne & Hmap & Hcounts).
  unfold InvertedIndex.build_inverted_index. cbn [fst snd]. done.
Qed.

(** * The file of the term index and its readers *)

Abbreviation no_line_break := (all_chars (λ c, bool_decide (c ≠ LF ∧ c ≠ CR))).

Lemma str_no_line_break (n : Z) : no_line_break (str n) = true.
Proof.
  assert (∀ m, 0 ≤ m → no_line_break (str m) = true) as Hpos.
  { intros m Hm. destruct (str_nonneg_spec m Hm) as (_ & Hd & _).
    eapply all_chars_weaken; [|exact Hd]. intros c Hc.
    apply bool_decide_eq_true.
    by destruct (decimal_not_special c Hc) as (_ & _ & _ & ? & ?). }
  destruct (decide (0 ≤ n)) as [Hn|Hn]; [by apply Hpos|].
  specialize (Hpos (- n) ltac:(lia)). unfold str in *.
  rewrite (proj2 (Z.ltb_lt n 0)) by lia.
  rewrite (proj2 (Z.ltb_ge (- n) 0)) in Hpos by lia.
  cbn [all_chars]. by rewrite Hpos.
Qed.

(** The lines of the file [save_inverted_index] writes, one for each term
    in the order of the terms. *)
Lemma saved_index_lines (inverted_index : gmap string (gset Z)) :
  (∀ term docs, inverted_index !! term = Some docs → no_line_break term = true) →
  readlines (InvertedIndex.save_inverted_index inverted_index)
  = (λ '(term, docs), index_line term (merge_sort Z.le (elements docs)))
    <$> merge_sort InvertedIndex.item_le (map_to_list inverted_index).
Proof.
  intros Hterms. rewrite save_inverted_index_lines.
  set (pairs := merge_sort InvertedIndex.item_le (map_to_list inverted_index)).
  assert (∀ term docs, (term, docs) ∈ pairs → inverted_index !! term = Some docs)
    as Hpairs.
  { intros term docs. unfold pairs. rewrite merge_sort_Permutation.
    apply elem_of_map_to_list. }
  set (body := (λ '(term, docs),
    let ids := merge_sort Z.le (elements docs) in
    term +:+ " " +:+ str (len ids) +:+ " " +:+ join "," (str <$> ids))
    : string * gset Z → string).
  assert (∀ p, (let '(term, docs) := p in
                index_line term (merge_sort Z.le (elements docs)))
               = body p +:+ nl) as Hbody.
  { intros [term docs]. unfold body, index_line. by rewrite !append_assoc. }
  assert (foldr (λ '(term, docs) rest,
                   index_line term (merge_sort Z.le (elements docs)) +:+ rest)
                "" pairs
          = foldr (λ w rest, (w +:+ nl) +:+ rest) "" (body <$> pairs)) as ->.
  { clear. induction pairs as [|[term docs] l IH]; [done|].
    cbn [foldr fmap list_fmap]. rewrite IH. f_equal.
    unfold body, index_line. by rewrite !append_assoc. }
  rewrite readlines_lines.
  - rewrite <-list_fmap_compose. apply list_fmap_ext.
    intros ? p _. unfold compose. by rewrite <-(Hbody p).
  - apply Forall_fmap, Forall_forall. intros [term docs] Hin.
    unfold compose, body. cbn zeta.
    rewrite !all_chars_app, (Hterms term docs) by by apply Hpairs.
    rewrite str_no_line_break. cbn [all_chars andb].
    apply all_chars_join; [done|]. apply Forall_fmap, Forall_forall.
    intros d _. apply str_no_line_break.
Qed.

Lemma well_formed_no_line_break (inverted_index : gmap string (gset Z))
    (term : string) (docs : gset Z) :
  well_formed_index inverted_index → inverted_index !! term = Some docs →
  no_line_break term = true.
Proof.
  intros Hwf Hl. destruct (Hwf term docs Hl) as (_ & H2 & _).
  eapply all_chars_weaken; [|exact H2]. intros c Hc.
  apply bool_decide_eq_true. split; intros ->; by vm_compute in Hc.
Qed.

Lemma sorted_pairs_spec (inverted_index : gmap string (gset Z)) :
  let pairs := merge_sort InvertedIndex.item_le (map_to_list inverted_index) in
  (∀ term docs, (term, docs) ∈ pairs ↔ inverted_index !! term = Some docs)
  ∧ NoDup (pairs.*1) ∧ StronglySorted String.le (pairs.*1)
  ∧ length pairs = size inverted_index.
Proof.
  intros pairs.
  assert (pairs ≡ₚ map_to_list inverted_index) as Hperm
    by apply merge_sort_Permutation.
  split; [|split; [|split]].
  - intros term docs. rewrite Hperm. apply elem_of_map_to_list.
  - rewrite Hperm. apply NoDup_fst_map_to_list.
  - apply (StronglySorted_fmap fst InvertedIndex.item_le); [done|].
    apply StronglySorted_merge_sort; apply _.
  - rewrite Hperm. apply length_map_to_list.
Qed.

(** Loading lines made from [items] runs the body on each. *)
Lemma for_each_lines {S I} (body : S → string → outcome S) (step : S → I → S)
    (line_of : I → string) (items : list I) (acc : S) :
  (∀ acc item, item ∈ items → body acc (line_of item) = Ok (step acc item)) →
  for_each body acc (line_of <$> items) = Ok (foldl step acc items).
Proof.
  revert acc. induction items as [|item items IH]; intros acc Hbody; [done|].
  cbn [fmap list_fmap for_each foldl].
  rewrite Hbody by apply list_elem_of_here. cbn [mbind outcome_bind].
  apply IH. intros acc' item' Hin. apply Hbody. by apply list_elem_of_further.
Qed.

Lemma foldl_insert_pairs (inverted_index : gmap string (gset Z)) :
  foldl (λ m '(term, docs), <[term := docs]> m) ∅
        (merge_sort InvertedIndex.item_le (map_to_list inverted_index))
  = inverted_index.
Proof.
  destruct (sorted_pairs_spec inverted_index) as (Hpairs & Hnd & _).
  apply map_eq. intros term. apply option_eq. intros docs.
  rewrite foldl_insert_lookup by done. rewrite Hpairs, lookup_empty.
  split; [by intros [?|[_ ?]]|auto].
Qed.

Lemma load_saved_index (inverted_index : gmap string (gset Z)) :
  well_formed_index inverted_index →
  Boolean.load_inverted_index (InvertedIndex.save_inverted_index inverted_index)
  = Ok inverted_index.
Proof.
  intros Hwf. unfold Boolean.load_inverted_index.
  rewrite saved_index_lines by (intros; by eapply well_formed_no_line_break).
  rewrite load_index_lines; [by rewrite foldl_insert_pairs|].
  destruct (sorted_pairs_spec inverted_index) as (Hpairs & _).
  apply Forall_forall. intros [term docs] Hin. by apply Hwf, Hpairs.
Qed.

Lemma built_index_well_formed (documents : list (string * list string)) :
  (∀ filename tokens token,
     (filename, tokens) ∈ documents → token ∈ tokens →
     token ≠ "" ∧ all_chars (λ c, negb (isspace c)) token = true) →
  well_formed_index (InvertedIndex.build_inverted_index documents).1.1.
Proof.
  intros Htokens term docs Hl.
  destruct (build_state_spec documents) as (_ & Hpost & Hne & _).
  unfold InvertedIndex.build_inverted_index in Hl. cbn [fst snd] in Hl.
  pose proof (Hne term docs Hl) as Hdocs.
  assert (∀ d, d ∈ docs → ∃ i filename tokens, d = Z.of_nat i
            ∧ documents !! i = Some (filename, tokens) ∧ term ∈ tokens) as Hd.
  { intros d Hd. apply Hpost. unfold postings. by rewrite Hl. }
  assert (∃ d, d ∈ docs) as [d0 Hd0].
  { apply set_choose_L. done. }
  destruct (Hd d0 Hd0) as (i & filename & tokens & _ & Hi & Hin).
  destruct (Htokens filename tokens term) as [H1 H2];
    [by eapply list_elem_of_lookup_2|done|].
  split; [done|]. split; [done|]. split; [done|].
  intros d [j [? [? [-> _]]]]%Hd. lia.
Qed.

(** X12.  The index [build_inverted_index] makes of documents whose tokens
    are nonempty and without white space can be written by
    [save_inverted_index] and read back: the loader returns the same
    index. *)
Theorem built_index_is_saved_and_loaded (documents : list (string * list string)) :
  (∀ filename tokens token,
     (filename, tokens) ∈ documents → token ∈ tokens →
     token ≠ "" ∧ all_chars (λ c, negb (isspace c)) token = true) →
  let inverted_index := (InvertedIndex.build_inverted_index documents).1.1 in
  Boolean.load_inverted_index (InvertedIndex.save_inverted_index inverted_index)
  = Ok inverted_index.
Proof.
  intros Htokens inverted_index. by apply load_saved_index, built_index_well_formed.
Qed.

Lemma built_index_is_saved_and_loaded_witness :
  let documents :=
    [("page_1.html", ["real"; "madrid"; "real"]); ("page_2.html", ["madrid"])] in
  let inverted_index := (InvertedIndex.build_inverted_index documents).1.1 in
  Boolean.load_inverted_index (InvertedIndex.save_inverted_index inverted_index)
  = Ok inverted_index.
Proof.
  intros documents. apply (built_index_is_saved_and_loaded documents).
  intros filename tokens token Hdoc Htoken.
  apply list_elem_of_In in Hdoc. cbn in Hdoc.
  destruct Hdoc as [[= <- <-]|[[= <- <-]|[]]];
    apply list_elem_of_In in Htoken; cbn in Htoken;
    repeat (destruct Htoken as [<-|Htoken]; [by split|]); done.
Defined.

(** X13.  [count_terms] counts the terms: on the file [save_inverted_index]
    writes for an index whose terms have no line break, it returns the
    number of terms of the index; and 0 when there is no file. *)
Theorem count_terms_of_saved_index (inverted_index : gmap string (gset Z)) :
  (∀ term docs, inverted_index !! term = Some docs → no_line_break term = true) →
  CompareIndexes.count_terms
    (Some (InvertedIndex.save_inverted_index inverted_index))
  = Z.of_nat (size inverted_index)
  ∧ CompareIndexes.count_terms None = 0.
Proof.
  intros Hterms. split; [|done]. unfold CompareIndexes.count_terms, len.
  rewrite saved_index_lines, length_fmap by done.
  by destruct (sorted_pairs_spec inverted_index) as (_ & _ & _ & ->).
Qed.

Lemma count_terms_of_saved_index_witness :
  CompareIndexes.count_terms (Some (InvertedIndex.save_inverted_index example_index))
  = Z.of_nat (size example_index).
Proof.
  apply (count_terms_of_saved_index example_index).
  intros term docs Hl. unfold example_index in Hl.
  repeat (apply lookup_insert_Some in Hl as [[<- _]|[_ Hl]]; [by vm_compute|]).
  apply lookup_singleton_Some in Hl as [<- _]. by vm_compute.
Defined.

(** The fields the readers find on a line of the file. *)
Lemma index_line_fields (term : string) (ids : list Z) :
  term ≠ "" → all_chars (λ c, negb (isspace c)) term = true →
  ids ≠ [] → Forall (λ d, 0 ≤ d) ids →
  split (strip (index_line term ids))
  = [term; str (len ids); join "," (str <$> ids)]
  ∧ int (str (len ids)) = Ok (len ids)
  ∧ map_outcome int (split_on ","%char (join "," (str <$> ids))) = Ok ids.
Proof.
  intros Hterm Hspace Hne Hall.
  destruct (postings_text_spec ids Hne Hall) as (Ht1 & Ht2 & _ & Ht4 & Ht5).
  assert (0 ≤ len ids) as Hlen by (unfold len; lia).
  destruct (str_nonneg_spec _ Hlen) as (Hd1 & Hd2 & _).
  pose proof (all_chars_weaken _ _ _ decimal_not_space Hd2) as Hd3.
  split; [|split].
  - unfold index_line. rewrite split_strip.
    by apply split_three_fields.
  - by apply int_str.
  - rewrite Ht4. by apply map_outcome_int_str.
Qed.

Lemma index_loader_line (acc : gmap string (gset Z)) (term : string) (docs : gset Z) :
  term ≠ "" → all_chars (λ c, negb (isspace c)) term = true →
  docs ≠ ∅ → (∀ d, d ∈ docs → 0 ≤ d) →
  let line := index_line term (merge_sort Z.le (elements docs)) in
  NgramJaccardCorrection.load_index_line acc line = Ok (<[term := docs]> acc)
  ∧ SpellingCorrectionEdit.load_index_line acc line = Ok (<[term := docs]> acc).
Proof.
  intros Hterm Hspace Hne Hpos line.
  destruct (sorted_ids_spec docs Hne Hpos) as (Hi1 & Hi2 & Hi3 & _).
  destruct (index_line_fields term _ Hterm Hspace Hi1 Hi2) as (Hf & _ & Hids).
  unfold NgramJaccardCorrection.load_index_line,
    SpellingCorrectionEdit.load_index_line, line.
  rewrite Hf. cbn [getitem lookup list_lookup length].
  rewrite bool_decide_eq_true_2 by lia. cbn [mbind outcome_bind].
  rewrite Hids. cbn [mbind outcome_bind]. by rewrite Hi3.
Qed.

Lemma vocabulary_loader_line (acc : list (string * Z)) (term : string)
    (docs : gset Z) :
  term ≠ "" → all_chars (λ c, negb (isspace c)) term = true →
  docs ≠ ∅ → (∀ d, d ∈ docs → 0 ≤ d) →
  let line := index_line term (merge_sort Z.le (elements docs)) in
  NgramJaccardCorrection.load_line acc line
  = Ok (dict_set acc term (Z.of_nat (size docs)))
  ∧ SpellingCorrectionEdit.load_line acc line
    = Ok (dict_set acc term (Z.of_nat (size docs))).
Proof.
  intros Hterm Hspace Hne Hpos line.
  destruct (sorted_ids_spec docs Hne Hpos) as (Hi1 & Hi2 & Hi3 & _).
  destruct (index_line_fields term _ Hterm Hspace Hi1 Hi2) as (Hf & Hdf & _).
  assert (len (merge_sort Z.le (elements docs)) = Z.of_nat (size docs)) as Hlen.
  { unfold len. f_equal. apply Permutation_length, merge_sort_Permutation. }
  unfold NgramJaccardCorrection.load_line, SpellingCorrectionEdit.load_line, line.
  rewrite Hf. cbn [getitem lookup list_lookup]. cbn [mbind outcome_bind].
  rewrite Hdf. cbn [mbind outcome_bind]. by rewrite Hlen.
Qed.

Lemma dict_set_fresh {V} (d : list (string * V)) (k : string) (v : V) :
  k ∉ d.*1 → dict_set d k v = d ++ [(k, v)].
Proof.
  induction d as [|[k' v'] d IH]; intros Hk; [done|].
  cbn [fmap list_fmap fst] in Hk. apply not_elem_of_cons in Hk as [Hne Hk].
  cbn [dict_set]. rewrite decide_False by done. by rewrite IH.
Qed.

Lemma foldl_dict_set {V W} (f : W → V) (items : list (string * W))
    (acc : list (string * V)) :
  NoDup (acc.*1 ++ items.*1) →
  foldl (λ d '(k, w), dict_set d k (f w)) acc items
  = acc ++ ((λ '(k, w), (k, f w)) <$> items).
Proof.
  revert acc. induction items as [|[k w] items IH]; intros acc Hnd.
  - by rewrite app_nil_r.
  - cbn [foldl fmap list_fmap fst] in *.
    pose proof Hnd as Hnd'. apply NoDup_app in Hnd' as (_ & Hdisj & _).
    rewrite dict_set_fresh.
    2:{ intros Hin. apply (Hdisj k Hin). apply list_elem_of_here. }
    rewrite IH, <-app_assoc; [done|].
    rewrite fmap_app, <-app_assoc. done.
Qed.

(** X14.  The index loaders of the two spelling programs read the file
    [save_inverted_index] writes back into the same index, for an index of
    nonempty terms without white space and nonempty sets of non-negative
    document ids. *)
Theorem spelling_loaders_read_saved_index (inverted_index : gmap string (gset Z)) :
  well_formed_index inverted_index →
  let content := InvertedIndex.save_inverted_index inverted_index in
  NgramJaccardCorrection.load_inverted_index content = Ok inverted_index
  ∧ SpellingCorrectionEdit.load_inverted_index content = Ok inverted_index.
Proof.
  intros Hwf content.
  unfold NgramJaccardCorrection.load_inverted_index,
    SpellingCorrectionEdit.load_inverted_index, content.
  rewrite saved_index_lines by (intros; by eapply well_formed_no_line_break).
  destruct (sorted_pairs_spec inverted_index) as (Hpairs & _).
  split.
  - rewrite (for_each_lines _ (λ m '(term, docs), <[term := docs]> m)).
    + by rewrite foldl_insert_pairs.
    + intros acc [term docs] Hin.
      destruct (Hwf term docs) as (H1 & H2 & H3 & H4); [by apply Hpairs|].
      by destruct (index_loader_line acc term docs H1 H2 H3 H4) as [-> _].
  - rewrite (for_each_lines _ (λ m '(term, docs), <[term := docs]> m)).
    + by rewrite foldl_insert_pairs.
    + intros acc [term docs] Hin.
      destruct (Hwf term docs) as (H1 & H2 & H3 & H4); [by apply Hpairs|].
      by destruct (index_loader_line acc term docs H1 H2 H3 H4) as [_ ->].
Qed.

Lemma spelling_loaders_read_saved_index_witness :
  let inverted_index : gmap string (gset Z) :=
    {[ "real" := {[0; 1]}; "madrid" := {[0; 1; 12]} ]} in
  NgramJaccardCorrection.load_inverted_index
    (InvertedIndex.save_inverted_index inverted_index) = Ok inverted_index.
Proof.
  intros inverted_index.
  apply (spelling_loaders_read_saved_index inverted_index
           well_formed_index_example).
Defined.

(** X15.  The vocabulary the two spelling programs load from the file
    [save_inverted_index] writes has the terms of the index, each once and
    in the order of the file, ascending; the frequency of a term is the size
    of its posting set. *)
Theorem vocabulary_of_saved_index (inverted_index : gmap string (gset Z)) :
  well_formed_index inverted_index →
  let content := InvertedIndex.save_inverted_index inverted_index in
  ∃ vocabulary,
    NgramJaccardCorrection.load_vocabulary_with_frequency content = Ok vocabulary
    ∧ SpellingCorrectionEdit.load_vocabulary_with_frequency content = Ok vocabulary
    ∧ StronglySorted String.le (vocabulary.*1) ∧ NoDup (vocabulary.*1)
    ∧ ∀ term df, (term, df) ∈ vocabulary
        ↔ ∃ docs, inverted_index !! term = Some docs ∧ df = Z.of_nat (size docs).
Proof.
  intros Hwf content.
  set (pairs := merge_sort InvertedIndex.item_le (map_to_list inverted_index)).
  destruct (sorted_pairs_spec inverted_index) as (Hpairs & Hnd & Hsorted & _).
  fold pairs in Hpairs, Hnd, Hsorted.
  exists ((λ '(term, docs), (term, Z.of_nat (size docs))) <$> pairs).
  assert (((λ '(term, docs), (term, Z.of_nat (size docs))) <$> pairs).*1
          = pairs.*1) as Hfst.
  { rewrite <-list_fmap_compose. apply list_fmap_ext. by intros ? [??] _. }
  unfold NgramJaccardCorrection.load_vocabulary_with_frequency,
    SpellingCorrectionEdit.load_vocabulary_with_frequency, content.
  rewrite saved_index_lines by (intros; by eapply well_formed_no_line_break).
  fold pairs. rewrite Hfst.
  split; [|split; [|split; [done|split; [done|]]]].
  - rewrite (for_each_lines _
      (λ d '(term, docs), dict_set d term (Z.of_nat (size docs)))).
    + by rewrite (foldl_dict_set (λ docs : gset Z, Z.of_nat (size docs))).
    + intros acc [term docs] Hin.
      destruct (Hwf term docs) as (H1 & H2 & H3 & H4); [by apply Hpairs|].
      by destruct (vocabulary_loader_line acc term docs H1 H2 H3 H4) as [-> _].
  - rewrite (for_each_lines _
      (λ d '(term, docs), dict_set d term (Z.of_nat (size docs)))).
    + by rewrite (foldl_dict_set (λ docs : gset Z, Z.of_nat (size docs))).
    + intros acc [term docs] Hin.
      destruct (Hwf term docs) as (H1 & H2 & H3 & H4); [by apply Hpairs|].
      by destruct (vocabulary_loader_line acc term docs H1 H2 H3 H4) as [_ ->].
  - intros term df. rewrite list_elem_of_fmap. split.
    + intros ([t docs] & [= -> ->] & Hin). exists docs. split; [|done].
      by apply Hpairs.
    + intros (docs & Hl & ->). exists (term, docs). split; [done|].
      by apply Hpairs.
Qed.

Lemma vocabulary_of_saved_index_witness :
  let inverted_index : gmap string (gset Z) :=
    {[ "real" := {[0; 1]}; "madrid" := {[0; 1; 12]} ]} in
  ∃ vocabulary,
    NgramJaccardCorrection.load_vocabulary_with_frequency
      (InvertedIndex.save_inverted_index inverted_index) = Ok vocabulary
    ∧ SpellingCorrectionEdit.load_vocabulary_with_frequency
        (InvertedIndex.save_inverted_index inverted_index) = Ok vocabulary
    ∧ StronglySorted String.le (vocabulary.*1) ∧ NoDup (vocabulary.*1)
    ∧ ∀ term df, (term, df) ∈ vocabulary
        ↔ ∃ docs, inverted_index !! term = Some docs ∧ df = Z.of_nat (size docs).
Proof.
  intros inverted_index.
  apply (vocabulary_of_saved_index inverted_index well_formed_index_example).
Defined.

(** * Retrieval for the alternative queries *)

Lemma ngram_intersect_loop_spec (first : string)
    (inverted_index : gmap string (gset Z)) (rest : list string) (S : gset Z) :
  S ⊆ postings inverted_index first →
  ∃ S', NgramJaccardCorrection.intersect_loop first
          (<[first := S]> inverted_index) rest
        = <[first := S']> inverted_index
        ∧ ∀ d, d ∈ S' ↔ d ∈ S ∧ ∀ t, t ∈ rest → d ∈ postings inverted_index t.
Proof.
  revert S. induction rest as [|term rest IH]; intros S HS.
  { exists S. split; [done|]. intros d. split; [|tauto].
    intros Hd. split; [done|]. by intros t ?%elem_of_nil. }
  cbn [NgramJaccardCorrection.intersect_loop]. rewrite lookup_insert_eq.
  cbn [default from_option id]. rewrite insert_insert_eq.
  set (post := default ∅ (<[first := S]> inverted_index !! term)).
  assert (∀ d, d ∈ S ∩ post ↔ d ∈ S ∧ d ∈ postings inverted_index term) as Hpost.
  { intros d. unfold post. destruct (decide (term = first)) as [->|Hne].
    - rewrite lookup_insert_eq. cbn. set_solver.
    - rewrite lookup_insert_ne by done. unfold postings. set_solver. }
  rewrite lookup_insert_eq. cbn [default from_option id].
  destruct (decide (S ∩ post = ∅)) as [Hempty|Hnonempty].
  - exists (S ∩ post). split; [done|]. intros d. rewrite Hpost. split.
    + intros Hd. apply Hpost in Hd. rewrite Hempty in Hd. set_solver.
    + intros [Hd Hall]. split; [done|]. apply Hall, list_elem_of_here.
  - destruct (IH (S ∩ post)) as (S' & -> & HS'); [set_solver|].
    exists S'. split; [done|]. intros d. rewrite HS', Hpost. split.
    + intros [[Hd Ht] Hall]. split; [done|].
      intros t [->|Hin]%elem_of_cons; auto.
    + intros [Hd Hall]. split; [split; [done|]|].
      * apply Hall, list_elem_of_here.
      * intros t Hin. by apply Hall, list_elem_of_further.
Qed.

Lemma ngram_retrieval_spec (query : string)
    (inverted_index : gmap string (gset Z)) :
  let terms := split query in
  let result :=
    (NgramJaccardCorrection.retrieve_documents_for_query query inverted_index).1 in
  let index_after :=
    (NgramJaccardCorrection.retrieve_documents_for_query query inverted_index).2 in
  (∀ d, d ∈ result
        ↔ terms ≠ [] ∧ ∀ term, term ∈ terms → d ∈ postings inverted_index term)
  ∧ index_after
    = match terms with
      | first :: _ =>
          if bool_decide (Forall (λ term, postings inverted_index term ≠ ∅) terms)
          then <[first := result]> inverted_index
          else inverted_index
      | [] => inverted_index
      end.
Proof.
  intros terms. unfold NgramJaccardCorrection.retrieve_documents_for_query.
  fold terms. destruct terms as [|first rest] eqn:Hterms.
  { cbn. split; [|done]. intros d. split; [set_solver|]. by intros [? _]. }
  assert (Forall (λ post : gset Z, post ≠ ∅)
            ((λ term, default ∅ (inverted_index !! term)) <$> first :: rest)
          ↔ Forall (λ term, postings inverted_index term ≠ ∅) (first :: rest))
    as Hguard by apply Forall_fmap.
  destruct (decide (Forall (λ term, postings inverted_index term ≠ ∅)
                      (first :: rest))) as [Hall|Hsome].
  - rewrite !bool_decide_eq_true_2 by by (try apply Hguard).
    cbn zeta. cbn [fst snd].
    pose proof (Forall_inv Hall) as Hfirst. cbn beta in Hfirst.
    unfold postings in Hfirst.
    destruct (inverted_index !! first) as [S0|] eqn:HS0; [|done].
    destruct (ngram_intersect_loop_spec first inverted_index rest S0)
      as (S' & Hloop & HS').
    { unfold postings. by rewrite HS0. }
    rewrite (insert_id inverted_index first S0) in Hloop by done.
    rewrite Hloop, lookup_insert_eq.
    cbn [default from_option id]. split; [|by case_bool_decide].
    intros d. rewrite HS'. split.
    + intros [Hd Hrest]. split; [done|].
      intros term [->|Hin]%elem_of_cons; [|auto].
      unfold postings. by rewrite HS0.
    + intros [_ Hd]. split.
      * specialize (Hd first (list_elem_of_here _ _)).
        unfold postings in Hd. by rewrite HS0 in Hd.
      * intros t Hin. by apply Hd, list_elem_of_further.
  - rewrite !bool_decide_eq_false_2 by by rewrite ?Hguard.
    cbn [fst snd]. split; [|done].
    intros d. split; [set_solver|].
    intros [_ Hd]. exfalso. apply Hsome, Forall_forall.
    intros term Hin. specialize (Hd term Hin). set_solver.
Qed.

Lemma split_go_tokens (cur s : string) :
  all_chars (λ c, negb (isspace c)) cur = true →
  Forall (λ t, t ≠ "" ∧ all_chars (λ c, negb (isspace c)) t = true)
    (split_go cur s).
Proof.
  revert cur. induction s as [|c s IH]; intros cur Hcur; cbn [split_go].
  - destruct cur; [constructor|]. by repeat constructor.
  - destruct (isspace c) eqn:Hc.
    + destruct cur as [|a cur]; cbn [is_empty]; [by apply IH|].
      constructor; [done|]. by apply IH.
    + apply IH. rewrite all_chars_app, Hcur. cbn. by rewrite Hc.
Qed.

Lemma split_token (t : string) :
  t ≠ "" → all_chars (λ c, negb (isspace c)) t = true → split t = [t].
Proof.
  intros Hne Ht. unfold split. rewrite <-(append_empty_r t) at 1.
  rewrite split_go_nospace, append_nil by done. by destruct t.
Qed.

(** X16.  When every term of the query has a nonempty posting set,
    [retrieve_documents_for_query] of the n-gram program returns the
    documents that are in the posting set of every term, and it changes the
    index it is given: the posting set stored for the first term becomes the
    result, so that a later query for that term alone returns the result of
    this query. *)
Theorem ngram_retrieval_changes_index (query : string)
    (inverted_index : gmap string (gset Z)) (first : string) (rest : list string) :
  split query = first :: rest →
  Forall (λ term, postings inverted_index term ≠ ∅) (first :: rest) →
  let result :=
    (NgramJaccardCorrection.retrieve_documents_for_query query inverted_index).1 in
  let index_after :=
    (NgramJaccardCorrection.retrieve_documents_for_query query inverted_index).2 in
  (∀ d, d ∈ result ↔ ∀ term, term ∈ first :: rest → d ∈ postings inverted_index term)
  ∧ index_after = <[first := result]> inverted_index
  ∧ (NgramJaccardCorrection.retrieve_documents_for_query first index_after).1
    = result.
Proof.
  intros Hterms Hall result index_after.
  destruct (ngram_retrieval_spec query inverted_index) as [Hresult Hafter].
  rewrite Hterms in Hresult, Hafter. rewrite bool_decide_eq_true_2 in Hafter by done.
  fold result in Hresult, Hafter. fold index_after in Hafter.
  split; [|split; [done|]].
  - intros d. rewrite Hresult. split; [by intros [_ ?]|done].
  - apply set_eq. intros d.
    destruct (ngram_retrieval_spec first index_after) as [-> _].
    assert (split first = [first]) as ->.
    { pose proof (split_go_tokens "" query eq_refl) as Htok.
      fold (split query) in Htok. rewrite Hterms in Htok.
      apply Forall_inv in Htok as [? ?]. by apply split_token. }
    rewrite Hafter. split.
    + intros [_ Hd]. specialize (Hd first (list_elem_of_here _ _)).
      unfold postings in Hd. by rewrite lookup_insert_eq in Hd.
    + intros Hd. split; [done|]. intros term ->%list_elem_of_singleton.
      unfold postings. by rewrite lookup_insert_eq.
Qed.

Lemma ngram_retrieval_changes_index_witness :
  (NgramJaccardCorrection.retrieve_documents_for_query "real win" example_index).2
  = <["real" := (NgramJaccardCorrection.retrieve_documents_for_query "real win"
                   example_index).1]> example_index.
Proof.
  apply (ngram_retrieval_changes_index "real win" example_index "real" ["win"]).
  - reflexivity.
  - repeat constructor; by vm_compute.
Defined.

Example ngram_retrieval_ex :
  NgramJaccardCorrection.retrieve_documents_for_query "real win" example_index
  = ({[0]}, <["real" := {[0]}]> example_index)
  ∧ (NgramJaccardCorrection.retrieve_documents_for_query "real"
       (<["real" := {[0]}]> example_index)).1 = {[0]}.
Proof. by vm_compute. Qed.

Lemma edit_intersect_loop_spec (result : gset Z) (postings : list (gset Z)) (d : Z) :
  d ∈ SpellingCorrectionEdit.intersect_loop result postings
  ↔ d ∈ result ∧ ∀ post, post ∈ postings → d ∈ post.
Proof.
  revert result. induction postings as [|post rest IH]; intros result.
  { cbn. split; [|tauto]. intros Hd. split; [done|]. by intros ? ?%elem_of_nil. }
  cbn [SpellingCorrectionEdit.intersect_loop].
  destruct (decide (result ∩ post = ∅)) as [Hempty|Hnonempty].
  - rewrite Hempty. split; [set_solver|]. intros [Hd Hall].
    rewrite <-Hempty. apply elem_of_intersection. split; [done|].
    apply Hall, list_elem_of_here.
  - rewrite IH, elem_of_intersection. split.
    + intros [[Hd Hp] Hall]. split; [done|].
      intros p [->|Hin]%elem_of_cons; auto.
    + intros [Hd Hall]. split; [split; [done|]|].
      * apply Hall, list_elem_of_here.
      * intros p Hin. by apply Hall, list_elem_of_further.
Qed.

(** X17.  [retrieve_documents_for_query] of the edit-distance program returns
    the documents that are in the posting set of every term of the query,
    none for a query without terms; the n-gram program returns the same
    documents. *)
Theorem edit_retrieval_is_intersection (query : string)
    (inverted_index : gmap string (gset Z)) :
  let result :=
    SpellingCorrectionEdit.retrieve_documents_for_query query inverted_index in
  (∀ d, d ∈ result
        ↔ split query ≠ []
          ∧ ∀ term, term ∈ split query → d ∈ postings inverted_index term)
  ∧ (NgramJaccardCorrection.retrieve_documents_for_query query inverted_index).1
    = result.
Proof.
  intros result.
  assert (∀ d, d ∈ result
            ↔ split query ≠ []
              ∧ ∀ term, term ∈ split query → d ∈ postings inverted_index term)
    as Hresult.
  { intros d. unfold result, SpellingCorrectionEdit.retrieve_documents_for_query.
    destruct (split query) as [|first rest].
    { cbn. split; [set_solver|]. by intros [? _]. }
    cbn [fmap list_fmap]. rewrite edit_intersect_loop_spec. split.
    - intros [Hd Hall]. split; [done|].
      intros term [->|Hin]%elem_of_cons; [done|].
      apply Hall. apply list_elem_of_fmap. by exists term.
    - intros [_ Hall]. split; [apply Hall, list_elem_of_here|].
      intros post (term & -> & Hin)%list_elem_of_fmap.
      by apply Hall, list_elem_of_further. }
  split; [done|]. apply set_eq. intros d. rewrite Hresult.
  destruct (ngram_retrieval_spec query inverted_index) as [Hngram _].
  apply Hngram.
Qed.

(** * Alternative queries *)

Lemma product_nonempty {A} (lists : list (list A)) :
  Forall (λ l, l ≠ []) lists → product lists ≠ [].
Proof.
  induction 1 as [|l lists Hl Hall IH]; [done|].
  cbn [product]. destruct l as [|x l]; [done|].
  rewrite bind_cons. destruct (product lists); [done|]. done.
Qed.

Lemma elem_of_product {A} (lists : list (list A)) (comb : list A) :
  comb ∈ product lists ↔ Forall2 (λ c l, c ∈ l) comb lists.
Proof.
  revert comb. induction lists as [|l lists IH]; intros comb; cbn [product].
  - rewrite list_elem_of_singleton. split; [intros ->; constructor|].
    by intros ->%Forall2_nil_inv_r.
  - rewrite list_elem_of_bind. split.
    + intros (x & (rest & -> & Hrest)%list_elem_of_fmap & Hx).
      constructor; [done|]. by apply IH.
    + intros (x & rest & Hx & Hrest & ->)%Forall2_cons_inv_r.
      exists x. split; [|done]. apply list_elem_of_fmap.
      exists rest. split; [done|]. by apply IH.
Qed.

Lemma head_product {A} (lists : list (list A)) (firsts : list A) :
  Forall2 (λ l c, head l = Some c) lists firsts →
  head (product lists) = Some firsts.
Proof.
  induction 1 as [|l c lists firsts Hc Hall IH]; [done|].
  cbn [product]. destruct l as [|x l]; [done|]. injection Hc as ->.
  rewrite bind_cons. destruct (product lists) as [|comb combs]; [done|].
  by injection IH as ->.
Qed.

Lemma best_candidates_nonempty (distance : string → string → Z)
    (word : string) (vocabulary : list (string * Z)) :
  NgramJaccardCorrection.get_best_candidates distance word vocabulary ≠ [].
Proof.
  unfold NgramJaccardCorrection.get_best_candidates.
  destruct (NgramJaccardCorrection.find_jaccard_candidates _ _ _ _ _); [|done].
  by destruct (NgramJaccardCorrection.find_edit_distance_candidates _ _ _ _ _).
Qed.

Lemma first_candidates {A B} (candidates : A → list B) (words : list A) :
  (∀ word, candidates word ≠ []) →
  ∃ firsts, Forall2 (λ word c, head (candidates word) = Some c) words firsts.
Proof.
  intros Hne. induction words as [|word words [firsts IH]]; [by exists []|].
  destruct (candidates word) as [|c cs] eqn:Hc; [by apply Hne in Hc|].
  exists (c :: firsts). constructor; [by rewrite Hc|done].
Qed.

Lemma prefix_spec {A} (l : list A) (n : Z) :
  (0 < n → head (prefix l n) = head l)
  ∧ (0 ≤ n → Z.of_nat (length (prefix l n)) ≤ n)
  ∧ prefix l n `sublist_of` l.
Proof.
  unfold prefix. destruct (0 <=? n) eqn:Hn.
  - apply Z.leb_le in Hn. split; [|split].
    + intros Hpos. destruct (Z.to_nat n) as [|k] eqn:Hk; [lia|]. by destruct l.
    + intros _. rewrite length_take. lia.
    + apply sublist_take.
  - apply Z.leb_gt in Hn. split; [lia|]. split; [lia|]. apply sublist_take.
Qed.

(** X18.  The alternatives [generate_alternative_queries] of the n-gram
    program returns: each is the query with every word replaced by one of
    its candidates, the words separated by single spaces; for a positive
    [max_alternatives] there is at least one alternative, at most
    [max_alternatives], and the first takes the first candidate of every
    word. *)
Theorem ngram_alternative_queries (distance : string → string → Z)
    (query : string) (vocabulary : list (string * Z)) (max_alternatives : Z) :
  let candidates word :=
    NgramJaccardCorrection.get_best_candidates distance word vocabulary in
  let alternatives :=
    NgramJaccardCorrection.generate_alternative_queries distance query
      vocabulary max_alternatives in
  Forall (λ alternative,
            ∃ comb, alternative = join " " comb
                    ∧ Forall2 (λ c word, c ∈ candidates word) comb (split query))
         alternatives
  ∧ (0 ≤ max_alternatives → Z.of_nat (length alternatives) ≤ max_alternatives)
  ∧ (0 < max_alternatives →
     ∃ firsts, Forall2 (λ word c, head (candidates word) = Some c)
                 (split query) firsts
               ∧ head alternatives = Some (join " " firsts)).
Proof.
  intros candidates alternatives.
  unfold alternatives, NgramJaccardCorrection.generate_alternative_queries.
  fold candidates. set (combs := product (candidates <$> split query)).
  destruct (prefix_spec combs max_alternatives) as (Hhead & Hlen & Hsub).
  split; [|split].
  - apply Forall_fmap, Forall_forall. intros comb Hin. exists comb.
    split; [done|]. eapply elem_of_sublist in Hin; [|done].
    apply elem_of_product in Hin. by rewrite Forall2_fmap_r in Hin.
  - intros Hmax. rewrite length_fmap. auto.
  - intros Hmax.
    destruct (first_candidates candidates (split query)) as [firsts Hfirsts].
    { intros word. exact (best_candidates_nonempty distance word vocabulary). }
    exists firsts. split; [done|].
    assert (head combs = Some firsts) as Hcombs.
    { apply head_product. by rewrite Forall2_fmap_l. }
    specialize (Hhead Hmax). rewrite Hcombs in Hhead.
    destruct (prefix combs max_alternatives); [done|].
    by injection Hhead as ->.
Qed.

(** X19.  The alternatives [generate_alternative_queries] of the edit-distance
    program returns: there is always one, the first takes the first candidate
    of every word, a word without candidate standing for itself; and the
    alternatives are exactly the texts made of one candidate for each word of
    the query, separated by single spaces. *)
Theorem edit_alternative_queries (distance : string → string → Z)
    (query : string) (vocabulary : list (string * Z)) :
  let candidates word :=
    match SpellingCorrectionEdit.find_edit_distance_candidates distance word
            vocabulary SpellingCorrectionEdit.max_distance
            SpellingCorrectionEdit.top_n SpellingCorrectionEdit.min_df with
    | [] => [word]
    | found => found
    end in
  let alternatives :=
    SpellingCorrectionEdit.generate_alternative_queries distance query
      vocabulary in
  (∀ alternative, alternative ∈ alternatives
     ↔ ∃ comb, alternative = join " " comb
               ∧ Forall2 (λ c word, c ∈ candidates word) comb (split query))
  ∧ ∃ firsts, Forall2 (λ word c, head (candidates word) = Some c)
                (split query) firsts
              ∧ head alternatives = Some (join " " firsts).
Proof.
  intros candidates alternatives.
  assert (alternatives = join " " <$> product (candidates <$> split query))
    as ->.
  { unfold alternatives, SpellingCorrectionEdit.generate_alternative_queries.
    do 2 f_equal. apply list_fmap_ext. intros _ word _. unfold candidates.
    by destruct (SpellingCorrectionEdit.find_edit_distance_candidates _ _ _ _ _ _). }
  split.
  - intros alternative. rewrite list_elem_of_fmap.
    split; intros (comb & -> & Hcomb); exists comb; (split; [done|]).
    + apply elem_of_product in Hcomb. by rewrite Forall2_fmap_r in Hcomb.
    + apply elem_of_product. by rewrite Forall2_fmap_r.
  - destruct (first_candidates candidates (split query)) as [firsts Hfirsts].
    { intros word. unfold candidates.
      by destruct (SpellingCorrectionEdit.find_edit_distance_candidates
                     _ _ _ _ _ _). }
    exists firsts. split; [done|].
    assert (head (product (candidates <$> split query)) = Some firsts) as Hcombs.
    { apply head_product. by rewrite Forall2_fmap_l. }
    destruct (product _); [done|]. by injection Hcombs as ->.
Qed.

(** * Similarity of n-gram sets *)

Lemma jaccard_similarity_fraction (set1 set2 : gset string) :
  (NgramJaccardCorrection.jaccard_similarity set1 set2
   == Z.of_nat (size (set1 ∩ set2)) # Pos.of_nat (size (set1 ∪ set2)))%Q.
Proof.
  unfold NgramJaccardCorrection.jaccard_similarity. cbn zeta.
  destruct (decide (set1 ∪ set2 = ∅)) as [Hempty|Hnonempty].
  - assert (set1 ∩ set2 = ∅) as -> by set_solver.
    rewrite Hempty, size_empty. reflexivity.
  - assert (size (set1 ∪ set2) ≠ 0%nat) as Hsize.
    { intros Hs. by apply size_empty_iff, leibniz_equiv in Hs. }
    destruct (size (set1 ∪ set2)) as [|n] eqn:Hn; [done|].
    rewrite Qmake_Qdiv. rewrite <-Pos.of_nat_succ.
    change (Z.of_nat (S n)) with (Z.pos (Pos.of_succ_nat n)). reflexivity.
Qed.

(** X20.  [jaccard_similarity] does not depend on the order of its two
    sets; it lies between 0 and 1, is 1 exactly for two equal nonempty sets
    and 0 exactly for two sets without common element. *)
Theorem jaccard_similarity_bounds (set1 set2 : gset string) :
  let similarity := NgramJaccardCorrection.jaccard_similarity set1 set2 in
  similarity = NgramJaccardCorrection.jaccard_similarity set2 set1
  ∧ (0 <= similarity)%Q ∧ (similarity <= 1)%Q
  ∧ ((similarity == 1)%Q ↔ set1 = set2 ∧ set1 ≠ ∅)
  ∧ ((similarity == 0)%Q ↔ set1 ∩ set2 = ∅).
Proof.
  intros similarity.
  pose proof (jaccard_similarity_fraction set1 set2) as Hfrac.
  fold similarity in Hfrac.
  assert (size (set1 ∩ set2) ≤ size (set1 ∪ set2))%nat as Hle.
  { apply subseteq_size. set_solver. }
  split; [|split; [|split; [|split]]].
  - unfold similarity, NgramJaccardCorrection.jaccard_similarity. cbn zeta.
    by rewrite (comm_L (∪) set1 set2), (comm_L (∩) set1 set2).
  - rewrite Hfrac. unfold Qle. cbn. lia.
  - rewrite Hfrac. unfold Qle. cbn.
    destruct (size (set1 ∪ set2)) as [|n]; [cbn; lia|].
    rewrite <-Pos.of_nat_succ, Zpos_P_of_succ_nat. lia.
  - rewrite Hfrac. unfold Qeq. cbn. split.
    + intros Heq.
      destruct (size (set1 ∪ set2)) as [|n] eqn:Hn; [cbn in Heq; lia|].
      rewrite <-Pos.of_nat_succ, Zpos_P_of_succ_nat in Heq.
      assert (set1 ∩ set2 ≡ set1 ∪ set2) as Hsets.
      { apply set_subseteq_size_equiv; [set_solver|lia]. }
      split; [set_solver|]. intros ->.
      assert (size ((∅ : gset string) ∪ set2) = 0%nat); [|lia].
      apply size_empty_iff. set_solver.
    + intros [<- Hne].
      assert (set1 ∩ set1 = set1) as -> by set_solver.
      assert (set1 ∪ set1 = set1) as -> by set_solver.
      destruct (size set1) as [|n] eqn:Hn.
      { by apply size_empty_iff, leibniz_equiv in Hn. }
      rewrite <-Pos.of_nat_succ, Zpos_P_of_succ_nat. lia.
  - rewrite Hfrac. unfold Qeq. cbn. split.
    + intros Heq. apply leibniz_equiv, size_empty_iff. lia.
    + intros ->. rewrite size_empty. lia.
Qed.

Lemma short_word_ngrams (word : string) :
  (String.length word < 2)%nat → NgramJaccardCorrection.combined_ngrams word = ∅.
Proof.
  intros Hlen. unfold NgramJaccardCorrection.combined_ngrams,
    NgramJaccardCorrection.get_ngrams, range.
  replace (Z.to_nat (Z.of_nat (String.length word) - Z.of_nat 2 + 1)) with 0%nat
    by lia.
  replace (Z.to_nat (Z.of_nat (String.length word) - Z.of_nat 3 + 1)) with 0%nat
    by lia.
  cbn. set_solver.
Qed.

(** X21.  A word of fewer than two characters has no n-gram, so no word of
    the vocabulary is similar to it: for a positive similarity threshold
    [find_jaccard_candidates] returns no candidate, and
    [get_best_candidates] returns the edit-distance candidates, or the word
    alone when there are none. *)
Theorem short_word_has_no_similarity_candidate (distance : string → string → Z)
    (word : string) (vocabulary : list (string * Z)) :
  (String.length word < 2)%nat →
  (∀ top_n min_similarity min_df, (0 < min_similarity)%Q →
     NgramJaccardCorrection.find_jaccard_candidates word vocabulary top_n
       min_similarity min_df = [])
  ∧ NgramJaccardCorrection.get_best_candidates distance word vocabulary
    = match NgramJaccardCorrection.find_edit_distance_candidates distance word
              vocabulary NgramJaccardCorrection.max_distance
              NgramJaccardCorrection.top_n_edit with
      | [] => [word]
      | found => found
      end.
Proof.
  intros Hlen.
  assert (∀ top_n min_similarity min_df, (0 < min_similarity)%Q →
     NgramJaccardCorrection.find_jaccard_candidates word vocabulary top_n
       min_similarity min_df = []) as Hnone.
  { intros top_n min_similarity min_df Hmin.
    unfold NgramJaccardCorrection.find_jaccard_candidates,
      NgramJaccardCorrection.jaccard_ranked.
    assert (NgramJaccardCorrection.jaccard_matches word vocabulary
              min_similarity min_df = []) as ->; [|by destruct top_n].
    apply elem_of_nil_inv. intros [[w sim] df] Hin.
    apply elem_of_jaccard_matches in Hin as (_ & _ & -> & Hsim).
    rewrite short_word_ngrams in Hsim by done.
    pose proof (jaccard_similarity_fraction ∅
                  (NgramJaccardCorrection.combined_ngrams w)) as Hfrac.
    rewrite Hfrac in Hsim.
    assert (∅ ∩ NgramJaccardCorrection.combined_ngrams w = (∅ : gset string))
      as Hempty by set_solver.
    rewrite Hempty, size_empty in Hsim.
    unfold Qle, Qlt in *. cbn in *. lia. }
  split; [done|].
  unfold NgramJaccardCorrection.get_best_candidates.
  rewrite Hnone by done.
  by destruct (NgramJaccardCorrection.find_edit_distance_candidates _ _ _ _ _).
Qed.

Lemma short_word_has_no_similarity_candidate_witness :
  NgramJaccardCorrection.get_best_candidates edit_distance "a"
    [("real", 25); ("at", 30)]
  = match NgramJaccardCorrection.find_edit_distance_candidates edit_distance "a"
            [("real", 25); ("at", 30)] NgramJaccardCorrection.max_distance
            NgramJaccardCorrection.top_n_edit with
    | [] => ["a"]
    | found => found
    end.
Proof.
  apply (short_word_has_no_similarity_candidate edit_distance "a"
           [("real", 25); ("at", 30)]).
  cbn. lia.
Defined.

(** * Candidates of the edit-distance program *)

Lemma spelling_edit_key_le_spec (a b : string * Z * Z) :
  SpellingCorrectionEdit.edit_key_le a b = true ↔ nearer_then_frequent a b.
Proof.
  destruct a as [[wa da] fa], b as [[wb db] fb].
  unfold SpellingCorrectionEdit.edit_key_le, nearer_then_frequent. cbn [fst snd].
  destruct (da =? db) eqn:Heq.
  - apply Z.eqb_eq in Heq. rewrite Z.leb_le. lia.
  - apply Z.eqb_neq in Heq. rewrite Z.leb_le. lia.
Qed.

Lemma spelling_edit_key_le_total (a b : string * Z * Z) :
  SpellingCorrectionEdit.edit_key_le a b = false →
  SpellingCorrectionEdit.edit_key_le b a = true.
Proof.
  intros Hab. apply spelling_edit_key_le_spec.
  assert (¬ nearer_then_frequent a b) as Hn.
  { intros H%spelling_edit_key_le_spec. congruence. }
  destruct a as [[wa da] fa], b as [[wb db] fb].
  unfold nearer_then_frequent in *. cbn [fst snd] in *. lia.
Qed.

(** X22.  [find_edit_distance_candidates] of the edit-distance program
    returns the first [top_n] words of the vocabulary entries within the
    distance bound and with enough document frequency, ranked by distance
    ascending, then by document frequency descending; for a [top_n] that is
    not negative, at most [top_n] words. *)
Theorem edit_candidates_ranked (distance : string → string → Z) (word : string)
    (vocabulary : list (string * Z)) (max_distance top_n min_df : Z) :
  let candidates :=
    SpellingCorrectionEdit.find_edit_distance_candidates distance word
      vocabulary max_distance top_n min_df in
  (∃ ranked,
     candidates = (λ c, c.1.1) <$> prefix ranked top_n
     ∧ Sorted nearer_then_frequent ranked
     ∧ ∀ w dist df, (w, dist, df) ∈ ranked
         ↔ (w, df) ∈ vocabulary ∧ dist = distance word w
           ∧ dist ≤ max_distance ∧ min_df ≤ df)
  ∧ (0 ≤ top_n → Z.of_nat (length candidates) ≤ top_n).
Proof.
  intros candidates. split.
  - exists (SpellingCorrectionEdit.edit_ranked distance word vocabulary
              max_distance min_df).
    split; [done|]. split.
    + apply (Sorted_weaken
               (λ a b, SpellingCorrectionEdit.edit_key_le a b = true)).
      * intros a b. apply spelling_edit_key_le_spec.
      * apply stable_sort_Sorted, spelling_edit_key_le_total.
    + intros w dist df. unfold SpellingCorrectionEdit.edit_ranked.
      rewrite stable_sort_perm.
      unfold SpellingCorrectionEdit.edit_matches. rewrite list_elem_of_omap.
      split.
      * intros ([w' df'] & Hin & Hf).
        destruct (_ <=? _) eqn:Hd; [|done]. apply Z.leb_le in Hd.
        destruct (min_df <=? df') eqn:Hdf; [|done]. apply Z.leb_le in Hdf.
        cbn in Hf. by simplify_eq.
      * intros (Hin & -> & Hd & Hdf). exists (w, df). split; [done|].
        apply Z.leb_le in Hd, Hdf. by rewrite Hd, Hdf.
  - intros Htop. unfold candidates,
      SpellingCorrectionEdit.find_edit_distance_candidates.
    rewrite length_fmap. by apply prefix_spec.
Qed.

(** * The biword index (biword_index.py, phrase_query.py) *)

(** ** The biwords of the documents *)

Lemma map_outcome_Ok {A B} (f : A → outcome B) (g : A → B) (l : list A) :
  (∀ x, x ∈ l → f x = Ok (g x)) → map_outcome f l = Ok (g <$> l).
Proof.
  induction l as [|x l IH]; intros Hf; [done|].
  cbn [map_outcome fmap list_fmap]. rewrite Hf by apply list_elem_of_here.
  cbn [mbind outcome_bind]. rewrite IH; [done|].
  intros y Hy. by apply Hf, list_elem_of_further.
Qed.

Lemma biword_at_spec (tokens : list string) (i : nat) :
  (i + 1 < length tokens)%nat →
  BiwordIndex.biword_at tokens i
  = Ok (first ← tokens !! i ;
        second ← tokens !! (i + 1)%nat ;
        if bool_decide (1 < String.length first ∧ 1 < String.length second)%nat
        then Some (first, second) else None).
Proof.
  intros Hi. unfold BiwordIndex.biword_at, getitem.
  destruct (lookup_lt_is_Some_2 tokens i) as [first Hfirst]; [lia|].
  destruct (lookup_lt_is_Some_2 tokens (i + 1)) as [second Hsecond]; [lia|].
  rewrite Hfirst, Hsecond. cbn.
  destruct (bool_decide (1 < String.length first)%nat) eqn:H1;
    [apply bool_decide_eq_true in H1|apply bool_decide_eq_false in H1].
  - destruct (bool_decide (1 < String.length second)%nat) eqn:H2;
      [apply bool_decide_eq_true in H2|apply bool_decide_eq_false in H2].
    + by rewrite bool_decide_eq_true_2.
    + rewrite bool_decide_eq_false_2; [done|]. by intros [_ ?].
  - rewrite bool_decide_eq_false_2; [done|]. by intros [? _].
Qed.

Lemma process_document_spec (doc_id : Z) (tokens : list string) :
  ∃ biwords, BiwordIndex.process_document doc_id tokens = Ok (doc_id, biwords)
    ∧ ∀ a b, (a, b) ∈ biwords
        ↔ ∃ j, tokens !! j = Some a ∧ tokens !! S j = Some b
               ∧ (1 < String.length a)%nat ∧ (1 < String.length b)%nat.
Proof.
  unfold BiwordIndex.process_document.
  rewrite (map_outcome_Ok _
    (λ i, first ← tokens !! i ;
          second ← tokens !! (i + 1)%nat ;
          if bool_decide (1 < String.length first ∧ 1 < String.length second)%nat
          then Some (first, second) else None)).
  2:{ intros i Hi. apply biword_at_spec. unfold range, len in Hi.
      apply list_elem_of_In, in_seq in Hi. lia. }
  cbn [mbind outcome_bind]. eexists. split; [done|].
  intros a b. rewrite list_elem_of_omap. split.
  - intros (found & (i & -> & Hi)%list_elem_of_fmap & Hfound).
    cbn in Hfound. destruct (tokens !! i) as [first|] eqn:Hfirst; [|done].
    cbn in Hfound.
    destruct (tokens !! (i + 1)%nat) as [second|] eqn:Hsecond; [|done].
    cbn in Hfound. case_bool_decide as Hlen; [|done].
    injection Hfound as <- <-. exists i. rewrite Nat.add_1_r in Hsecond.
    by destruct Hlen.
  - intros (j & Ha & Hb & Hla & Hlb). exists (Some (a, b)). split; [|done].
    apply list_elem_of_fmap. exists j. split.
    + rewrite Ha. cbn. rewrite Nat.add_1_r, Hb. cbn.
      by rewrite bool_decide_eq_true_2.
    + unfold range, len. apply list_elem_of_In, in_seq.
      apply lookup_lt_Some in Hb. lia.
Qed.

Lemma process_documents_spec (documents : list (list string)) :
  ∃ results, BiwordIndex.process_documents documents = Ok results
    ∧ ∀ d a b, (∃ biwords, (d, biwords) ∈ results ∧ (a, b) ∈ biwords)
        ↔ ∃ i tokens j, d = Z.of_nat i ∧ documents !! i = Some tokens
            ∧ tokens !! j = Some a ∧ tokens !! S j = Some b
            ∧ (1 < String.length a)%nat ∧ (1 < String.length b)%nat.
Proof.
  unfold BiwordIndex.process_documents, enumerate.
  assert (∀ k, ∃ results,
    map_outcome (λ '(doc_id, tokens),
                   BiwordIndex.process_document (Z.of_nat doc_id) tokens)
                (imap (λ i, pair (k + i)%nat) documents) = Ok results
    ∧ ∀ d a b, (∃ biwords, (d, biwords) ∈ results ∧ (a, b) ∈ biwords)
        ↔ ∃ i tokens j, d = Z.of_nat (k + i) ∧ documents !! i = Some tokens
            ∧ tokens !! j = Some a ∧ tokens !! S j = Some b
            ∧ (1 < String.length a)%nat ∧ (1 < String.length b)%nat) as Hgen.
  { induction documents as [|tokens documents IH]; intros k.
    { exists []. split; [done|]. intros d a b. split.
      - by intros (? & ?%elem_of_nil & _).
      - by intros (i & ? & ? & _ & ? & _). }
    cbn [imap map_outcome].
    destruct (process_document_spec (Z.of_nat (k + 0)) tokens)
      as (biwords & -> & Hbiwords).
    cbn [mbind outcome_bind].
    destruct (IH (S k)) as (results & Hresults & Hspec).
    assert (imap ((λ i, pair (k + i)%nat) ∘ S) documents
            = imap (λ i, pair (S k + i)%nat) documents) as ->.
    { apply imap_ext. intros i x _. cbn. f_equal. lia. }
    rewrite Hresults. cbn [mbind outcome_bind].
    eexists. split; [done|]. intros d a b. split.
    - intros (bws & [[= -> ->]|Hin]%elem_of_cons & Hbw).
      + apply Hbiwords in Hbw as (j & ?). by exists 0%nat, tokens, j.
      + destruct (proj1 (Hspec d a b)) as (i & ts & j & -> & ? & ?); [eauto|].
        exists (S i), ts, j. split; [f_equal; lia|done].
    - intros ([|i] & ts & j & -> & Hi & Hj).
      + injection Hi as ->. exists biwords. split; [left|].
        apply Hbiwords. by exists j.
      + destruct (proj2 (Hspec (Z.of_nat (S k + i)) a b)) as (bws & ? & ?).
        { by exists i, ts, j. }
        exists bws. split; [|done]. right.
        by replace (k + S i)%nat with (S k + i)%nat by lia. }
  destruct (Hgen 0%nat) as (results & Hresults & Hspec).
  exists results. split; [done|]. done.
Qed.

Lemma build_biword_index_lookup (results : list (Z * list (string * string)))
    (biword : string * string) :
  (∀ d, d ∈ default ∅ (BiwordIndex.build_biword_index results !! biword)
        ↔ ∃ biwords, (d, biwords) ∈ results ∧ biword ∈ biwords)
  ∧ BiwordIndex.build_biword_index results !! biword ≠ Some ∅.
Proof.
  unfold BiwordIndex.build_biword_index.
  induction results as [|[d0 bws] results [IH1 IH2]] using rev_ind.
  { cbn. rewrite lookup_empty. split; [|done]. intros d. cbn.
    split; [set_solver|]. by intros (? & ?%elem_of_nil & _). }
  rewrite foldl_app. cbn [foldl]. rewrite biword_lookup_merge_result.
  destruct (decide (biword ∈ bws)) as [Hin|Hout].
  - cbn [default from_option id]. split; [|intros [= Heq]; set_solver].
    intros d. rewrite elem_of_union, IH1, elem_of_singleton. split.
    + intros [(biwords & Hres & Hbw)| ->].
      * exists biwords. split; [|done]. apply elem_of_app. by left.
      * exists bws. split; [|done]. apply elem_of_app. right. left.
    + intros (biwords & [Hres|[= -> ->]%list_elem_of_singleton]%elem_of_app & Hbw);
        [left; eauto|by right].
  - split; [|done]. intros d. rewrite IH1. split.
    + intros (biwords & Hres & Hbw). exists biwords. split; [|done].
      apply elem_of_app. by left.
    + intros (biwords & [Hres|[= -> ->]%list_elem_of_singleton]%elem_of_app & Hbw);
        [eauto|done].
Qed.

(** X23.  Once the files are read and [documents] holds their token lists,
    the list comprehension of [process_document] reads no token out of range
    and [build_biword_index] makes an index.  In it the posting set of a
    pair of words holds exactly the documents, numbered from 0 in the order
    of the listing, in which the two words are consecutive tokens, both
    longer than one character; no pair of the index has an empty posting
    set. *)
Theorem biword_index_of_documents (documents : list (list string)) :
  ∃ biword_index,
    BiwordIndex.build_biword_index_of documents = Ok biword_index
    ∧ (∀ a b d, d ∈ default ∅ (biword_index !! (a, b))
         ↔ ∃ i tokens j, d = Z.of_nat i ∧ documents !! i = Some tokens
             ∧ tokens !! j = Some a ∧ tokens !! S j = Some b
             ∧ (1 < String.length a)%nat ∧ (1 < String.length b)%nat)
    ∧ ∀ biword, biword_index !! biword ≠ Some ∅.
Proof.
  unfold BiwordIndex.build_biword_index_of.
  destruct (process_documents_spec documents) as (results & -> & Hspec).
  cbn [mbind outcome_bind]. eexists. split; [done|]. split.
  - intros a b d.
    destruct (build_biword_index_lookup results (a, b)) as [-> _]. apply Hspec.
  - intros biword. apply build_biword_index_lookup.
Qed.

(** ** The file of the biword index *)

Lemma readlines_index_lines (items : list (string * list Z)) :
  Forall (λ item, no_line_break item.1 = true) items →
  readlines (foldr (λ '(term, ids) rest, index_line term ids +:+ rest) "" items)
  = (λ '(term, ids), index_line term ids) <$> items.
Proof.
  intros Hitems.
  set (body := (λ '(term, ids),
    term +:+ " " +:+ str (len ids) +:+ " " +:+ join "," (str <$> ids))
    : string * list Z → string).
  assert (∀ p, (let '(term, ids) := p in index_line term ids) = body p +:+ nl)
    as Hbody.
  { intros [term ids]. unfold body, index_line. by rewrite !append_assoc. }
  assert (foldr (λ '(term, ids) rest, index_line term ids +:+ rest) "" items
          = foldr (λ w rest, (w +:+ nl) +:+ rest) "" (body <$> items)) as ->.
  { clear. induction items as [|[term ids] l IH]; [done|].
    cbn [foldr fmap list_fmap]. rewrite IH. f_equal.
    unfold body, index_line. by rewrite !append_assoc. }
  rewrite readlines_lines.
  - rewrite <-list_fmap_compose. apply list_fmap_ext.
    intros ? p _. unfold compose. by rewrite <-(Hbody p).
  - apply Forall_fmap. eapply Forall_impl; [done|]. intros [term ids] Hterm.
    unfold compose, body. cbn [fst] in Hterm.
    rewrite !all_chars_app, Hterm, str_no_line_break. cbn [all_chars andb].
    apply all_chars_join; [done|]. apply Forall_fmap, Forall_forall.
    intros d _. apply str_no_line_break.
Qed.

Lemma biword_key_inj (a b s t : string) :
  all_chars (λ c, bool_decide (c ≠ "_"%char)) a = true →
  all_chars (λ c, bool_decide (c ≠ "_"%char)) b = true →
  biword_key (a, b) = biword_key (s, t) → a = s ∧ b = t.
Proof.
  unfold biword_key. cbn [fst snd]. intros Ha Hb. revert s.
  induction a as [|c a IH]; intros s Heq.
  - destruct s as [|c' s]; rewrite !append_cons, ?append_nil in Heq.
    + by injection Heq as ->.
    + injection Heq as <- ->. rewrite all_chars_app in Hb.
      apply andb_prop in Hb as [_ Hb]. by vm_compute in Hb.
  - cbn [all_chars] in Ha. apply andb_prop in Ha as [Hc Ha].
    destruct s as [|c' s]; rewrite !append_cons, ?append_nil in Heq.
    + injection Heq as -> _. by vm_compute in Hc.
    + injection Heq as -> Heq. destruct (IH Ha s Heq) as [-> ->]. done.
Qed.

Lemma plain_word_key (a b : string) :
  plain_word a → plain_word b →
  biword_key (a, b) ≠ ""
  ∧ all_chars (λ c, negb (isspace c)) (biword_key (a, b)) = true
  ∧ no_line_break (biword_key (a, b)) = true.
Proof.
  intros (Ha1 & Ha2 & _) (Hb1 & Hb2 & _). unfold biword_key. cbn [fst snd].
  assert (all_chars (λ c, negb (isspace c)) (a +:+ "_" +:+ b) = true) as Hspace.
  { by rewrite !all_chars_app, Ha2, Hb2. }
  split; [by destruct a|]. split; [done|].
  eapply all_chars_weaken; [|exact Hspace]. intros c Hc.
  apply bool_decide_eq_true. split; intros ->; by vm_compute in Hc.
Qed.

Lemma biword_loader_line (acc : gmap string (gset Z)) (term : string)
    (docs : gset Z) :
  term ≠ "" → all_chars (λ c, negb (isspace c)) term = true →
  docs ≠ ∅ → (∀ d, d ∈ docs → 0 ≤ d) →
  PhraseQuery.load_line acc (index_line term (merge_sort Z.le (elements docs)))
  = Ok (<[term := docs]> acc).
Proof.
  intros Hterm Hspace Hne Hpos.
  destruct (sorted_ids_spec docs Hne Hpos) as (Hi1 & Hi2 & Hi3 & _).
  destruct (index_line_fields term _ Hterm Hspace Hi1 Hi2) as (Hf & _ & Hids).
  unfold PhraseQuery.load_line. rewrite Hf.
  rewrite bool_decide_eq_false_2 by (cbn; lia).
  cbn [getitem lookup list_lookup]. cbn [mbind outcome_bind].
  rewrite Hids. cbn [mbind outcome_bind]. by rewrite Hi3.
Qed.

(** The text [save_biword_index] writes, from the pairs it keeps. *)
Lemma save_biword_index_lines (biword_index : gmap (string * string) (gset Z)) :
  BiwordIndex.save_biword_index biword_index
  = foldr (λ '(term, ids) rest, index_line term ids +:+ rest) ""
      ((λ item : string * string * gset Z,
          (biword_key item.1, merge_sort Z.le (elements item.2)))
       <$> filter (λ item, 1 < size item.2)%nat
             (merge_sort BiwordIndex.item_le (map_to_list biword_index))).
Proof.
  unfold BiwordIndex.save_biword_index.
  induction (merge_sort _ _) as [|[biword docs] items IH]; [done|].
  cbn [foldr]. rewrite IH. rewrite filter_cons. cbn [snd].
  case_bool_decide as Hsize.
  - rewrite decide_True by done. cbn [fmap list_fmap foldr fst snd]. f_equal.
    assert (length (merge_sort Z.le (elements docs)) = size docs) as Hlen.
    { apply Permutation_length, merge_sort_Permutation. }
    unfold BiwordIndex.save_line, index_line, biword_key, len, nl.
    rewrite Hlen. by rewrite !append_assoc.
  - by rewrite decide_False by done.
Qed.

Lemma foldl_insert_keys {K V} (key : K → string) (items : list (K * V))
    (acc : gmap string V) :
  foldl (λ m '(k, v), <[key k := v]> m) acc items
  = foldl (λ m '(k, v), <[k := v]> m) acc ((λ '(k, v), (key k, v)) <$> items).
Proof.
  revert acc. induction items as [|[k v] items IH]; intros acc; [done|].
  cbn [foldl fmap list_fmap]. apply IH.
Qed.

Lemma foldl_insert_rev `{Countable K} {V} (l : list (K * V)) (acc : gmap K V) :
  foldl (λ m '(k, v), <[k := v]> m) acc l
  = foldr (λ p, <[p.1 := p.2]>) acc (reverse l).
Proof.
  revert acc. induction l as [|[k v] l IH]; intros acc; [done|].
  cbn [foldl]. by rewrite IH, reverse_cons, foldr_app.
Qed.

Lemma foldl_insert_perm `{Countable K} {V} (m : gmap K V) (l : list (K * V)) :
  l ≡ₚ map_to_list m → foldl (λ m '(k, v), <[k := v]> m) ∅ l = m.
Proof.
  intros Hperm. rewrite foldl_insert_rev. symmetry.
  apply (list_to_map_flip m (reverse l)). by rewrite reverse_Permutation.
Qed.

Lemma load_saved_biword_index
    (biword_index : gmap (string * string) (gset Z)) :
  well_formed_biword_index biword_index →
  ∃ loaded,
    PhraseQuery.load_biword_index
      (Some (BiwordIndex.save_biword_index biword_index)) = Ok loaded
    ∧ (∀ key docs, loaded !! key = Some docs
         ↔ ∃ a b, key = biword_key (a, b) ∧ biword_index !! (a, b) = Some docs
                  ∧ (1 < size docs)%nat)
    ∧ length (readlines (BiwordIndex.save_biword_index biword_index))
      = size loaded.
Proof.
  intros Hwf.
  set (items := merge_sort BiwordIndex.item_le (map_to_list biword_index)).
  set (kept := filter (λ item : string * string * gset Z, 1 < size item.2)%nat
                 items).
  assert (items ≡ₚ map_to_list biword_index) as Hperm
    by apply merge_sort_Permutation.
  assert (∀ a b docs, ((a, b), docs) ∈ kept
            ↔ biword_index !! (a, b) = Some docs ∧ (1 < size docs)%nat) as Hkept.
  { intros a b docs. unfold kept. rewrite list_elem_of_filter, Hperm.
    rewrite elem_of_map_to_list. cbn [snd]. tauto. }
  assert (NoDup (kept.*1)) as Hnd.
  { apply (sublist_NoDup _ (items.*1)).
    - rewrite Hperm. apply NoDup_fst_map_to_list.
    - apply fmap_sublist, sublist_filter. }
  set (keyed := (λ '(k, v), (biword_key k, v)) <$> kept
                : list (string * gset Z)).
  assert (NoDup (keyed.*1)) as Hkeys.
  { assert (keyed.*1 = biword_key <$> kept.*1) as ->.
    { unfold keyed. rewrite <-!list_fmap_compose. apply list_fmap_ext.
      by intros ? [??] _. }
    apply NoDup_fmap_2_strong; [|done].
    intros [a b] [s t] ([? docs0] & [= <-] & Hab%Hkept)%list_elem_of_fmap _ Heq.
    destruct Hab as [Hab _].
    destruct (Hwf a b docs0 Hab) as ((_ & _ & Ha) & (_ & _ & Hb) & _).
    by destruct (biword_key_inj a b s t Ha Hb Heq) as [-> ->]. }
  assert (readlines (BiwordIndex.save_biword_index biword_index)
          = (λ '(term, ids), index_line term ids)
            ∘ (λ item : string * string * gset Z,
                 (biword_key item.1, merge_sort Z.le (elements item.2)))
            <$> kept) as Hlines.
  { rewrite save_biword_index_lines. fold items. fold kept.
    rewrite readlines_index_lines; [by rewrite <-list_fmap_compose|].
    apply Forall_fmap, Forall_forall. intros [[a b] docs] [Hl _]%Hkept.
    destruct (Hwf a b docs Hl) as (Ha & Hb & _).
    by destruct (plain_word_key a b Ha Hb) as (_ & _ & ?). }
  exists (foldl (λ m '(k, v), <[k := v]> m) ∅ keyed).
  split; [|split].
  - unfold PhraseQuery.load_biword_index. rewrite Hlines.
    rewrite (for_each_lines _
      (λ m '(biword, docs), <[biword_key biword := docs]> m)).
    + by rewrite foldl_insert_keys.
    + intros acc [[a b] docs] [Hl Hsize]%Hkept.
      destruct (Hwf a b docs Hl) as (Ha & Hb & Hpos).
      destruct (plain_word_key a b Ha Hb) as (Hk1 & Hk2 & _).
      unfold compose. cbn [fst snd]. apply biword_loader_line; [done..| |done].
      intros ->. rewrite size_empty in Hsize. lia.
  - intros key docs. rewrite foldl_insert_lookup by done.
    unfold keyed. rewrite lookup_empty, list_elem_of_fmap. split.
    + intros [([[a b] docs'] & [= -> ->] & Hin)|[_ ?]]; [|done].
      exists a, b. split; [done|]. by apply Hkept.
    + intros (a & b & -> & Hl & Hsize). left. exists ((a, b), docs).
      split; [done|]. by apply Hkept.
  - rewrite Hlines, length_fmap, foldl_insert_rev.
    change (foldr (λ p, <[p.1 := p.2]>) ∅ (reverse keyed))
      with (list_to_map (reverse keyed) : gmap string (gset Z)).
    rewrite <-length_map_to_list, map_to_list_to_map.
    + unfold keyed. by rewrite length_reverse, length_fmap.
    + by rewrite fmap_reverse, reverse_Permutation.
Qed.

(** X24.  Loading the file [save_biword_index] writes gives the biword
    index without the pairs of one document only: the loaded index maps the
    key [first_second] to the posting set of the pair, for exactly the pairs
    that are in two documents or more, and [count_terms] counts these pairs
    on the file.  The words are nonempty, without white space and without
    underscore, the document ids not negative. *)
Theorem load_save_biword_index (biword_index : gmap (string * string) (gset Z)) :
  well_formed_biword_index biword_index →
  ∃ loaded,
    PhraseQuery.load_biword_index
      (Some (BiwordIndex.save_biword_index biword_index)) = Ok loaded
    ∧ (∀ key docs, loaded !! key = Some docs
         ↔ ∃ a b, key = biword_key (a, b) ∧ biword_index !! (a, b) = Some docs
                  ∧ (1 < size docs)%nat)
    ∧ CompareIndexes.count_terms
        (Some (BiwordIndex.save_biword_index biword_index))
      = Z.of_nat (size loaded).
Proof.
  intros Hwf.
  destruct (load_saved_biword_index biword_index Hwf)
    as (loaded & Hload & Hloaded & Hcount).
  exists loaded. split; [done|]. split; [done|].
  unfold CompareIndexes.count_terms, len. by rewrite Hcount.
Qed.

Lemma well_formed_biword_index_example :
  well_formed_biword_index
    {[ ("real", "madrid") := {[0; 1]}; ("madrid", "win") := {[0]} ]}.
Proof.
  intros a b docs Hl.
  apply lookup_insert_Some in Hl as [[[= <- <-] <-]|[_ Hl]].
  - repeat split; try done. intros d Hd. set_unfold in Hd. lia.
  - apply lookup_singleton_Some in Hl as [[= <- <-] <-].
    repeat split; try done. intros d Hd. set_unfold in Hd. lia.
Qed.

Lemma load_save_biword_index_witness :
  let biword_index : gmap (string * string) (gset Z) :=
    {[ ("real", "madrid") := {[0; 1]}; ("madrid", "win") := {[0]} ]} in
  ∃ loaded,
    PhraseQuery.load_biword_index
      (Some (BiwordIndex.save_biword_index biword_index)) = Ok loaded
    ∧ (∀ key docs, loaded !! key = Some docs
         ↔ ∃ a b, key = biword_key (a, b) ∧ biword_index !! (a, b) = Some docs
                  ∧ (1 < size docs)%nat)
    ∧ CompareIndexes.count_terms
        (Some (BiwordIndex.save_biword_index biword_index))
      = Z.of_nat (size loaded).
Proof.
  intros biword_index.
  apply (load_save_biword_index biword_index well_formed_biword_index_example).
Defined.

(** ** Phrase retrieval over the biword index *)









(** * The positional index (positional_index.py, positional_phrase_query.py) *)

(** ** The positions of the tokens *)

Lemma enumerate_snoc {A} (l : list A) (x : A) :
  enumerate (l ++ [x]) = enumerate l ++ [(length l, x)].
Proof. unfold enumerate. rewrite imap_app. cbn. by rewrite Nat.add_0_r. Qed.

Lemma process_document_positions (doc_id : Z) (tokens : list string) :
  let positions := (PositionalIndex.process_document doc_id tokens).2 in
  (∀ token p, p ∈ default [] (positions !! token)
              ↔ 0 ≤ p ∧ tokens !! Z.to_nat p = Some token)
  ∧ ∀ token l, positions !! token = Some l → l ≠ [] ∧ StronglySorted Z.lt l.
Proof.
  unfold PositionalIndex.process_document. cbn [snd].
  induction tokens as [|x tokens [IHa IHb]] using rev_ind.
  { cbn. split.
    - intros token p. rewrite lookup_empty. cbn.
      split; [by intros ?%elem_of_nil|]. by intros [_ ?].
    - intros token l. by rewrite lookup_empty. }
  rewrite enumerate_snoc, foldl_app. cbn [foldl].
  set (positions := foldl PositionalIndex.add_position ∅ (enumerate tokens)) in *.
  unfold PositionalIndex.add_position. split.
  - intros token p. destruct (decide (token = x)) as [->|Hne].
    + rewrite lookup_insert_eq. cbn [default from_option id].
      rewrite elem_of_app, IHa, list_elem_of_singleton. split.
      * intros [[Hp Hl]| ->].
        -- split; [done|]. by apply lookup_app_l_Some.
        -- split; [lia|]. by rewrite Nat2Z.id, lookup_app_r, Nat.sub_diag.
      * intros [Hp Hl]. apply lookup_snoc_Some in Hl as [[Hlt Hl]|[Heq _]].
        -- by left.
        -- right. lia.
    + rewrite lookup_insert_ne by done. rewrite IHa.
      split; intros [Hp Hl]; (split; [done|]).
      * by apply lookup_app_l_Some.
      * apply lookup_snoc_Some in Hl as [[_ Hl]|[_ Heq]]; [done|congruence].
  - intros token l. destruct (decide (token = x)) as [->|Hne].
    + rewrite lookup_insert_eq. intros [= <-].
      split; [by destruct (default [] _)|]. apply StronglySorted_app_2.
      * intros p1 p2 Hp1 ->%list_elem_of_singleton.
        apply IHa in Hp1 as [Hp Hl]. apply lookup_lt_Some in Hl. lia.
      * destruct (positions !! x) as [l|] eqn:Hl; cbn; [|constructor].
        by apply (IHb x l).
      * repeat constructor.
    + rewrite lookup_insert_ne by done. apply IHb.
Qed.

Lemma build_positional_lookup (documents : list (list string)) :
  ∀ token,
    (∀ d, default ∅ (PositionalIndex.build_positional_index_of documents !! token)
            !! d
          = if decide (0 ≤ d) then
              tokens ← documents !! Z.to_nat d ;
              (PositionalIndex.process_document d tokens).2 !! token
            else None)
    ∧ PositionalIndex.build_positional_index_of documents !! token ≠ Some ∅.
Proof.
  unfold PositionalIndex.build_positional_index_of,
    PositionalIndex.build_positional_index.
  induction documents as [|x documents IH] using rev_ind; intros token.
  { cbn. rewrite lookup_empty. split; [|done]. intros d. cbn.
    rewrite lookup_empty. by destruct (decide _). }
  rewrite enumerate_snoc, fmap_app, foldl_app. cbn [fmap list_fmap foldl].
  set (positional_index := foldl PositionalIndex.merge_result ∅ _) in *.
  destruct (IH token) as [IHa IHb].
  unfold PositionalIndex.process_document in *. cbn [snd] in *.
  rewrite !positional_lookup_merge_result. cbn zeta.
  set (positions := foldl PositionalIndex.add_position ∅ (enumerate x)).
  assert (default ∅ (positional_index !! token) !! Z.of_nat (length documents)
          = None) as Hnew.
  { rewrite IHa, decide_True by lia. rewrite Nat2Z.id.
    by rewrite (proj2 (lookup_ge_None documents _)) by lia. }
  assert (∀ d, d ≠ Z.of_nat (length documents) → 0 ≤ d →
            (documents ++ [x]) !! Z.to_nat d = documents !! Z.to_nat d) as Hold.
  { intros d Hd Hpos.
    destruct (decide (Z.to_nat d < length documents)%nat).
    - by rewrite lookup_app_l.
    - rewrite !(proj2 (lookup_ge_None _ _)); [done|lia|].
      rewrite length_app. cbn. lia. }
  assert ((documents ++ [x]) !! Z.to_nat (Z.of_nat (length documents)) = Some x)
    as Hlast.
  { by rewrite Nat2Z.id, lookup_app_r, Nat.sub_diag. }
  destruct (positions !! token) as [pos_list|] eqn:Hpos.
  - cbn [default from_option id]. split.
    + intros d. destruct (decide (d = Z.of_nat (length documents))) as [->|Hne].
      * rewrite lookup_insert_eq, Hnew, decide_True by lia. rewrite Hlast.
        cbn. fold positions. by rewrite Hpos.
      * rewrite lookup_insert_ne by done. rewrite IHa.
        destruct (decide (0 ≤ d)); [|done]. by rewrite Hold.
    + intros [= Hempty]. by apply insert_non_empty in Hempty.
  - split; [|done]. intros d.
    destruct (decide (d = Z.of_nat (length documents))) as [->|Hne].
    + rewrite Hnew, decide_True by lia. rewrite Hlast. cbn. fold positions.
      by rewrite Hpos.
    + rewrite IHa. destruct (decide (0 ≤ d)); [|done]. by rewrite Hold.
Qed.

Lemma occurs_at_built (documents : list (list string)) (word : string)
    (d pos : Z) :
  occurs_at (PositionalIndex.build_positional_index_of documents) word d pos
  ↔ token_at documents d pos word.
Proof.
  rewrite <-elem_of_positions_of. unfold PositionalPhraseQuery.positions_of.
  destruct (build_positional_lookup documents word) as [-> _].
  unfold token_at. destruct (decide (0 ≤ d)) as [Hd|Hd].
  - destruct (documents !! Z.to_nat d) as [tokens|] eqn:Hdoc; cbn.
    + destruct (process_document_positions d tokens) as [-> _]. split.
      * intros [Hp Hl]. exists (Z.to_nat d), tokens. split; [lia|done].
      * intros (i & tokens' & -> & Hi & Hp & Hl).
        rewrite Nat2Z.id in Hdoc. by simplify_eq.
    + split; [by intros ?%elem_of_nil|].
      intros (i & tokens' & -> & Hi & _). rewrite Nat2Z.id in Hdoc. congruence.
  - cbn. split; [by intros ?%elem_of_nil|]. intros (i & ? & -> & _). lia.
Qed.

Lemma phrase_query_offsets (phrase : string)
    (positional_index : gmap string (gmap Z (list Z))) (d : Z) :
  let words := split (lower phrase) in
  d ∈ PositionalPhraseQuery.phrase_query phrase positional_index
  ↔ words ≠ []
    ∧ ∃ p, ∀ i w, words !! i = Some w
                  → occurs_at positional_index w d (p + Z.of_nat i).
Proof.
  intros words. pose proof (phrase_query_unfold phrase positional_index d) as Hq.
  fold words in Hq. cbn zeta in Hq. rewrite Hq, contiguous_spec. clear Hq. split.
  - intros (Hne & Hall & p & Hp0 & Hpi). split; [done|]. exists p.
    intros i w Hi. apply elem_of_positions_of. destruct i as [|i].
    + rewrite list_lookup_fmap, Hi in Hp0. by rewrite Z.add_0_r.
    + specialize (Hpi (S i)). rewrite list_lookup_fmap, Hi in Hpi.
      apply Hpi. apply lookup_lt_Some in Hi. lia.
  - intros (Hne & p & Hocc). split; [done|]. split.
    + intros w (i & Hi)%list_elem_of_lookup_1.
      eapply occurs_at_docs_of, Hocc, Hi.
    + exists p. split.
      * destruct words as [|w0 rest]; [done|]. cbn.
        apply elem_of_positions_of. specialize (Hocc 0%nat w0 eq_refl).
        by rewrite Z.add_0_r in Hocc.
      * intros i Hi. destruct (words !! i) as [w|] eqn:Hwi.
        -- rewrite list_lookup_fmap, Hwi. simpl. apply elem_of_positions_of. auto.
        -- apply lookup_ge_None in Hwi. lia.
Qed.

(** X27.  The positional engine from the documents to the answer.  In the
    index [build_positional_index] makes, a word occurs at an offset of a
    document exactly when it is the token at that offset of the document,
    the documents numbered from 0 in the order of the listing; and
    [phrase_query] on this index returns a document exactly when the words
    of the phrase, in lower case, are consecutive tokens of the document,
    in the order of the phrase. *)
Theorem positional_engine_end_to_end (documents : list (list string))
    (phrase : string) (d : Z) :
  let positional_index := PositionalIndex.build_positional_index_of documents in
  let words := split (lower phrase) in
  (∀ word pos, occurs_at positional_index word d pos
               ↔ token_at documents d pos word)
  ∧ (d ∈ PositionalPhraseQuery.phrase_query phrase positional_index
     ↔ words ≠ []
       ∧ ∃ p, ∀ i w, words !! i = Some w
                     → token_at documents d (p + Z.of_nat i) w).
Proof.
  intros positional_index words. split.
  - intros word pos. apply occurs_at_built.
  - unfold words. rewrite phrase_query_offsets. cbn zeta.
    split; intros [Hne [p Hp]]; (split; [done|]); exists p; intros i w Hi.
    + by apply occurs_at_built, Hp.
    + by apply occurs_at_built, Hp.
Qed.

(** ** The file of the positional index *)

Lemma rstrip_by_snoc (p : ascii → bool) (t : string) (c : ascii) :
  all_chars (λ c, negb (p c)) t = true → p c = true →
  rstrip_by p (t +:+ String c "") = t.
Proof.
  intros Ht Hc. induction t as [|a t IH].
  - rewrite append_nil. cbn. by rewrite Hc.
  - cbn [all_chars] in Ht. apply andb_prop in Ht as [Ha Ht].
    rewrite append_cons. cbn [rstrip_by]. rewrite IH by done.
    apply negb_true_iff in Ha. by rewrite Ha, andb_false_r.
Qed.

(** The characters of the text of a posting. *)
Lemma posting_chars (posting : Z * list Z) :
  0 ≤ posting.1 → Forall (λ p, 0 ≤ p) posting.2 →
  all_chars isdecimal (str posting.1) = true
  ∧ all_chars (λ c, isdecimal c || bool_decide (c = ","%char))
      (join "," (str <$> posting.2)) = true.
Proof.
  intros Hd Hps. split; [by destruct (str_nonneg_spec _ Hd) as (_ & ? & _)|].
  apply all_chars_join; [done|]. apply Forall_fmap.
  eapply Forall_impl; [done|]. intros p Hp.
  destruct (str_nonneg_spec p Hp) as (_ & Hdec & _).
  eapply all_chars_weaken; [|exact Hdec]. by intros c ->.
Qed.

Lemma posting_char_classes (c : ascii) :
  isdecimal c || bool_decide (c = ","%char) || bool_decide (c = ":"%char) = true →
  negb (isspace c) = true ∧ c ≠ ";"%char ∧ c ≠ LF ∧ c ≠ CR.
Proof.
  intros Hc.
  pose proof (forall_ascii (λ c,
    implb (isdecimal c || bool_decide (c = ","%char) || bool_decide (c = ":"%char))
          (negb (isspace c) && bool_decide (c ≠ ";"%char)
           && bool_decide (c ≠ LF) && bool_decide (c ≠ CR)))) as Hall.
  specialize (Hall ltac:(by vm_compute) c). cbn beta in Hall.
  rewrite Hc in Hall. cbn in Hall.
  apply andb_prop in Hall as [[[H1 H2]%andb_prop H3]%andb_prop H4].
  apply bool_decide_eq_true in H2, H3, H4. done.
Qed.

Lemma posting_text_chars (posting : Z * list Z) :
  0 ≤ posting.1 → posting.2 ≠ [] → Forall (λ p, 0 ≤ p) posting.2 →
  let text := PositionalIndex.posting_text posting in
  text ≠ ""
  ∧ all_chars (λ c, isdecimal c || bool_decide (c = ","%char)
                    || bool_decide (c = ":"%char)) text = true.
Proof.
  intros Hd Hne Hps text. destruct (posting_chars posting Hd Hps) as [H1 H2].
  destruct (str_nonneg_spec _ Hd) as (Hstr & _).
  unfold text, PositionalIndex.posting_text. split.
  - by destruct (str posting.1).
  - rewrite !all_chars_app. cbn [all_chars].
    assert (all_chars (λ c, isdecimal c || bool_decide (c = ","%char)
                            || bool_decide (c = ":"%char)) (str posting.1)
            = true) as ->.
    { eapply all_chars_weaken; [|exact H1]. by intros c ->. }
    assert (all_chars (λ c, isdecimal c || bool_decide (c = ","%char)
                            || bool_decide (c = ":"%char))
              (join "," (str <$> posting.2)) = true) as ->.
    { eapply all_chars_weaken; [|exact H2]. by intros c ->. }
    done.
Qed.

Lemma load_posting_text (term : string) (posting : Z * list Z) (semi : bool)
    (positional_index : gmap string (gmap Z (list Z))) :
  0 ≤ posting.1 → posting.2 ≠ [] → Forall (λ p, 0 ≤ p) posting.2 →
  PositionalPhraseQuery.load_posting term positional_index
    (PositionalIndex.posting_text posting +:+ (if semi then ";" else ""))
  = Ok (PositionalPhraseQuery.set_positions term posting.1 posting.2
          positional_index).
Proof.
  intros Hd Hne Hps.
  destruct (posting_chars posting Hd Hps) as [H1 H2].
  destruct (posting_text_chars posting Hd Hne Hps) as [_ H3].
  assert (all_chars (λ c, negb (bool_decide (c = ";"%char)))
            (PositionalIndex.posting_text posting) = true) as Hsemi.
  { eapply all_chars_weaken; [|exact H3]. intros c Hc.
    destruct (posting_char_classes c Hc) as (_ & ? & _).
    by rewrite bool_decide_eq_false_2. }
  unfold PositionalPhraseQuery.load_posting.
  assert (rstrip_by (λ c, bool_decide (c = ";"%char))
            (PositionalIndex.posting_text posting +:+ (if semi then ";" else ""))
          = PositionalIndex.posting_text posting) as ->.
  { destruct semi.
    - by apply rstrip_by_snoc.
    - rewrite append_empty_r. by apply rstrip_by_none. }
  unfold PositionalIndex.posting_text.
  rewrite append_cons, append_nil, split_on_app.
  2:{ eapply all_chars_weaken; [|exact H1]. intros c Hc.
      apply bool_decide_eq_true. intros ->. by vm_compute in Hc. }
  rewrite split_on_none.
  2:{ eapply all_chars_weaken; [|exact H2]. intros c Hc.
      apply bool_decide_eq_true. intros ->. by vm_compute in Hc. }
  destruct (postings_text_spec posting.2 Hne Hps) as (_ & _ & _ & -> & _).
  rewrite map_outcome_int_str by done. cbn [mbind outcome_bind].
  by rewrite int_str.
Qed.

Lemma for_each_load_posting (term : string) (postings : list (Z * list Z))
    (positional_index : gmap string (gmap Z (list Z))) :
  Forall (λ posting, 0 ≤ posting.1 ∧ posting.2 ≠ []
                     ∧ Forall (λ p, 0 ≤ p) posting.2) postings →
  for_each (PositionalPhraseQuery.load_posting term) positional_index
    (with_semicolons (PositionalIndex.posting_text <$> postings))
  = Ok (foldl (λ m posting,
                 PositionalPhraseQuery.set_positions term posting.1 posting.2 m)
              positional_index postings).
Proof.
  intros Hall. revert positional_index.
  induction Hall as [|posting postings (H1 & H2 & H3) Hall IH];
    intros positional_index; [done|].
  destruct postings as [|posting' postings].
  - cbn [fmap list_fmap with_semicolons for_each foldl].
    pose proof (load_posting_text term posting false positional_index H1 H2 H3)
      as Hload.
    rewrite append_empty_r in Hload. by rewrite Hload.
  - change (with_semicolons (PositionalIndex.posting_text
                               <$> posting :: posting' :: postings))
      with ((PositionalIndex.posting_text posting +:+ ";")
            :: with_semicolons (PositionalIndex.posting_text
                                  <$> posting' :: postings)).
    cbn [for_each foldl].
    rewrite (load_posting_text term posting true positional_index H1 H2 H3).
    cbn [mbind outcome_bind]. apply IH.
Qed.

Lemma split_go_with_semicolons (texts : list string) :
  texts ≠ [] →
  Forall (λ t, t ≠ "" ∧ all_chars (λ c, negb (isspace c)) t = true) texts →
  split_go "" (join "; " texts +:+ nl) = with_semicolons texts.
Proof.
  intros Hne Hall. induction Hall as [|t texts [Ht1 Ht2] Hall IH]; [done|].
  destruct texts as [|t' texts].
  - cbn [join with_semicolons]. rewrite split_go_nospace, append_nil by done.
    unfold nl. by rewrite split_go_space.
  - change (join "; " (t :: t' :: texts))
      with (t +:+ "; " +:+ join "; " (t' :: texts)).
    change (with_semicolons (t :: t' :: texts))
      with ((t +:+ ";") :: with_semicolons (t' :: texts)).
    rewrite !append_assoc. rewrite split_go_nospace, append_nil by done.
    rewrite !append_cons, append_nil.
    change (split_go t (String ";" (String " " (join "; " (t' :: texts) +:+ nl))))
      with (split_go (t +:+ ";") (String " " (join "; " (t' :: texts) +:+ nl))).
    rewrite split_go_space; [|done|by destruct t]. by rewrite IH.
Qed.

Lemma sorted_postings_spec (postings : gmap Z (list Z)) :
  let sorted := merge_sort PositionalIndex.posting_le (map_to_list postings) in
  sorted ≡ₚ map_to_list postings
  ∧ (postings ≠ ∅ → sorted ≠ [])
  ∧ ∀ posting, posting ∈ sorted ↔ postings !! posting.1 = Some posting.2.
Proof.
  intros sorted.
  assert (sorted ≡ₚ map_to_list postings) as Hperm
    by apply merge_sort_Permutation.
  split; [done|]. split.
  - intros Hne Hnil. rewrite Hnil in Hperm. apply Permutation_nil_l in Hperm.
    symmetry in Hperm. by apply map_to_list_empty_iff in Hperm.
  - intros [d ps]. rewrite Hperm. apply elem_of_map_to_list.
Qed.

(** Loading one saved line. *)
Lemma load_positional_line (term : string) (postings : gmap Z (list Z))
    (positional_index : gmap string (gmap Z (list Z))) :
  term ≠ "" → all_chars (λ c, negb (isspace c)) term = true → postings ≠ ∅ →
  (∀ doc_id positions, postings !! doc_id = Some positions →
     0 ≤ doc_id ∧ positions ≠ [] ∧ Forall (λ p, 0 ≤ p) positions) →
  positional_index !! term = None →
  PositionalPhraseQuery.load_line positional_index
    (PositionalIndex.save_line term postings)
  = Ok (<[term := postings]> positional_index).
Proof.
  intros Hterm Hspace Hne Hwf Hnew.
  destruct (sorted_postings_spec postings) as (Hperm & Hnonempty & Hsorted).
  set (sorted := merge_sort PositionalIndex.posting_le (map_to_list postings)) in *.
  assert (Forall (λ posting, 0 ≤ posting.1 ∧ posting.2 ≠ []
                             ∧ Forall (λ p, 0 ≤ p) posting.2) sorted) as Hall.
  { apply Forall_forall. intros [d ps] Hin. by apply Hwf, Hsorted. }
  unfold PositionalPhraseQuery.load_line, PositionalIndex.save_line.
  fold sorted. cbn zeta. rewrite split_strip. unfold split.
  rewrite split_go_nospace, append_nil by done.
  rewrite append_cons, append_nil, split_go_space by done.
  change (String LF "") with nl. rewrite split_go_with_semicolons.
  2:{ intros Hnil. apply fmap_nil_inv in Hnil. by apply Hnonempty. }
  2:{ apply Forall_fmap. eapply Forall_impl; [exact Hall|].
      intros posting (H1 & H2 & H3).
      destruct (posting_text_chars posting H1 H2 H3) as [Hne' Hchars].
      split; [done|]. eapply all_chars_weaken; [|exact Hchars].
      intros c Hc. by destruct (posting_char_classes c Hc) as (? & _). }
  rewrite for_each_load_posting by done. f_equal.
  assert (∀ (l : list (Z * list Z)) (acc : gmap string (gmap Z (list Z)))
            (pm : gmap Z (list Z)),
            acc !! term = Some pm →
            foldl (λ m posting,
                     PositionalPhraseQuery.set_positions term posting.1
                       posting.2 m) acc l
            = <[term := foldl (λ m '(k, v), <[k := v]> m) pm l]> acc) as Hfold.
  { induction l as [|[d ps] l IH]; intros acc pm Hacc.
    - cbn. by rewrite insert_id.
    - cbn [foldl fst snd]. unfold PositionalPhraseQuery.set_positions at 2.
      rewrite Hacc. cbn [default from_option id].
      rewrite (IH _ (<[d := ps]> pm)) by apply lookup_insert_eq.
      by rewrite insert_insert_eq. }
  destruct sorted as [|[d ps] sorted'] eqn:Hs; [by destruct Hnonempty|].
  cbn [foldl fst snd]. unfold PositionalPhraseQuery.set_positions at 2.
  rewrite Hnew. cbn [default from_option id].
  rewrite (Hfold _ _ (<[d := ps]> ∅)) by apply lookup_insert_eq.
  rewrite insert_insert_eq. f_equal.
  apply (foldl_insert_perm postings ((d, ps) :: sorted')). done.
Qed.

Lemma positional_body_no_line_break (term : string) (postings : gmap Z (list Z)) :
  all_chars (λ c, negb (isspace c)) term = true →
  (∀ doc_id positions, postings !! doc_id = Some positions →
     0 ≤ doc_id ∧ positions ≠ [] ∧ Forall (λ p, 0 ≤ p) positions) →
  no_line_break
    (term +:+ " "
     +:+ join "; " (PositionalIndex.posting_text
                      <$> merge_sort PositionalIndex.posting_le
                            (map_to_list postings))) = true.
Proof.
  intros Hspace Hwf.
  destruct (sorted_postings_spec postings) as (_ & _ & Hsorted).
  rewrite !all_chars_app. cbn [all_chars andb].
  assert (no_line_break term = true) as ->.
  { eapply all_chars_weaken; [|exact Hspace]. intros c Hc.
    apply bool_decide_eq_true. split; intros ->; by vm_compute in Hc. }
  apply all_chars_join; [done|]. apply Forall_fmap, Forall_forall.
  intros [d ps] Hin. apply Hsorted in Hin. cbn [fst snd] in Hin.
  destruct (Hwf d ps Hin) as (H1 & H2 & H3).
  destruct (posting_text_chars (d, ps) H1 H2 H3) as [_ Hchars].
  unfold compose. eapply all_chars_weaken; [|exact Hchars]. intros c Hc.
  apply bool_decide_eq_true.
  by destruct (posting_char_classes c Hc) as (_ & _ & ? & ?).
Qed.

Lemma load_positional_lines (items : list (string * gmap Z (list Z)))
    (acc : gmap string (gmap Z (list Z))) :
  NoDup (items.*1) →
  Forall (λ '(term, postings),
            term ≠ "" ∧ all_chars (λ c, negb (isspace c)) term = true
            ∧ postings ≠ ∅
            ∧ ∀ doc_id positions, postings !! doc_id = Some positions →
                0 ≤ doc_id ∧ positions ≠ [] ∧ Forall (λ p, 0 ≤ p) positions)
         items →
  (∀ term, term ∈ items.*1 → acc !! term = None) →
  for_each PositionalPhraseQuery.load_line acc
    ((λ '(term, postings), PositionalIndex.save_line term postings) <$> items)
  = Ok (foldl (λ m '(k, v), <[k := v]> m) acc items).
Proof.
  intros Hnd Hall. revert acc Hnd.
  induction Hall as [|[term postings] items (H1 & H2 & H3 & H4) Hall IH];
    intros acc Hnd Hacc; [done|].
  cbn [fmap list_fmap for_each foldl fst] in *.
  apply NoDup_cons in Hnd as [Hterm Hnd].
  rewrite load_positional_line; [|done..|apply Hacc, list_elem_of_here].
  cbn [mbind outcome_bind]. apply IH; [done|].
  intros t Hin. rewrite lookup_insert_ne; [|by intros ->].
  by apply Hacc, list_elem_of_further.
Qed.

(** The lines of the file [save_positional_index] writes, one for each
    term in the order of the terms. *)
Lemma saved_positional_lines
    (positional_index : gmap string (gmap Z (list Z))) :
  well_formed_positional_index positional_index →
  readlines (PositionalIndex.save_positional_index positional_index)
  = (λ '(term, postings), PositionalIndex.save_line term postings)
    <$> merge_sort PositionalIndex.item_le (map_to_list positional_index).
Proof.
  intros Hwf.
  set (items := merge_sort PositionalIndex.item_le (map_to_list positional_index)).
  assert (∀ term postings, (term, postings) ∈ items
            → positional_index !! term = Some postings) as Hitems.
  { intros term postings. unfold items. rewrite merge_sort_Permutation.
    apply elem_of_map_to_list. }
  set (body := (λ '(term, postings),
    term +:+ " "
    +:+ join "; " (PositionalIndex.posting_text
                     <$> merge_sort PositionalIndex.posting_le
                           (map_to_list postings)))
    : string * gmap Z (list Z) → string).
  assert (PositionalIndex.save_positional_index positional_index
          = foldr (λ w rest, (w +:+ nl) +:+ rest) "" (body <$> items)) as ->.
  { unfold PositionalIndex.save_positional_index. fold items. clear.
    induction items as [|[term postings] l IH]; [done|].
    cbn [foldr fmap list_fmap]. rewrite IH. f_equal.
    unfold body, PositionalIndex.save_line, nl. by rewrite !append_assoc. }
  rewrite readlines_lines.
  - rewrite <-list_fmap_compose. apply list_fmap_ext.
    intros _ [term postings] _.
    unfold compose, body, PositionalIndex.save_line, nl.
    by rewrite !append_assoc.
  - apply Forall_fmap, Forall_forall. intros [term postings] Hin.
    destruct (Hwf term postings) as (_ & H2 & _ & H4); [by apply Hitems|].
    by apply positional_body_no_line_break.
Qed.

Lemma load_saved_positional_index
    (positional_index : gmap string (gmap Z (list Z))) :
  well_formed_positional_index positional_index →
  PositionalPhraseQuery.load_positional_index
    (PositionalIndex.save_positional_index positional_index)
  = Ok positional_index.
Proof.
  intros Hwf. unfold PositionalPhraseQuery.load_positional_index.
  rewrite saved_positional_lines by done.
  set (items := merge_sort PositionalIndex.item_le (map_to_list positional_index)).
  assert (items ≡ₚ map_to_list positional_index) as Hperm
    by apply merge_sort_Permutation.
  rewrite load_positional_lines.
  - f_equal. by apply foldl_insert_perm.
  - rewrite Hperm. apply NoDup_fst_map_to_list.
  - apply Forall_forall. intros [term postings] Hin. apply Hwf.
    rewrite Hperm in Hin. by apply elem_of_map_to_list.
  - intros. apply lookup_empty.
Qed.

(** X28.  Loading the saved text of a positional index gives the index
    back, and [count_terms] counts the terms of the index on the file, for
    an index of nonempty terms without white space, each with a document,
    whose position lists are nonempty and whose document ids and positions
    are not negative.  A line is the term followed by its postings
    [docId:position,position,...], separated by a semicolon and a space, in
    the order of the document ids. *)
Theorem load_save_positional_index
    (positional_index : gmap string (gmap Z (list Z))) :
  well_formed_positional_index positional_index →
  PositionalPhraseQuery.load_positional_index
    (PositionalIndex.save_positional_index positional_index)
  = Ok positional_index
  ∧ CompareIndexes.count_terms
      (Some (PositionalIndex.save_positional_index positional_index))
    = Z.of_nat (size positional_index).
Proof.
  intros Hwf. split; [by apply load_saved_positional_index|].
  unfold CompareIndexes.count_terms, len.
  rewrite saved_positional_lines, length_fmap by done.
  rewrite <-length_map_to_list. f_equal.
  apply Permutation_length, merge_sort_Permutation.
Qed.

Lemma well_formed_positional_index_example :
  well_formed_positional_index
    {[ "real" := {[0 := [0]; 1 := [2; 5]]}; "madrid" := {[0 := [1]]} ]}.
Proof.
  intros term postings Hl.
  apply lookup_insert_Some in Hl as [[<- <-]|[_ Hl]].
  - split; [done|]. split; [done|]. split.
    { apply insert_non_empty. }
    intros doc_id positions Hp.
    apply lookup_insert_Some in Hp as [[<- <-]|[_ Hp]].
    + split; [lia|]. split; [done|]. repeat constructor; lia.
    + apply lookup_singleton_Some in Hp as [<- <-].
      split; [lia|]. split; [done|]. repeat constructor; lia.
  - apply lookup_singleton_Some in Hl as [<- <-].
    split; [done|]. split; [done|]. split.
    { apply insert_non_empty. }
    intros doc_id positions Hp.
    apply lookup_singleton_Some in Hp as [<- <-].
    split; [lia|]. split; [done|]. repeat constructor; lia.
Qed.

Lemma load_save_positional_index_witness :
  let positional_index : gmap string (gmap Z (list Z)) :=
    {[ "real" := {[0 := [0]; 1 := [2; 5]]}; "madrid" := {[0 := [1]]} ]} in
  PositionalPhraseQuery.load_positional_index
    (PositionalIndex.save_positional_index positional_index)
  = Ok positional_index.
Proof.
  intros positional_index.
  apply (load_save_positional_index positional_index
           well_formed_positional_index_example).
Defined.

Lemma built_positional_index_well_formed (documents : list (list string)) :
  (∀ tokens token, tokens ∈ documents → token ∈ tokens →
     token ≠ "" ∧ all_chars (λ c, negb (isspace c)) token = true) →
  well_formed_positional_index
    (PositionalIndex.build_positional_index_of documents).
Proof.
  intros Htokens term postings Hl.
  destruct (build_positional_lookup documents term) as [Hlookup Hne].
  rewrite Hl in Hlookup, Hne. cbn [default from_option id] in Hlookup.
  assert (∀ doc_id positions, postings !! doc_id = Some positions →
            0 ≤ doc_id ∧ positions ≠ [] ∧ Forall (λ p, 0 ≤ p) positions
            ∧ ∃ tokens, tokens ∈ documents ∧ term ∈ tokens) as Hpostings.
  { intros doc_id positions Hp. rewrite Hlookup in Hp.
    destruct (decide (0 ≤ doc_id)); [|done]. split; [done|].
    destruct (documents !! Z.to_nat doc_id) as [tokens|] eqn:Hdoc; [|done].
    cbn in Hp.
    destruct (process_document_positions doc_id tokens) as [Ha Hb].
    destruct (Hb term positions Hp) as [Hnonempty _].
    split; [done|].
    assert (∀ p, p ∈ positions → 0 ≤ p ∧ tokens !! Z.to_nat p = Some term)
      as Hmem.
    { intros p Hin. apply Ha.
      unfold PositionalIndex.process_document. cbn [snd]. by rewrite Hp. }
    split; [apply Forall_forall; intros p Hin; by apply Hmem|].
    exists tokens. split; [by eapply list_elem_of_lookup_2|].
    destruct positions as [|p positions']; [done|].
    destruct (Hmem p (list_elem_of_here _ _)) as [_ Htoken].
    by eapply list_elem_of_lookup_2. }
  assert (postings ≠ ∅) as Hnonempty by (intros ->; done).
  apply map_choose in Hnonempty as (doc_id & positions & Hp).
  destruct (Hpostings doc_id positions Hp) as (_ & _ & _ & tokens & Hdoc & Hin).
  destruct (Htokens tokens term Hdoc Hin) as [H1 H2].
  split; [done|]. split; [done|]. split; [by intros ->|].
  intros d ps Hd. by destruct (Hpostings d ps Hd) as (? & ? & ? & _).
Qed.

(** X29.  The positional index [build_positional_index] makes of documents
    whose tokens are nonempty and without white space survives the file:
    [load_positional_index] of the text [save_positional_index] writes for
    it returns the same index, so that phrase queries on the loaded index
    are answered as on the index that was built. *)
Theorem positional_index_is_saved_and_loaded (documents : list (list string)) :
  (∀ tokens token, tokens ∈ documents → token ∈ tokens →
     token ≠ "" ∧ all_chars (λ c, negb (isspace c)) token = true) →
  let positional_index := PositionalIndex.build_positional_index_of documents in
  ∃ loaded,
    PositionalPhraseQuery.load_positional_index
      (PositionalIndex.save_positional_index positional_index) = Ok loaded
    ∧ loaded = positional_index
    ∧ ∀ phrase d,
        d ∈ PositionalPhraseQuery.phrase_query phrase loaded
        ↔ split (lower phrase) ≠ []
          ∧ ∃ p, ∀ i w, split (lower phrase) !! i = Some w
                        → token_at documents d (p + Z.of_nat i) w.
Proof.
  intros Htokens positional_index. exists positional_index.
  split; [by apply load_saved_positional_index,
             built_positional_index_well_formed|].
  split; [done|]. intros phrase d. rewrite phrase_query_offsets. cbn zeta.
  split; intros [Hne [p Hp]]; (split; [done|]); exists p; intros i w Hi.
  - by apply occurs_at_built, Hp.
  - by apply occurs_at_built, Hp.
Qed.

Lemma positional_index_is_saved_and_loaded_witness :
  let documents :=
    [["real"; "madrid"; "win"]; ["barcelona"; "beat"; "real"; "madrid"]] in
  ∃ loaded,
    PositionalPhraseQuery.load_positional_index
      (PositionalIndex.save_positional_index
         (PositionalIndex.build_positional_index_of documents)) = Ok loaded
    ∧ loaded = PositionalIndex.build_positional_index_of documents
    ∧ ∀ phrase d,
        d ∈ PositionalPhraseQuery.phrase_query phrase loaded
        ↔ split (lower phrase) ≠ []
          ∧ ∃ p, ∀ i w, split (lower phrase) !! i = Some w
                        → token_at documents d (p + Z.of_nat i) w.
Proof.
  intros documents. apply (positional_index_is_saved_and_loaded documents).
  intros tokens token Hdoc Htoken.
  apply list_elem_of_In in Hdoc. cbn in Hdoc.
  destruct Hdoc as [<-|[<-|[]]];
    apply list_elem_of_In in Htoken; cbn in Htoken;
    repeat (destruct Htoken as [<-|Htoken]; [by split|]); done.
Defined.

(** * Letter case in Boolean queries *)

Lemma lower_char_classes (c : ascii) :
  isword (lower_char c) = isword c
  ∧ bool_decide (lower_char c = "("%char ∨ lower_char c = ")"%char)
    = bool_decide (c = "("%char ∨ c = ")"%char)
  ∧ (bool_decide (c = "("%char ∨ c = ")"%char) = true → lower_char c = c).
Proof.
  pose proof (forall_ascii (λ c,
    Bool.eqb (isword (lower_char c)) (isword c)
    && Bool.eqb (bool_decide (lower_char c = "("%char ∨ lower_char c = ")"%char))
                (bool_decide (c = "("%char ∨ c = ")"%char))
    && implb (bool_decide (c = "("%char ∨ c = ")"%char))
             (bool_decide (lower_char c = c)))) as Hall.
  specialize (Hall ltac:(by vm_compute) c). cbn beta in Hall.
  apply andb_prop in Hall as [[H1 H2]%andb_prop H3].
  apply Bool.eqb_prop in H1, H2. split; [done|]. split; [done|].
  intros Hp. rewrite Hp in H3. by apply bool_decide_eq_true in H3.
Qed.

Lemma lower_app (s t : string) : lower (s +:+ t) = lower s +:+ lower t.
Proof.
  induction s as [|c s IH]; [done|].
  rewrite append_cons. cbn [lower map_string]. fold (lower (s +:+ t)).
  fold (lower s). by rewrite IH, append_cons.
Qed.

Lemma flush_lower (cur : string) :
  Boolean.flush (lower cur) = lower <$> Boolean.flush cur.
Proof. by destruct cur. Qed.

Lemma findall_go_lower (cur s : string) :
  Boolean.findall_go (lower cur) (lower s) = lower <$> Boolean.findall_go cur s.
Proof.
  revert cur. induction s as [|c s IH]; intros cur.
  - apply flush_lower.
  - destruct (lower_char_classes c) as (Hword & Hparen & Hsame).
    change (lower (String c s)) with (String (lower_char c) (lower s)).
    cbn [Boolean.findall_go]. rewrite Hword, Hparen.
    destruct (isword c).
    + rewrite <-IH, lower_app. done.
    + destruct (bool_decide (c = "("%char ∨ c = ")"%char)) eqn:Hp.
      * rewrite fmap_app, fmap_cons, flush_lower, <-(IH "").
        change (lower (String c "")) with (String (lower_char c) "").
        done.
      * by rewrite fmap_app, flush_lower, <-(IH "").
Qed.

Lemma upper_lower (tok : string) : upper (lower tok) = upper tok.
Proof.
  induction tok as [|c tok IH]; [done|].
  cbn. by rewrite upper_lower_char, <-IH.
Qed.

Lemma lower_idemp (tok : string) : lower (lower tok) = lower tok.
Proof.
  induction tok as [|c tok IH]; [done|].
  cbn. rewrite lower_char_idemp. f_equal. exact IH.
Qed.

Lemma lower_parenthesis (tok : string) :
  lower tok ∈ ["("; ")"] ↔ tok ∈ ["("; ")"].
Proof.
  assert (∀ t, t ∈ ["("; ")"]
            ↔ ∃ c, t = String c "" ∧ (c = "("%char ∨ c = ")"%char)) as Hparen.
  { intros t. split.
    - intros Hin. apply list_elem_of_In in Hin. cbn in Hin.
      destruct Hin as [<-|[<-|[]]]; eexists; (split; [done|]); auto.
    - intros (c & -> & [-> | ->]); set_solver. }
  rewrite !Hparen. split.
  - intros (c & Hc & Hp). destruct tok as [|a [|b tok]]; [done| |done].
    injection Hc as <-. exists a. split; [done|].
    destruct (lower_char_classes a) as (_ & Heq & _).
    assert (bool_decide (a = "("%char ∨ a = ")"%char) = true) as Hb.
    { rewrite <-Heq. by apply bool_decide_eq_true_2. }
    by apply bool_decide_eq_true in Hb.
  - intros (c & -> & Hp). exists c. split; [|done].
    destruct (lower_char_classes c) as (_ & _ & Hsame).
    change (lower (String c "")) with (String (lower_char c) "").
    rewrite Hsame; [done|]. by apply bool_decide_eq_true_2.
Qed.

Lemma standardize_lower (tok : string) :
  Boolean.standardize (lower tok) = Boolean.standardize tok.
Proof.
  unfold Boolean.standardize. rewrite upper_lower, lower_idemp.
  destruct (bool_decide (upper tok ∈ _)); [done|].
  destruct (bool_decide (tok ∈ ["("; ")"])) eqn:Hp.
  - apply bool_decide_eq_true in Hp.
    rewrite bool_decide_eq_true_2 by by apply lower_parenthesis.
    apply list_elem_of_In in Hp. by destruct Hp as [<-|[<-|[]]].
  - apply bool_decide_eq_false in Hp.
    rewrite bool_decide_eq_false_2; [done|]. by rewrite lower_parenthesis.
Qed.

Lemma tokenize_lower (query : string) :
  Boolean.tokenize (lower query) = Boolean.tokenize query.
Proof.
  unfold Boolean.tokenize, Boolean.findall.
  change "" with (lower "") at 1. rewrite findall_go_lower.
  rewrite <-list_fmap_compose. apply list_fmap_ext.
  intros _ tok _. apply standardize_lower.
Qed.

(** X30.  Boolean queries of code points below 256 do not depend on the
    case of their letters: two such query texts that are equal in lower
    case have the same tokens, and [process_boolean_query] returns the same
    for both, operators and terms alike.  (Beyond that range this fails:
    U+0130 and "i" followed by U+0307 are equal in lower case and give
    different tokens.) *)
Theorem boolean_query_ignores_case (query1 query2 : string)
    (inverted_index : gmap string (gset Z)) (all_docs : gset Z) :
  lower query1 = lower query2 →
  Boolean.tokenize query1 = Boolean.tokenize query2
  ∧ Boolean.process_boolean_query query1 inverted_index all_docs
    = Boolean.process_boolean_query query2 inverted_index all_docs.
Proof.
  intros Hlower.
  assert (Boolean.tokenize query1 = Boolean.tokenize query2) as Htokens.
  { by rewrite <-(tokenize_lower query1), <-(tokenize_lower query2), Hlower. }
  split; [done|]. unfold Boolean.process_boolean_query. by rewrite Htokens.
Qed.

Lemma boolean_query_ignores_case_witness :
  Boolean.process_boolean_query "Real and NOT Barcelona" example_index
    (Boolean.build_all_docs example_index)
  = Boolean.process_boolean_query "real AND not BARCELONA" example_index
      (Boolean.build_all_docs example_index).
Proof.
  apply (boolean_query_ignores_case "Real and NOT Barcelona"
           "real AND not BARCELONA").
  reflexivity.
Defined.
